(** * Story graph validators of [generate_story.py]

    A shallow embedding of the narrative-graph model and of its validators,
    followed by the properties established about them.

    Conventions of the embedding.
    - A Python [str] is a Rocq [string]; a character is a code point
      below 256.
    - [dict[str, StoryParts]] is an association list in insertion order;
      Python guarantees unique keys, which is the predicate [unique_keys].
    - A call that can raise returns an [outcome]; loops that Python runs
      with [while] or by unbounded recursion take a [fuel] argument and
      the theorems show which fuel is enough. *)

From Stdlib Require Import Ascii String QArith Qabs.
From stdpp Require Import base list gmap strings.

Open Scope string_scope.
Open Scope list_scope.

(** ** Outcomes of a call *)

Inductive exn := KeyError | ValueError | IndexError | AttributeError | TypeError | YAMLError.

Inductive outcome (A : Type) :=
| Ret (a : A)
| Raise (e : exn)
| OutOfFuel.
Arguments Ret {A} a.
Arguments Raise {A} e.
Arguments OutOfFuel {A}.

#[global] Instance outcome_bind : MBind outcome := fun A B f m =>
  match m with
  | Ret a => f a
  | Raise e => Raise e
  | OutOfFuel => OutOfFuel
  end.

(** [for x in xs: body], threading the mutable state [s]. *)
Fixpoint for_each {A S} (xs : list A) (body : A -> S -> outcome S) (s : S) : outcome S :=
  match xs with
  | [] => Ret s
  | x :: xs' => s' ← body x s; for_each xs' body s'
  end.

(** ** Python strings *)

Definition code (c : ascii) : N := N_of_ascii c.

(** [str.isspace] on one character. *)
Definition isspace (c : ascii) : bool :=
  let n := code c in
  ((9 <=? n) && (n <=? 13) || (28 <=? n) && (n <=? 32) || (n =? 133) || (n =? 160))%N.

(** The line boundaries of [str.splitlines]. *)
Definition is_linebreak (c : ascii) : bool :=
  let n := code c in
  ((10 <=? n) && (n <=? 13) || (28 <=? n) && (n <=? 30) || (n =? 133))%N.

Fixpoint lstrip (s : string) : string :=
  match s with
  | EmptyString => EmptyString
  | String c s' => if isspace c then lstrip s' else s
  end.

Fixpoint rstrip (s : string) : string :=
  match s with
  | EmptyString => EmptyString
  | String c s' =>
      match rstrip s' with
      | EmptyString => if isspace c then EmptyString else String c EmptyString
      | r => String c r
      end
  end.

Definition strip (s : string) : string := rstrip (lstrip s).

(** [s.startswith(p)] *)
Definition startswith (s p : string) : bool := String.prefix p s.

(** [str.splitlines()]: a carriage return directly followed by a line feed
    is one boundary, and a final boundary opens no further line. *)
Fixpoint splitlines (s : string) : list string :=
  match s with
  | EmptyString => []
  | String c s' =>
      if is_linebreak c then
        EmptyString ::
          (if (code c =? 13)%N then
             match s' with
             | String c' s'' => if (code c' =? 10)%N then splitlines s'' else splitlines s'
             | EmptyString => []
             end
           else splitlines s')
      else
        match splitlines s' with
        | [] => [String c EmptyString]
        | l :: ls => String c l :: ls
        end
  end.

(** The first occurrence of [sep] in [s]: what is before and after it. *)
Fixpoint partition_at (sep s : string) : option (string * string) :=
  if String.prefix sep s
  then Some (EmptyString, String.substring (String.length sep)
                            (String.length s - String.length sep) s)
  else match s with
       | EmptyString => None
       | String c s' =>
           match partition_at sep s' with
           | Some (before, after) => Some (String c before, after)
           | None => None
           end
       end.

(** [s.split(sep, maxsplit)] for a non-empty [sep]. *)
Fixpoint split_max (sep : string) (maxsplit : nat) (s : string) : list string :=
  match maxsplit with
  | O => [s]
  | S n =>
      match partition_at sep s with
      | None => [s]
      | Some (before, after) => before :: split_max sep n after
      end
  end.

(** [s.replace(a, b)] for one-character [a] and [b]. *)
Fixpoint replace_char (a b : ascii) (s : string) : string :=
  match s with
  | EmptyString => EmptyString
  | String c s' =>
      String (if Ascii.eqb c a then b else c) (replace_char a b s')
  end.

(** ** Regular expressions

    The fragment of Python's [re] the program's patterns are written in,
    with the engine's backtracking order: alternatives left to right,
    greedy repetition, at most one capturing group. *)

Inductive regex :=
| Eps
| Chr (c : ascii)
| Cls (p : ascii -> bool)
| Seq (r1 r2 : regex)
| Alt (r1 r2 : regex)
| Rep (lo : nat) (hi : option nat) (r : regex)
| Grp (r : regex)
| Bol
| Eol.

Definition below (count : nat) (hi : option nat) : bool :=
  match hi with
  | None => true
  | Some h => (count <? h)%nat
  end.

(** A continuation of the matcher: the offset reached, the text left and
    the capture so far; [None] asks the caller to backtrack. *)
Definition cont (A : Type) : Type := nat -> string -> option string -> option A.

(** Greedy repetition of [step], which matches the repeated pattern
    once: as many turns as possible, then fewer. A turn that matched the
    empty string is not repeated once [lo] turns are reached. *)
Fixpoint rep_loop {A} (step : nat -> string -> option string -> cont A -> option A)
    (lo : nat) (hi : option nat) (k : cont A)
    (fuel count pos : nat) (s : string) (cap : option string) : option A :=
  let more :=
    match fuel with
    | O => None
    | S fuel' =>
        if below count hi then
          step pos s cap
            (fun pos' s' cap' =>
               if ((pos' =? pos) && (lo <=? S count))%nat then None
               else rep_loop step lo hi k fuel' (S count) pos' s' cap')
        else None
    end in
  match more with
  | Some x => Some x
  | None => if (lo <=? count)%nat then k pos s cap else None
  end.

(** [run r pos s cap k] matches [r] at offset [pos], where [s] is the
    text from [pos] on and [cap] the capture so far, and hands what is
    left to the continuation [k]. *)
Fixpoint run {A} (r : regex) (pos : nat) (s : string) (cap : option string)
    (k : cont A) : option A :=
  match r with
  | Eps => k pos s cap
  | Chr c =>
      match s with
      | String c' s' => if Ascii.eqb c' c then k (S pos) s' cap else None
      | EmptyString => None
      end
  | Cls p =>
      match s with
      | String c' s' => if p c' then k (S pos) s' cap else None
      | EmptyString => None
      end
  | Seq r1 r2 => run r1 pos s cap (fun pos' s' cap' => run r2 pos' s' cap' k)
  | Alt r1 r2 =>
      match run r1 pos s cap k with
      | Some x => Some x
      | None => run r2 pos s cap k
      end
  | Grp r1 =>
      run r1 pos s cap
        (fun pos' s' _ => k pos' s' (Some (String.substring 0 (pos' - pos) s)))
  | Bol => if (pos =? 0)%nat then k pos s cap else None
  | Eol =>
      match s with
      | EmptyString => k pos s cap
      | String c EmptyString => if (code c =? 10)%N then k pos s cap else None
      | _ => None
      end
  | Rep lo hi r1 =>
      rep_loop (fun pos s cap k' => run r1 pos s cap k') lo hi k
        (String.length s + lo + 1) 0 pos s cap
  end.

(** One attempt at offset [pos]: the end offset and the capture.
    [must_advance] refuses an empty match, as the engine does right after
    an empty match at the same offset. *)
Definition match_at (r : regex) (pos : nat) (s : string) (must_advance : bool)
  : option (nat * option string) :=
  run r pos s None
    (fun pos' _ cap =>
       if must_advance && (pos' =? pos)%nat then None else Some (pos', cap)).

Fixpoint has_group (r : regex) : bool :=
  match r with
  | Grp _ => true
  | Seq r1 r2 | Alt r1 r2 => has_group r1 || has_group r2
  | Rep _ _ r1 => has_group r1
  | _ => false
  end.

(** What [findall] lists for one match: the group when the pattern has
    one (the empty string when it took no part), else the whole match. *)
Definition found (r : regex) (pos : nat) (s : string) (m : nat * option string) : string :=
  if has_group r then default EmptyString (snd m)
  else String.substring 0 (fst m - pos) s.

(** The scan of [findall]; [skip] characters are still inside the
    previous match. *)
Fixpoint findall_from (r : regex) (pos : nat) (s : string) (skip : nat) : list string :=
  let next := fun sk =>
    match s with
    | String _ s' => findall_from r (S pos) s' sk
    | EmptyString => []
    end in
  match skip with
  | S sk => next sk
  | O =>
      match match_at r pos s false with
      | None => next 0
      | Some m =>
          if (fst m =? pos)%nat then
            found r pos s m ::
              match match_at r pos s true with
              | Some m' => found r pos s m' :: next (fst m' - pos - 1)
              | None => next 0
              end
          else found r pos s m :: next (fst m - pos - 1)
      end
  end.

(** [regex.findall(s)] *)
Definition findall (r : regex) (s : string) : list string := findall_from r 0 s 0.

(** [regex.match(s)], as a truth value. *)
Definition re_match (r : regex) (s : string) : bool :=
  match match_at r 0 s false with Some _ => true | None => false end.

(** *** Pattern syntax *)

Fixpoint Lit (s : string) : regex :=
  match s with
  | EmptyString => Eps
  | String c EmptyString => Chr c
  | String c s' => Seq (Chr c) (Lit s')
  end.

(** [a|b|...] *)
Fixpoint alts (rs : list regex) : regex :=
  match rs with
  | [] => Eps
  | [r] => r
  | r :: rs' => Alt r (alts rs')
  end.

Definition between (lo hi : ascii) (c : ascii) : bool :=
  ((code lo <=? code c) && (code c <=? code hi))%N.

(** [\d], [\s], [\w], [.], [[0-9a-f]] and [[^/]] on code points below 256. *)
Definition digit (c : ascii) : bool := between "0" "9" c.
Definition space (c : ascii) : bool := isspace c.
Definition word (c : ascii) : bool :=
  let n := code c in
  (between "0" "9" c || between "a" "z" c || between "A" "Z" c || (n =? 95)
   || (n =? 170) || (n =? 178) || (n =? 179) || (n =? 181) || (n =? 185)
   || (n =? 186) || (188 <=? n) && (n <=? 190)
   || (192 <=? n) && (n <=? 214) || (216 <=? n) && (n <=? 246)
   || (248 <=? n))%N.
Definition dot (c : ascii) : bool := negb (code c =? 10)%N.
Definition hex (c : ascii) : bool := between "0" "9" c || between "a" "f" c.
Definition not_slash (c : ascii) : bool := negb (Ascii.eqb c "/").

Definition plus (r : regex) : regex := Rep 1 None r.
Definition opt (r : regex) : regex := Rep 0 (Some 1) r.

(** *** The program's patterns *)

Definition SPEEDS : list regex :=
  map Lit ["fastest"; "faster"; "fast"; "slowest"; "slower"; "slow"].

Definition PACE_PATTERN : regex :=
  Seq (Chr "/")
    (Grp (alts (SPEEDS ++
       [Seq (Lit "speed ") (Seq (plus (Cls digit)) (Seq (opt (Cls space)) (Lit "ms")))]))).

Definition META_PACE_PATTERN : regex :=
  Seq Bol
    (Seq (Grp (alts (SPEEDS ++
            [Seq (plus (Cls digit)) (Seq (opt (Cls space)) (Lit "ms"))])))
         Eol).

Definition EXCESSIVE_THRESHOLD : Q := 1 # 4.

(** [#(?:[0-9a-f]{3}){1,2}] *)
Definition HEX_COLOURS : regex :=
  Seq (Chr "#") (Rep 1 (Some 2) (Rep 3 (Some 3) (Cls hex))).

(** The alternatives that ['|'.join(NAMED_COLOURS)] contributes; joining
    no name leaves one empty alternative. The names are taken literally. *)
Definition named_alternatives (NAMED_COLOURS : list string) : list regex :=
  match NAMED_COLOURS with
  | [] => [Eps]
  | _ => map Lit NAMED_COLOURS
  end.

Definition COLOUR_PATTERN (NAMED_COLOURS : list string) : regex :=
  Seq (Chr "/")
    (Grp (alts (named_alternatives NAMED_COLOURS ++ [Seq (Lit "colour ") HEX_COLOURS]))).

Definition META_COLOUR_PATTERN (NAMED_COLOURS : list string) : regex :=
  Seq Bol (Seq (Grp (alts (named_alternatives NAMED_COLOURS ++ [HEX_COLOURS]))) Eol).

Definition EFFECTS : regex :=
  Grp (alts (map Lit ["shake"; "nudge"; "bounce"; "slide-left"; "slide-right";
                      "pulse"; "blink"; "grow"; "pop"; "glow"; "tilt"; "wobble";
                      "wave"])).

Definition EFFECT_PATTERN : regex := Seq (Chr "/") EFFECTS.
(** [EFFECT_PATTERN.pattern[1:]] *)
Definition META_EFFECT_PATTERN : regex := EFFECTS.

Definition POV_PATTERN : regex := Seq (Lit "/pov ") (plus (Cls word)).
Definition META_POV_PATTERN : regex := Seq Bol (Seq (plus (Cls word)) Eol).

Definition MESSAGE_PATTERN : regex :=
  Seq (Lit "/message") (Seq (opt (Grp (Lit "-unsent"))) (Seq (Chr " ") (plus (Cls word)))).
Definition META_MESSAGE_PATTERN : regex := Seq (Lit "message-pov ") (plus (Cls word)).

Definition MESSAGE_TITLE_PATTERN : regex :=
  Seq Bol (Seq (Lit "/message-title ") (Seq (Grp (plus (Cls not_slash))) Eol)).
Definition META_MESSAGE_TITLE_PATTERN : regex := Seq (Lit "message-title ") (plus (Cls dot)).

(** ** Data model *)

(** The three attributes of a [pathlib.Path] the program reads. *)
Record Path := {
  path_parts : list string;
  path_name : string;
  path_stem : string
}.

Record StoryPart := {
  text : string;
  filepath : Path;
  pathname : string;
  pace : option string;
  colour : option string;
  effect : option string;
  pov : option string;
  messagepov : option string;
  messagetitle : option string;
  revisit : bool;
  choices : list (string * string)
}.

Record StoryParts := {
  variants : list StoryPart;
  is_start : bool;
  is_end : bool
}.

(** The [revisit] property of [StoryParts]. *)
Definition StoryParts_revisit (g : StoryParts) : bool :=
  forallb revisit (variants g).

Definition dict := list (string * StoryParts).

Fixpoint dict_get (parts : dict) (k : string) : option StoryParts :=
  match parts with
  | [] => None
  | (k', g) :: rest => if String.eqb k k' then Some g else dict_get rest k
  end.

(** [k in parts] *)
Definition dict_mem (parts : dict) (k : string) : bool :=
  match dict_get parts k with Some _ => true | None => false end.

(** [choices.values()] *)
Definition values (c : list (string * string)) : list string := map snd c.

Definition unique_keys (parts : dict) : Prop := NoDup (map fst parts).

(** What [find_parts] guarantees of the graph it builds: every variant
    carries the key of its group as [pathname]. *)
Definition well_formed (parts : dict) : Prop :=
  unique_keys parts /\
  forall k g n, In (k, g) parts -> In n (variants g) -> pathname n = k.

(** ** Ingestion *)

(** A value loaded from YAML. *)
#[local] Unset Elimination Schemes.
Inductive yaml :=
| YNull
| YBool (b : bool)
| YInt (z : Z)
| YStr (s : string)
| YSeq (l : list yaml)
| YMap (m : list (yaml * yaml)).
#[local] Set Elimination Schemes.

Definition yaml_truthy (v : yaml) : bool :=
  match v with
  | YNull => false
  | YBool b => b
  | YInt z => negb (z =? 0)%Z
  | YStr s => negb (String.eqb s "")
  | YSeq l => match l with [] => false | _ => true end
  | YMap m => match m with [] => false | _ => true end
  end.

Definition is_key (k : string) (v : yaml) : bool :=
  match v with
  | YStr s => String.eqb s k
  | _ => false
  end.

Fixpoint lookup_key (m : list (yaml * yaml)) (k : string) : option yaml :=
  match m with
  | [] => None
  | (k', v) :: rest => if is_key k k' then Some v else lookup_key rest k
  end.

(** [metadata.get(k, d)]; only a mapping has [get]. *)
Definition yaml_get (metadata : yaml) (k : string) (d : yaml) : outcome yaml :=
  match metadata with
  | YMap m => Ret (default d (lookup_key m k))
  | _ => Raise AttributeError
  end.

(** [v.items()]; only a mapping has [items]. *)
Definition yaml_items (v : yaml) : outcome (list (yaml * yaml)) :=
  match v with
  | YMap m => Ret m
  | _ => Raise AttributeError
  end.

(** A [StoryPart] as its constructor leaves it: no annotation is checked,
    every field holds what the metadata gave. *)
Record LoadedPart := {
  loaded_choices : list (yaml * yaml);
  loaded_text : string;
  loaded_filepath : Path;
  loaded_pathname : string;
  loaded_pace : yaml;
  loaded_colour : yaml;
  loaded_effect : yaml;
  loaded_pov : yaml;
  loaded_revisit : yaml;
  loaded_messagepov : yaml;
  loaded_messagetitle : yaml
}.

Record LoadedParts := {
  loaded_variants : list LoadedPart;
  loaded_is_start : yaml;
  loaded_is_end : yaml
}.

Section Ingestion.
(** [yaml.safe_load], which raises on text that is not YAML. *)
Variable safe_load : string -> outcome yaml.

Definition parse_markdown (content : string) : outcome (yaml * string) :=
  let content := strip content in
  if negb (startswith content "---") then Ret (YMap [], content)
  else
    match split_max "---" 2 content with
    | [_; meta; body] =>
        metadata ← safe_load meta;
        Ret (metadata, replace_char "\" "/" (strip body))
    | _ => Raise ValueError
    end.

(** [f.parts[-2] if len(f.parts) > 2 else f.stem] *)
Definition pathname_of (f : Path) : string :=
  if (2 <? length (path_parts f))%nat
  then default EmptyString (rev (path_parts f) !! 1%nat)
  else path_stem f.

(** The [StoryPart(...)] call of [find_parts]. *)
Definition build_part (f : Path) (metadata : yaml) (body : string) : outcome LoadedPart :=
  declared ← yaml_get metadata "choices" (YMap []);
  items ← yaml_items declared;
  v_pace ← yaml_get metadata "pace" YNull;
  v_colour ← yaml_get metadata "colour" YNull;
  v_effect ← yaml_get metadata "effect" YNull;
  v_pov ← yaml_get metadata "pov" YNull;
  v_revisit ← yaml_get metadata "revisit" (YBool true);
  v_messagepov ← yaml_get metadata "message-pov" YNull;
  v_messagetitle ← yaml_get metadata "message-title" YNull;
  Ret {| loaded_choices :=
           filter (fun kv => yaml_truthy kv.1 && yaml_truthy kv.2) items;
         loaded_text := body;
         loaded_filepath := f;
         loaded_pathname := pathname_of f;
         loaded_pace := v_pace;
         loaded_colour := v_colour;
         loaded_effect := v_effect;
         loaded_pov := v_pov;
         loaded_revisit := v_revisit;
         loaded_messagepov := v_messagepov;
         loaded_messagetitle := v_messagetitle |}.

(** [parts[pathname].variants.append(this_part)] *)
Fixpoint append_variant (parts : list (string * LoadedParts)) (k : string)
    (this_part : LoadedPart) : option (list (string * LoadedParts)) :=
  match parts with
  | [] => None
  | (k', g) :: rest =>
      if String.eqb k k'
      then Some ((k', {| loaded_variants := loaded_variants g ++ [this_part];
                         loaded_is_start := loaded_is_start g;
                         loaded_is_end := loaded_is_end g |}) :: rest)
      else cons (k', g) <$> append_variant rest k this_part
  end.

(** One turn of the [for f in base.glob(...)] loop, on the file [f]
    whose text is [content]. *)
Definition add_document (doc : Path * string) (parts : list (string * LoadedParts))
  : outcome (list (string * LoadedParts)) :=
  parsed ← parse_markdown doc.2;
  this_part ← build_part doc.1 parsed.1 parsed.2;
  match append_variant parts (pathname_of doc.1) this_part with
  | Some parts' => Ret parts'
  | None =>
      v_start ← yaml_get parsed.1 "start" (YBool false);
      v_end ← yaml_get parsed.1 "end" (YBool false);
      Ret (parts ++ [(pathname_of doc.1,
                      {| loaded_variants := [this_part];
                         loaded_is_start := v_start;
                         loaded_is_end := v_end |})])
  end.

Definition find_parts (documents : list (Path * string))
  : outcome (list (string * LoadedParts)) :=
  for_each documents add_document [].
End Ingestion.

(** ** Node collections *)

Fixpoint all_nodes (parts : dict) : list StoryPart :=
  match parts with
  | [] => []
  | (_, path) :: rest => variants path ++ all_nodes rest
  end.

Fixpoint starting_nodes (parts : dict) : list StoryPart :=
  match parts with
  | [] => []
  | (_, path) :: rest =>
      if is_start path then variants path ++ starting_nodes rest
      else starting_nodes rest
  end.

(** ** invalid_links *)

(** The inner [for choice in part.choices.values()] with its two [break]s:
    [true] when the part is appended. The second test ([choice is None])
    cannot fire on a [str] value. *)
Fixpoint has_invalid_choice (parts : dict) (cs : list string) : bool :=
  match cs with
  | [] => false
  | choice :: rest =>
      if negb (dict_mem parts choice) then true
      else has_invalid_choice parts rest
  end.

Fixpoint invalid_links_from (parts : dict) (todo : dict) : list StoryPart :=
  match todo with
  | [] => []
  | (_, path) :: rest =>
      if is_end path then invalid_links_from parts rest
      else filter (fun part => has_invalid_choice parts (values (choices part)))
                  (variants path)
           ++ invalid_links_from parts rest
  end.

Definition invalid_links (parts : dict) : list StoryPart :=
  invalid_links_from parts parts.

(** ** unreachable_nodes *)

(** [stack.pop()]: the last element and the rest. *)
Fixpoint list_pop {A} (l : list A) : option (list A * A) :=
  match l with
  | [] => None
  | x :: l' =>
      match list_pop l' with
      | None => Some ([], x)
      | Some (rest, y) => Some (x :: rest, y)
      end
  end.

(** [for choice in node.choices.values(): if choice in parts:
    stack.extend(parts[choice].variants)] *)
Fixpoint extend_choices (parts : dict) (cs : list string) (stack : list StoryPart)
  : list StoryPart :=
  match cs with
  | [] => stack
  | choice :: rest =>
      match dict_get parts choice with
      | Some g => extend_choices parts rest (stack ++ variants g)
      | None => extend_choices parts rest stack
      end
  end.

(** The [while stack:] loop; it returns the final [visited] set. *)
Fixpoint unreachable_loop (fuel : nat) (parts : dict) (stack : list StoryPart)
    (visited : gset string) : outcome (gset string) :=
  match fuel with
  | O => OutOfFuel
  | S fuel' =>
      match list_pop stack with
      | None => Ret visited
      | Some (stack', node) =>
          if decide (path_name (filepath node) ∈ visited)
          then unreachable_loop fuel' parts stack' visited
          else
            let visited' := visited ∪ {[ path_name (filepath node) ]} in
            match dict_get parts (pathname node) with
            | None => Raise KeyError
            | Some g =>
                if is_end g then unreachable_loop fuel' parts stack' visited'
                else unreachable_loop fuel' parts
                       (extend_choices parts (values (choices node)) stack')
                       visited'
            end
      end
  end.

Definition unreachable_nodes (fuel : nat) (parts : dict) : outcome (list StoryPart) :=
  let stack := starting_nodes parts in
  let every_node := all_nodes parts in
  match stack with
  | [] => Ret every_node
  | _ =>
      visited ← unreachable_loop fuel parts stack ∅;
      Ret (filter (fun node => negb (bool_decide (path_name (filepath node) ∈ visited)))
                  every_node)
  end.

(** ** looping_nodes *)

(** [for x in xs: if f(x): return True], then [return False]. *)
Fixpoint first_true {A} (xs : list A) (f : A -> outcome bool) : outcome bool :=
  match xs with
  | [] => Ret false
  | x :: xs' => f x ≫= λ b : bool, if b then Ret true else first_true xs' f
  end.

(** The nested [depth_search]; the state is the list [loops]. *)
Fixpoint depth_search (fuel : nat) (parts : dict) (node : StoryPart)
    (ancestors : list StoryPart) (loops : list (list StoryPart))
  : outcome (list (list StoryPart)) :=
  match fuel with
  | O => OutOfFuel
  | S fuel' =>
      let ancestor_names := map pathname ancestors in
      if bool_decide (pathname node ∈ ancestor_names)
      then Ret (loops ++ [ancestors ++ [node]])
      else
        match dict_get parts (pathname node) with
        | None => Raise KeyError
        | Some g =>
            if is_end g then Ret loops
            else if (2 * length parts <? length ancestors)%nat then Ret loops
            else
              for_each (values (choices node))
                (fun choice loops =>
                   match dict_get parts choice with
                   | None => Ret loops
                   | Some target =>
                       if negb (StoryParts_revisit target)
                          && bool_decide (choice ∈ ancestor_names)
                       then Ret loops
                       else
                         for_each (variants target)
                           (fun variant loops =>
                              depth_search fuel' parts variant (ancestors ++ [node]) loops)
                           loops
                   end)
                loops
        end
  end.

(** A Python tuple or list of strings: [==] between the two kinds is
    [False] whatever they hold. *)
Inductive pyseq :=
| PyTuple (xs : list string)
| PyList (xs : list string).

Definition py_eq (a b : pyseq) : bool :=
  match a, b with
  | PyTuple x, PyTuple y => bool_decide (x = y)
  | PyList x, PyList y => bool_decide (x = y)
  | _, _ => false
  end.

(** [<] on tuples of strings. *)
Fixpoint tuple_ltb (a b : list string) : bool :=
  match a, b with
  | [], [] => false
  | [], _ :: _ => true
  | _ :: _, [] => false
  | x :: a', y :: b' =>
      match String.compare x y with
      | Lt => true
      | Gt => false
      | Eq => tuple_ltb a' b'
      end
  end.

(** [min(rotations)]: the first least element; no value on the empty list. *)
Fixpoint py_min (l : list (list string)) : option (list string) :=
  match l with
  | [] => None
  | x :: rest =>
      match py_min rest with
      | None => Some x
      | Some m => if tuple_ltb m x then Some m else Some x
      end
  end.

(** [names.index(x)] *)
Fixpoint list_index (x : string) (names : list string) : option nat :=
  match names with
  | [] => None
  | y :: rest => if String.eqb y x then Some 0 else S <$> list_index x rest
  end.

(** [l[i:] + l[:i]] *)
Definition rotate_at {A} (i : nat) (l : list A) : list A := drop i l ++ take i l.

(** The [for i in range(len(loop))] of [canonical_looping]: the test
    compares the tuple [minimum] with a list. *)
Fixpoint canonical_scan (minimum : list string) (loop : list StoryPart)
    (names : list string) (indices : list nat) : list StoryPart * list string :=
  match indices with
  | [] => (loop, names)
  | i :: rest =>
      if py_eq (PyTuple minimum) (PyList (map pathname loop))
      then (rotate_at i loop, rotate_at i names)
      else canonical_scan minimum loop names rest
  end.

Definition canonical_looping (loop : list StoryPart)
  : outcome (list StoryPart * list string) :=
  let names := map pathname loop in
  match last names with
  | None => Raise IndexError
  | Some final =>
      match list_index final names with
      | None => Raise ValueError
      | Some start =>
          let loop := drop start loop in
          let names := drop start names in
          let rotations := map (fun i => rotate_at i names) (seq 0 (length names)) in
          match py_min rotations with
          | None => Raise ValueError
          | Some minimum => Ret (canonical_scan minimum loop names (seq 0 (length loop)))
          end
      end
  end.

(** The raw loops, before they are made canonical. *)
Definition raw_loops (fuel : nat) (parts : dict) : outcome (list (list StoryPart)) :=
  for_each (starting_nodes parts)
    (fun node loops => depth_search fuel parts node [] loops) [].

(** The last [for loop in loops]; the state is [(unique, unique_name)]. *)
Definition keep_unique (loop : list StoryPart)
    (st : list (list StoryPart) * list (list string))
  : outcome (list (list StoryPart) * list (list string)) :=
  c ← canonical_looping loop;
  if bool_decide (c.2 ∈ st.2) then Ret st
  else Ret (st.1 ++ [c.1], st.2 ++ [c.2]).

Definition looping_nodes (fuel : nat) (parts : dict) : outcome (list (list StoryPart)) :=
  loops ← raw_loops fuel parts;
  st ← for_each loops keep_unique ([], []);
  Ret st.1.

(** ** escapable_looping_nodes and innescapable_looping_nodes *)

(** The nested [search] of [can_escape]. Its two branches on
    [choice not in loop_names] run the same loop. *)
Fixpoint search (fuel : nat) (parts : dict) (loop_names : gset string)
    (node : StoryPart) (visited : gset string) : outcome bool :=
  match fuel with
  | O => OutOfFuel
  | S fuel' =>
      match dict_get parts (pathname node) with
      | None => Raise KeyError
      | Some thispart =>
          if is_end thispart then Ret true
          else if decide (pathname node ∈ visited) then Ret false
          else
            let visited := visited ∪ {[ pathname node ]} in
            first_true (variants thispart) (fun variant =>
              first_true (values (choices variant)) (fun choice =>
                match dict_get parts choice with
                | None => Ret false
                | Some target =>
                    if decide (choice ∉ loop_names)
                    then first_true (variants target)
                           (fun v => search fuel' parts loop_names v visited)
                    else first_true (variants target)
                           (fun v => search fuel' parts loop_names v visited)
                end))
      end
  end.

Definition can_escape (fuel : nat) (parts : dict) (loop : list StoryPart) : outcome bool :=
  let loop_names : gset string := list_to_set (map pathname loop) in
  first_true loop (fun node => search fuel parts loop_names node ∅).

Definition escapable_looping_nodes (fuel : nat) (parts : dict)
  : outcome (list (list StoryPart)) :=
  all_loops ← looping_nodes fuel parts;
  for_each all_loops
    (fun loop escapable =>
       can_escape fuel parts loop ≫= λ b : bool,
       if b then Ret (escapable ++ [loop]) else Ret escapable) [].

Definition innescapable_looping_nodes (fuel : nat) (parts : dict)
  : outcome (list (list StoryPart)) :=
  all_loops ← looping_nodes fuel parts;
  for_each all_loops
    (fun loop innescapable =>
       can_escape fuel parts loop ≫= λ b : bool,
       if negb b then Ret (innescapable ++ [loop]) else Ret innescapable) [].

(** ** abnormal_paths *)

(** The state of [traverse]: [all_paths] and [visited_paths]. *)
Definition walk : Type := list (list StoryPart) * gset (list string).

Definition has_valid_choices (parts : dict) (g : StoryParts) : bool :=
  existsb (fun variant => existsb (dict_mem parts) (values (choices variant)))
          (variants g).

Fixpoint traverse (fuel : nat) (parts : dict) (node : StoryPart)
    (path : list StoryPart) (st : walk) : outcome walk :=
  match fuel with
  | O => OutOfFuel
  | S fuel' =>
      let new_path := path ++ [node] in
      let pathnames := map pathname new_path in
      if (5 * length parts <? length path)%nat then Ret st
      else if decide (pathnames ∈ st.2) then Ret st
      else
        let st := (st.1, st.2 ∪ {[ pathnames ]}) in
        match dict_get parts (pathname node) with
        | None => Raise KeyError
        | Some this_part =>
            if is_end this_part || negb (has_valid_choices parts this_part)
            then Ret (st.1 ++ [new_path], st.2)
            else
              for_each (variants this_part)
                (fun variant st =>
                   for_each (values (choices variant))
                     (fun choice st =>
                        match dict_get parts choice with
                        | None => Ret st
                        | Some target =>
                            if bool_decide (choice ∈ pathnames)
                               && negb (StoryParts_revisit target)
                            then Ret st
                            else
                              for_each (variants target)
                                (fun next_variant st =>
                                   traverse fuel' parts next_variant new_path st)
                                st
                        end)
                     st)
                st
        end
  end.

(** Every playthrough the traversal records, in order. *)
Definition playthroughs (fuel : nat) (parts : dict) : outcome (list (list StoryPart)) :=
  st ← for_each (starting_nodes parts)
         (fun start st => traverse fuel parts start [] st) ([], ∅);
  Ret st.1.

Definition total_length (all_paths : list (list StoryPart)) : nat :=
  foldr (fun path acc => length path + acc)%nat 0%nat all_paths.

(** [sum(len(path) for path in all_paths) / len(all_paths)], as a rational. *)
Definition average_path (all_paths : list (list StoryPart)) : Q :=
  inject_Z (Z.of_nat (total_length all_paths))
  / inject_Z (Z.of_nat (length all_paths)).

(** [abs(len(path) - average_path) > 1] *)
Definition is_abnormal (average : Q) (path : list StoryPart) : bool :=
  negb (Qle_bool (Qabs (inject_Z (Z.of_nat (length path)) - average)) 1).

Definition abnormal_paths (fuel : nat) (parts : dict) : outcome (list (list StoryPart)) :=
  all_paths ← playthroughs fuel parts;
  match all_paths with
  | [] => Ret []
  | _ => Ret (filter (fun path => is_abnormal (average_path all_paths) path) all_paths)
  end.

(** ** Metadata and marker checks *)

(** What [getattr] can find on a [StoryPart]. *)
Inductive value :=
| VNone
| VStr (s : string)
| VBool (b : bool)
| VPath (p : Path)
| VDict (d : list (string * string)).

Definition of_field (o : option string) : value :=
  match o with
  | Some s => VStr s
  | None => VNone
  end.

(** [getattr(part, name, default)]: the data attributes of the dataclass. *)
Definition getattr (part : StoryPart) (name : string) (default : value) : value :=
  if String.eqb name "text" then VStr (text part)
  else if String.eqb name "filepath" then VPath (filepath part)
  else if String.eqb name "pathname" then VStr (pathname part)
  else if String.eqb name "pace" then of_field (pace part)
  else if String.eqb name "colour" then of_field (colour part)
  else if String.eqb name "effect" then of_field (effect part)
  else if String.eqb name "pov" then of_field (pov part)
  else if String.eqb name "messagepov" then of_field (messagepov part)
  else if String.eqb name "messagetitle" then of_field (messagetitle part)
  else if String.eqb name "revisit" then VBool (revisit part)
  else if String.eqb name "choices" then VDict (choices part)
  else default.

Definition truthy (v : value) : bool :=
  match v with
  | VNone => false
  | VStr s => negb (String.eqb s "")
  | VBool b => b
  | VPath _ => true
  | VDict d => match d with [] => false | _ => true end
  end.

(** The body of the inner loop of [command_metadata]; [regex.match]
    refuses what is not a string. *)
Definition command_metadata_part (regex : regex) (property : string)
    (part : StoryPart) (nodes : list StoryPart) : outcome (list StoryPart) :=
  let declared := getattr part property VNone in
  if truthy declared then
    match declared with
    | VStr s => if negb (re_match regex s) then Ret (nodes ++ [part]) else Ret nodes
    | _ => Raise TypeError
    end
  else Ret nodes.

Definition command_metadata (parts : dict) (regex : regex) (property : string)
  : outcome (list StoryPart) :=
  for_each parts
    (fun entry nodes =>
       for_each (variants entry.2) (command_metadata_part regex property) nodes)
    [].

(** The [for line in part.text.splitlines()] of [commands_in_text]:
    [true] when the part is appended (and the loop left). *)
Fixpoint marker_lines (regex : regex) (allow_multiple : bool) (lines : list string) : bool :=
  match lines with
  | [] => false
  | line :: rest =>
      let stripped := strip line in
      if String.eqb stripped "" then marker_lines regex allow_multiple rest
      else
        let markers := findall regex stripped in
        if negb allow_multiple && (1 <? length markers)%nat then true
        else if negb (bool_decide (markers = [])) && negb (startswith stripped "/") then true
        else marker_lines regex allow_multiple rest
  end.

Fixpoint commands_in_text (parts : dict) (regex : regex) (allow_multiple : bool)
  : list StoryPart :=
  match parts with
  | [] => []
  | (_, path) :: rest =>
      filter (fun part => marker_lines regex allow_multiple (splitlines (text part)))
             (variants path)
      ++ commands_in_text rest regex allow_multiple
  end.

(** [Counter(match)], in order of first occurrence. *)
Fixpoint counter_add (x : string) (c : list (string * nat)) : list (string * nat) :=
  match c with
  | [] => [(x, 1%nat)]
  | (y, n) :: c' => if String.eqb x y then (y, S n) :: c' else (y, n) :: counter_add x c'
  end.

Definition Counter (l : list string) : list (string * nat) :=
  fold_left (fun c x => counter_add x c) l [].

(** [frequency.most_common(1)[0][1]]: the largest count. The counter is
    not empty where the program asks for it. *)
Definition most_common_count (c : list (string * nat)) : nat :=
  foldr (fun e best => Nat.max e.2 best) 0%nat c.

(** The lines kept by [[line for line in text.splitlines() if line.strip()]]. *)
Definition nonblank_lines (t : string) : list string :=
  filter (fun line => negb (String.eqb (strip line) "")) (splitlines t).

(** [most_used / len(lines)] *)
Definition fraction (most_used lines : nat) : Q :=
  inject_Z (Z.of_nat most_used) / inject_Z (Z.of_nat lines).

(** Whether [excessive_commands] appends the part. *)
Definition excessive_part (regex : regex) (threshold : Q) (part : StoryPart) : bool :=
  let lines := nonblank_lines (text part) in
  match lines with
  | [] => false
  | _ =>
      match findall regex (text part) with
      | [] => false
      | found =>
          let frequency := Counter found in
          let most_used := most_common_count frequency in
          negb (Qle_bool (fraction most_used (length lines)) threshold)
          && (4 <? length lines)%nat
      end
  end.

Fixpoint excessive_commands (parts : dict) (regex : regex) (threshold : Q)
  : list StoryPart :=
  match parts with
  | [] => []
  | (_, path) :: rest =>
      filter (excessive_part regex threshold) (variants path)
      ++ excessive_commands rest regex threshold
  end.

(** The default of the [threshold] parameter. *)
Definition default_threshold : Q := 1 # 2.

Section Concerns.
(** The lower-cased lines of the file [src/named_colours]. *)
Variable NAMED_COLOURS : list string.

Definition colour_metadata (parts : dict) :=
  command_metadata parts (META_COLOUR_PATTERN NAMED_COLOURS) "colour".
Definition colour_markers (parts : dict) :=
  commands_in_text parts (COLOUR_PATTERN NAMED_COLOURS) false.
Definition excessive_colours (parts : dict) :=
  excessive_commands parts (COLOUR_PATTERN NAMED_COLOURS) default_threshold.
End Concerns.

Definition pace_metadata (parts : dict) := command_metadata parts META_PACE_PATTERN "pace".
Definition pace_markers (parts : dict) := commands_in_text parts PACE_PATTERN false.
Definition excessive_pacing (parts : dict) :=
  excessive_commands parts PACE_PATTERN default_threshold.

Definition effect_metadata (parts : dict) := command_metadata parts META_EFFECT_PATTERN "effect".
Definition effect_markers (parts : dict) := commands_in_text parts EFFECT_PATTERN true.
Definition excessive_effects (parts : dict) :=
  excessive_commands parts EFFECT_PATTERN default_threshold.

Definition pov_metadata (parts : dict) := command_metadata parts META_POV_PATTERN "pov".
Definition pov_markers (parts : dict) := commands_in_text parts POV_PATTERN false.
Definition excessive_povs (parts : dict) :=
  excessive_commands parts POV_PATTERN default_threshold.

Definition message_metadata (parts : dict) :=
  command_metadata parts META_MESSAGE_PATTERN "message-pov".
Definition message_markers (parts : dict) := commands_in_text parts MESSAGE_PATTERN false.

Definition message_title_metadata (parts : dict) :=
  command_metadata parts META_MESSAGE_TITLE_PATTERN "message-title".
Definition message_title_markers (parts : dict) :=
  commands_in_text parts MESSAGE_TITLE_PATTERN false.

(** The concerns of the marker checks, and the check of each. *)
Inductive concern := Colour | Pace | Effect | Pov | Message | MessageTitle.

Definition marker_pattern (NAMED_COLOURS : list string) (c : concern) : regex :=
  match c with
  | Colour => COLOUR_PATTERN NAMED_COLOURS
  | Pace => PACE_PATTERN
  | Effect => EFFECT_PATTERN
  | Pov => POV_PATTERN
  | Message => MESSAGE_PATTERN
  | MessageTitle => MESSAGE_TITLE_PATTERN
  end.

Definition markers_check (NAMED_COLOURS : list string) (c : concern) (parts : dict)
  : list StoryPart :=
  match c with
  | Colour => colour_markers NAMED_COLOURS parts
  | Pace => pace_markers parts
  | Effect => effect_markers parts
  | Pov => pov_markers parts
  | Message => message_markers parts
  | MessageTitle => message_title_markers parts
  end.

(** The concerns that have an excessive-usage check. *)
Definition excessive_check (NAMED_COLOURS : list string) (c : concern)
  : option (dict -> list StoryPart) :=
  match c with
  | Colour => Some (excessive_colours NAMED_COLOURS)
  | Pace => Some excessive_pacing
  | Effect => Some excessive_effects
  | Pov => Some excessive_povs
  | Message | MessageTitle => None
  end.

(** ** The plain checks *)

Fixpoint ending_nodes (parts : dict) : list StoryPart :=
  match parts with
  | [] => []
  | (_, path) :: rest =>
      if is_end path then variants path ++ ending_nodes rest
      else ending_nodes rest
  end.

Fixpoint start_end_nodes (parts : dict) : list StoryPart :=
  match parts with
  | [] => []
  | (_, path) :: rest =>
      if is_end path && is_start path then variants path ++ start_end_nodes rest
      else start_end_nodes rest
  end.

(** [not part.text] *)
Definition no_text (part : StoryPart) : bool := String.eqb (text part) "".

Fixpoint empty_nodes (parts : dict) : list StoryPart :=
  match parts with
  | [] => []
  | (_, path) :: rest => filter (fun part => no_text part) (variants path) ++ empty_nodes rest
  end.

(** The body of the inner loop of [duplicate_nodes]; the state is
    [(text, nodes)]. *)
Definition duplicate_step (st : list string * list StoryPart) (part : StoryPart)
  : list string * list StoryPart :=
  if bool_decide (text part ∈ st.1) then (st.1, st.2 ++ [part])
  else (st.1 ++ [text part], st.2).

Definition duplicate_nodes (parts : dict) : list StoryPart :=
  (fold_left (fun st entry => fold_left duplicate_step (variants entry.2) st)
             parts ([], [])).2.

(** [not part.choices] *)
Definition no_choices (part : StoryPart) : bool :=
  match choices part with
  | [] => true
  | _ => false
  end.

Fixpoint dead_ends (parts : dict) : list StoryPart :=
  match parts with
  | [] => []
  | (_, path) :: rest =>
      if negb (is_end path)
      then filter (fun part => no_choices part) (variants path) ++ dead_ends rest
      else dead_ends rest
  end.

Fixpoint continuing_ends (parts : dict) : list StoryPart :=
  match parts with
  | [] => []
  | (_, path) :: rest =>
      if is_end path
      then filter (fun part => negb (no_choices part)) (variants path) ++ continuing_ends rest
      else continuing_ends rest
  end.

Fixpoint revist_variants (parts : dict) : list StoryPart :=
  match parts with
  | [] => []
  | (_, path) :: rest =>
      filter (fun part => StoryParts_revisit path && negb (revisit part)) (variants path)
      ++ revist_variants rest
  end.

Fixpoint noncontinuing_variants (parts : dict) : list StoryPart :=
  match parts with
  | [] => []
  | (_, path) :: rest =>
      let variant_choices :=
        existsb (fun part => 0 <? length (choices part))%nat (variants path) in
      filter (fun part => variant_choices && no_choices part) (variants path)
      ++ noncontinuing_variants rest
  end.

Fixpoint single_choice (parts : dict) : list StoryPart :=
  match parts with
  | [] => []
  | (_, path) :: rest =>
      if negb (is_end path)
      then filter (fun part => length (choices part) =? 1)%nat (variants path)
           ++ single_choice rest
      else single_choice rest
  end.

(** [len(part.choices.values()) != len(set(part.choices.values()))] *)
Definition repeats_a_target (part : StoryPart) : bool :=
  negb (length (values (choices part))
        =? size (list_to_set (values (choices part)) : gset string))%nat.

Fixpoint duplicate_choices (parts : dict) : list StoryPart :=
  match parts with
  | [] => []
  | (_, path) :: rest =>
      if negb (is_end path)
      then filter (fun part => repeats_a_target part) (variants path)
           ++ duplicate_choices rest
      else duplicate_choices rest
  end.

(** ** generate_json *)

(** The JSON values the export is made of. *)
#[local] Unset Elimination Schemes.
Inductive json :=
| JBool (b : bool)
| JStr (s : string)
| JList (l : list json)
| JObj (fields : list (string * json)).
#[local] Set Elimination Schemes.

(** [d[k] = v] on a dictionary kept in insertion order. *)
Fixpoint dict_set {V} (d : list (string * V)) (k : string) (v : V) : list (string * V) :=
  match d with
  | [] => [(k, v)]
  | (k', v') :: rest =>
      if String.eqb k k' then (k', v) :: rest else (k', v') :: dict_set rest k v
  end.

(** [a | b] on dictionaries. *)
Definition dict_or {V} (a b : list (string * V)) : list (string * V) :=
  fold_left (fun acc kv => dict_set acc kv.1 kv.2) b a.

(** [{key: value} if value else {}] *)
Definition optional (key : string) (value : option string) : list (string * json) :=
  match value with
  | Some v => if negb (String.eqb v "") then [(key, JStr v)] else []
  | None => []
  end.

Definition choices_json (cs : list (string * string)) : json :=
  JObj (map (fun kv : string * string => (kv.1, JStr kv.2)) cs).

Definition variant_json (v : StoryPart) : list (string * json) :=
  dict_or (dict_or (dict_or (dict_or (dict_or (dict_or
    [("choices", choices_json (choices v)); ("text", JStr (text v))]
    (optional "pace" (pace v)))
    (optional "colour" (colour v)))
    (optional "effect" (effect v)))
    (optional "pov" (pov v)))
    (optional "messagepov" (messagepov v)))
    (optional "messagetitle" (messagetitle v)).

Definition group_json (part : StoryParts) : json :=
  JObj [("start", JBool (is_start part));
        ("end", JBool (is_end part));
        ("revisit", JBool (StoryParts_revisit part));
        ("variants", JList (map (fun v => JObj (variant_json v)) (variants part)))].

Definition generate_json (parts : dict) : list (string * json) :=
  fold_left (fun output entry => dict_set output entry.1 (group_json entry.2)) parts [].

(** ** main *)

(** What a check returns: nodes, or loops and paths. *)
Inductive check_value :=
| Nodes (l : list StoryPart)
| Paths (l : list (list StoryPart)).

(** The truth value of what a check returns. *)
Definition has_value (value : check_value) : bool :=
  match value with
  | Nodes [] | Paths [] => false
  | _ => true
  end.

Record StoryCheck := {
  function : dict -> outcome check_value;
  check_type : string;
  required : bool;
  raise_on_empty : bool
}.

Definition nodes_of (f : dict -> list StoryPart) (parts : dict) : outcome check_value :=
  Ret (Nodes (f parts)).
Definition nodes_from (f : dict -> outcome (list StoryPart)) (parts : dict)
  : outcome check_value :=
  l ← f parts; Ret (Nodes l).
Definition paths_from (f : dict -> outcome (list (list StoryPart))) (parts : dict)
  : outcome check_value :=
  l ← f parts; Ret (Paths l).

(** The list [checks] of [main]. *)
Definition checks (fuel : nat) (NAMED_COLOURS : list string) : list StoryCheck :=
  [ {| function := nodes_of starting_nodes; check_type := "at least one starting part";
       required := true; raise_on_empty := true |};
    {| function := nodes_of ending_nodes; check_type := "at least one ending part";
       required := true; raise_on_empty := true |};
    {| function := nodes_of start_end_nodes;
       check_type := "parts that are both start and end points";
       required := true; raise_on_empty := false |};
    {| function := nodes_of empty_nodes; check_type := "parts without text";
       required := true; raise_on_empty := false |};
    {| function := nodes_of duplicate_nodes; check_type := "parts with duplicate text";
       required := true; raise_on_empty := false |};
    {| function := nodes_of invalid_links;
       check_type := "parts with missing or invalid links";
       required := false; raise_on_empty := false |};
    {| function := nodes_of dead_ends; check_type := "parts with no choices";
       required := true; raise_on_empty := false |};
    {| function := nodes_of continuing_ends; check_type := "ending parts contain choices";
       required := true; raise_on_empty := false |};
    {| function := nodes_of noncontinuing_variants;
       check_type := "parts with choices on only some variants";
       required := true; raise_on_empty := false |};
    {| function := nodes_of revist_variants;
       check_type := "parts are revisitable while others aren't";
       required := true; raise_on_empty := false |};
    {| function := nodes_of single_choice; check_type := "parts with a single choice";
       required := false; raise_on_empty := false |};
    {| function := nodes_of duplicate_choices;
       check_type := "parts with duplicate choice paths";
       required := false; raise_on_empty := false |};
    {| function := nodes_from (unreachable_nodes fuel);
       check_type := "parts that cannot be reached";
       required := true; raise_on_empty := false |};
    {| function := paths_from (escapable_looping_nodes fuel);
       check_type := "parts with looping choices";
       required := false; raise_on_empty := false |};
    {| function := paths_from (innescapable_looping_nodes fuel);
       check_type := "parts with innescapable looping choices";
       required := true; raise_on_empty := false |};
    {| function := paths_from (abnormal_paths fuel);
       check_type := "parts with very short comparable paths";
       required := false; raise_on_empty := false |};
    {| function := nodes_from (colour_metadata NAMED_COLOURS);
       check_type := "parts with valid colour options";
       required := true; raise_on_empty := false |};
    {| function := nodes_of (colour_markers NAMED_COLOURS);
       check_type := "parts with valid colour markers";
       required := true; raise_on_empty := false |};
    {| function := nodes_of (excessive_colours NAMED_COLOURS);
       check_type := "to many parts with non-unique colour markers";
       required := true; raise_on_empty := false |};
    {| function := nodes_from pace_metadata; check_type := "parts with valid pace options";
       required := true; raise_on_empty := false |};
    {| function := nodes_of pace_markers; check_type := "parts with valid pace markers";
       required := true; raise_on_empty := false |};
    {| function := nodes_of excessive_pacing;
       check_type := "to many parts with non-unique pace markers";
       required := true; raise_on_empty := false |};
    {| function := nodes_from effect_metadata;
       check_type := "parts with valid effect options";
       required := true; raise_on_empty := false |};
    {| function := nodes_of effect_markers; check_type := "parts with valid effect markers";
       required := true; raise_on_empty := false |};
    {| function := nodes_of excessive_effects;
       check_type := "to many parts with non-unique effect markers";
       required := true; raise_on_empty := false |};
    {| function := nodes_from pov_metadata; check_type := "parts with valid pov options";
       required := true; raise_on_empty := false |};
    {| function := nodes_of pov_markers; check_type := "parts with valid pov markers";
       required := true; raise_on_empty := false |};
    {| function := nodes_of excessive_povs;
       check_type := "to many parts with non-unique pov markers";
       required := true; raise_on_empty := false |};
    {| function := nodes_from message_metadata;
       check_type := "parts with valid message-pov options";
       required := true; raise_on_empty := false |};
    {| function := nodes_of message_markers;
       check_type := "parts with valid message markers";
       required := true; raise_on_empty := false |};
    {| function := nodes_from message_title_metadata;
       check_type := "parts with valid message-title options";
       required := true; raise_on_empty := false |};
    {| function := nodes_of message_title_markers;
       check_type := "parts with valid message title markers";
       required := true; raise_on_empty := false |} ].

(** [(not value and check.raise_on_empty) or (value and not check.raise_on_empty)] *)
Definition fires (check : StoryCheck) (value : check_value) : bool :=
  (negb (has_value value) && raise_on_empty check)
  || (has_value value && negb (raise_on_empty check)).

(** One turn of the loop over the checks; the state is
    [(failures, warnings)]. What is printed is left out. *)
Definition run_check (parts : dict) (check : StoryCheck) (st : nat * nat)
  : outcome (nat * nat) :=
  value ← function check parts;
  if fires check value then
    if required check then Ret (S st.1, st.2) else Ret (st.1, S st.2)
  else Ret st.

(** How [main] ends: it returns 1, or it writes the story and returns. *)
Inductive ending :=
| Failed
| Exported (story : list (string * json)).

(** [main], from the graph [find_parts] returned. *)
Definition main (fuel : nat) (NAMED_COLOURS : list string) (parts : dict) : outcome ending :=
  match parts with
  | [] => Ret Failed
  | _ =>
      st ← for_each (checks fuel NAMED_COLOURS) (run_check parts) (0, 0);
      if (0 <? st.1)%nat then Ret Failed
      else Ret (Exported (generate_json parts))
  end.

(** ** Vocabulary of the statements *)

(** The nodes on which [parts[node.pathname]] finds a group. *)
Definition known (parts : dict) (n : StoryPart) : Prop :=
  exists g, dict_get parts (pathname n) = Some g.

(** A step of the matcher only moves forward. *)
Definition advancing {A} (step : nat -> string -> option string -> cont A -> option A) : Prop :=
  forall pos s cap k x, step pos s cap k = Some x ->
    exists pos' s' cap', pos <= pos' /\ k pos' s' cap' = Some x.

(** How many times the marker introducer occurs in a text. *)
Fixpoint slashes (s : string) : nat :=
  match s with
  | EmptyString => 0
  | String c s' => (if Ascii.eqb c "/" then 1 else 0) + slashes s'
  end.

(** The concerns whose check lets a line hold several markers. *)
Definition allows_multiple (c : concern) : bool :=
  match c with
  | Effect => true
  | _ => false
  end.

(** A line that [commands_in_text] refuses. *)
Definition bad_marker_line (regex : regex) (allow_multiple : bool) (line : string) : Prop :=
  strip line <> ""
  /\ ((allow_multiple = false /\ 1 < length (findall regex (strip line)))
      \/ (findall regex (strip line) <> [] /\ startswith (strip line) "/" = false)).

(** The count a counter holds for [v]. *)
Fixpoint counted (c : list (string * nat)) (v : string) : nat :=
  match c with
  | [] => 0
  | (y, n) :: c' => if String.eqb v y then n else counted c' v
  end.

(** The excessive-usage rule for one node: more than four non-blank
    lines, and some marker value found on more than [threshold] of them. *)
Definition overused (regex : regex) (threshold : Q) (part : StoryPart) : Prop :=
  4 < length (nonblank_lines (text part))
  /\ exists v,
       (threshold <
        fraction (count_occ string_dec (findall regex (text part)) v)
                 (length (nonblank_lines (text part))))%Q.

(** Every field the metadata [m] leaves out has its default in [part]. *)
Definition defaults_where_absent (m : list (yaml * yaml)) (part : LoadedPart) : Prop :=
  (lookup_key m "choices" = None -> loaded_choices part = [])
  /\ (lookup_key m "pace" = None -> loaded_pace part = YNull)
  /\ (lookup_key m "colour" = None -> loaded_colour part = YNull)
  /\ (lookup_key m "effect" = None -> loaded_effect part = YNull)
  /\ (lookup_key m "pov" = None -> loaded_pov part = YNull)
  /\ (lookup_key m "message-pov" = None -> loaded_messagepov part = YNull)
  /\ (lookup_key m "message-title" = None -> loaded_messagetitle part = YNull)
  /\ (lookup_key m "revisit" = None -> loaded_revisit part = YBool true).

(** The group [find_parts] opens for a first document of its name. *)
Definition opened_group (m : list (yaml * yaml)) (part : LoadedPart) : LoadedParts :=
  {| loaded_variants := [part];
     loaded_is_start := default (YBool false) (lookup_key m "start");
     loaded_is_end := default (YBool false) (lookup_key m "end") |}.

(** The contents the ingestion accepts: no front matter at all, or a
    front matter closed by a second delimiter that loads as a mapping
    whose choices, when declared, are a mapping. *)
Definition ingestible (safe_load : string -> outcome yaml) (content : string)
    (m : list (yaml * yaml)) (body : string) : Prop :=
  (startswith (strip content) "---" = false /\ m = [] /\ body = strip content)
  \/ (startswith (strip content) "---" = true
      /\ exists before meta rest,
           split_max "---" 2 (strip content) = [before; meta; rest]
           /\ safe_load meta = Ret (YMap m)
           /\ body = replace_char "\" "/" (strip rest)
           /\ (lookup_key m "choices" = None
               \/ exists c, lookup_key m "choices" = Some (YMap c))).

(** [node.filepath.name], the identity [unreachable_nodes] marks. *)
Definition file_name (n : StoryPart) : string := path_name (filepath n).

(** No two nodes of the graph have the same file name. *)
Definition distinct_files (parts : dict) : Prop :=
  NoDup (map file_name (all_nodes parts)).

(** The file names of the graph. *)
Definition file_names (parts : dict) : gset string :=
  list_to_set (map file_name (all_nodes parts)).

(** A valid link: some variant of group [a] has a choice whose target
    [b] is a group of the graph. *)
Definition links (parts : dict) (a b : string) : Prop :=
  exists g n label,
    In (a, g) parts /\ In n (variants g) /\ In (label, b) (choices n)
    /\ dict_mem parts b = true.

(** Reachable from a start group along valid links. *)
Inductive reachable (parts : dict) : string -> Prop :=
| reachable_start k g :
    In (k, g) parts -> is_start g = true -> reachable parts k
| reachable_link a b :
    reachable parts a -> links parts a b -> reachable parts b.

(** Reachable from a start group along valid links that leave no end
    group. *)
Inductive reachable_before_end (parts : dict) : string -> Prop :=
| before_end_start k g :
    In (k, g) parts -> is_start g = true -> reachable_before_end parts k
| before_end_link a g b :
    reachable_before_end parts a -> In (a, g) parts -> is_end g = false ->
    links parts a b -> reachable_before_end parts b.

(** The invariant of the [while stack:] loop: the stack holds nodes of
    the graph, every start node is waiting or marked, and so is every
    node a marked node outside the end groups links to. *)
Definition frontier (parts : dict) (stack : list StoryPart) (visited : gset string) : Prop :=
  (forall n, In n stack -> In n (all_nodes parts))
  /\ (forall n, In n (starting_nodes parts) -> In n stack \/ file_name n ∈ visited)
  /\ (forall n g c t v,
        In n (all_nodes parts) -> file_name n ∈ visited ->
        dict_get parts (pathname n) = Some g -> is_end g = false ->
        In c (values (choices n)) -> dict_get parts c = Some t -> In v (variants t) ->
        In v stack \/ file_name v ∈ visited).

(** The keys of the graph. *)
Definition group_names (parts : dict) : gset string := list_to_set (map fst parts).

(** Loops as [depth_search] records them: not empty, made of nodes
    whose group the graph holds. *)
Definition sound_loops (parts : dict) (loops : list (list StoryPart)) : Prop :=
  forall loop, In loop loops -> loop <> [] /\ forall n, In n loop -> known parts n.

(** The scan of [duplicate_nodes] over the nodes in iteration order:
    [seen] holds the texts met so far. *)
Fixpoint duplicate_scan (seen : list string) (nodes : list StoryPart) : list StoryPart :=
  match nodes with
  | [] => []
  | part :: rest =>
      if bool_decide (text part ∈ seen) then part :: duplicate_scan seen rest
      else duplicate_scan (seen ++ [text part]) rest
  end.

(** The texts [duplicate_nodes] has met after the nodes [nodes]. *)
Fixpoint texts_after (seen : list string) (nodes : list StoryPart) : list string :=
  match nodes with
  | [] => seen
  | part :: rest =>
      if bool_decide (text part ∈ seen) then texts_after seen rest
      else texts_after (seen ++ [text part]) rest
  end.

(** The shape the plain checks share: group by group, the variants that
    pass [test], in the groups that pass [cond]. *)
Definition select (cond : StoryParts -> bool) (test : StoryParts -> StoryPart -> bool)
    (parts : dict) : list StoryPart :=
  flat_map (fun entry : string * StoryParts =>
              if cond entry.2 then filter (fun part => test entry.2 part) (variants entry.2)
              else [])
           parts.

(** The node [n] is a variant that passes [test] in a group that passes
    [cond]. *)
Definition picked (cond : StoryParts -> bool) (test : StoryParts -> StoryPart -> bool)
    (parts : dict) (n : StoryPart) : Prop :=
  exists k g, In (k, g) parts /\ cond g = true /\ In n (variants g) /\ test g n = true.

(** Some variant of the group has a choice. *)
Definition some_variant_continues (g : StoryParts) : bool :=
  existsb (fun part => 0 <? length (choices part))%nat (variants g).

(** The documents whose group name is [k], in enumeration order. *)
Definition documents_of (k : string) (documents : list (Path * string))
  : list (Path * string) :=
  filter (fun doc : Path * string => String.eqb (pathname_of doc.1) k) documents.

(** The part [v] is what [find_parts] builds from the document [doc]. *)
Definition built_from (safe_load : string -> outcome yaml) (doc : Path * string)
    (v : LoadedPart) : Prop :=
  exists metadata body,
    parse_markdown safe_load doc.2 = Ret (metadata, body)
    /\ build_part doc.1 metadata body = Ret v.

(** The flags of [g] are those the document [doc] declares. *)
Definition flags_from (safe_load : string -> outcome yaml) (doc : Path * string)
    (g : LoadedParts) : Prop :=
  exists metadata body,
    parse_markdown safe_load doc.2 = Ret (metadata, body)
    /\ yaml_get metadata "start" (YBool false) = Ret (loaded_is_start g)
    /\ yaml_get metadata "end" (YBool false) = Ret (loaded_is_end g).

(** What [find_parts] keeps true of the groups while it reads the
    documents. *)
Definition ingested (safe_load : string -> outcome yaml)
    (documents : list (Path * string)) (parts : list (string * LoadedParts)) : Prop :=
  NoDup (map fst parts)
  /\ (forall k, In k (map fst parts) <-> documents_of k documents <> [])
  /\ (forall k g, In (k, g) parts ->
        Forall2 (built_from safe_load) (documents_of k documents) (loaded_variants g)
        /\ exists doc rest, documents_of k documents = doc :: rest
                            /\ flags_from safe_load doc g).

(** The node [b] is a variant of the target of a valid choice of [a]. *)
Definition steps (parts : dict) (a b : StoryPart) : Prop :=
  exists choice target,
    In choice (values (choices a)) /\ dict_get parts choice = Some target
    /\ In b (variants target).

(** Every node of the list leads to the next one. *)
Fixpoint chained (parts : dict) (l : list StoryPart) : Prop :=
  match l with
  | [] => True
  | a :: rest =>
      match rest with
      | [] => True
      | b :: _ => steps parts a b
      end /\ chained parts rest
  end.

(** The group of [n] is in the graph and is not an end group. *)
Definition open_node (parts : dict) (n : StoryPart) : Prop :=
  exists g, dict_get parts (pathname n) = Some g /\ is_end g = false.

(** A loop as [depth_search] records it: a chain of nodes of pairwise
    different groups outside the end groups, closed by a node of a group
    already on the chain. *)
Definition recorded_loop (parts : dict) (loop : list StoryPart) : Prop :=
  exists ancestors final,
    loop = ancestors ++ [final]
    /\ NoDup (map pathname ancestors)
    /\ In (pathname final) (map pathname ancestors)
    /\ chained parts loop
    /\ forall a, In a ancestors -> open_node parts a.

(** A loop as [looping_nodes] returns it: it opens and closes on the
    same group, meets no other group twice, follows valid choices and
    stays outside the end groups. *)
Definition simple_cycle (parts : dict) (loop : list StoryPart) : Prop :=
  exists first middle final,
    loop = first :: middle ++ [final]
    /\ pathname first = pathname final
    /\ NoDup (map pathname (first :: middle))
    /\ chained parts loop
    /\ forall n, In n loop -> open_node parts n.

(** Some variant of the group of [a] has a valid choice whose target has
    the variant [b]: the step [traverse] takes. *)
Definition group_steps (parts : dict) (a b : StoryPart) : Prop :=
  exists g variant choice target,
    dict_get parts (pathname a) = Some g /\ In variant (variants g)
    /\ In choice (values (choices variant)) /\ dict_get parts choice = Some target
    /\ In b (variants target).

Fixpoint group_chained (parts : dict) (l : list StoryPart) : Prop :=
  match l with
  | [] => True
  | a :: rest =>
      match rest with
      | [] => True
      | b :: _ => group_steps parts a b
      end /\ group_chained parts rest
  end.

(** The group of [n] lets a playthrough go on: it is not an end group
    and has a valid choice. *)
Definition goes_on (parts : dict) (n : StoryPart) : Prop :=
  exists g, dict_get parts (pathname n) = Some g
            /\ is_end g = false /\ has_valid_choices parts g = true.

(** The group of [n] ends a playthrough. *)
Definition stops (parts : dict) (n : StoryPart) : Prop :=
  exists g, dict_get parts (pathname n) = Some g
            /\ (is_end g = true \/ has_valid_choices parts g = false).

(** A playthrough as [traverse] records it. *)
Definition playthrough (parts : dict) (p : list StoryPart) : Prop :=
  exists path final,
    p = path ++ [final]
    /\ (exists first, head p = Some first /\ In first (starting_nodes parts))
    /\ group_chained parts p
    /\ (forall a, In a path -> goes_on parts a)
    /\ stops parts final
    /\ length path <= 5 * length parts.

(** What [traverse] keeps true of its state. *)
Definition walked (parts : dict) (st : walk) : Prop :=
  (forall p, In p st.1 -> playthrough parts p)
  /\ NoDup (map (map pathname) st.1)
  /\ (forall p, In p st.1 -> map pathname p ∈ st.2).

(** The part of [frontier] that needs no distinct file names: the stack
    holds nodes of the graph and every start node is waiting or marked. *)
Definition waiting (parts : dict) (stack : list StoryPart) (visited : gset string) : Prop :=
  (forall n, In n stack -> In n (all_nodes parts))
  /\ (forall n, In n (starting_nodes parts) -> In n stack \/ file_name n ∈ visited).

(** The group [k] reaches an end group along valid choices without
    passing a group twice, nor a group of [visited]. *)
Inductive escapes_simply (parts : dict) : gset string -> string -> Prop :=
| simply_end visited k g :
    dict_get parts k = Some g -> is_end g = true ->
    escapes_simply parts visited k
| simply_step visited k g v c t w :
    dict_get parts k = Some g -> is_end g = false -> k ∉ visited ->
    In v (variants g) -> In c (values (choices v)) ->
    dict_get parts c = Some t -> In w (variants t) ->
    escapes_simply parts (visited ∪ {[ k ]}) (pathname w) ->
    escapes_simply parts visited k.

(** The metadata checks of the concerns, the field each is meant for
    and the pattern it applies. *)
Definition metadata_check (NAMED_COLOURS : list string) (c : concern) (parts : dict)
  : outcome (list StoryPart) :=
  match c with
  | Colour => colour_metadata NAMED_COLOURS parts
  | Pace => pace_metadata parts
  | Effect => effect_metadata parts
  | Pov => pov_metadata parts
  | Message => message_metadata parts
  | MessageTitle => message_title_metadata parts
  end.

Definition metadata_field (c : concern) (part : StoryPart) : option string :=
  match c with
  | Colour => colour part
  | Pace => pace part
  | Effect => effect part
  | Pov => pov part
  | Message => messagepov part
  | MessageTitle => messagetitle part
  end.

Definition metadata_pattern (NAMED_COLOURS : list string) (c : concern) : regex :=
  match c with
  | Colour => META_COLOUR_PATTERN NAMED_COLOURS
  | Pace => META_PACE_PATTERN
  | Effect => META_EFFECT_PATTERN
  | Pov => META_POV_PATTERN
  | Message => META_MESSAGE_PATTERN
  | MessageTitle => META_MESSAGE_TITLE_PATTERN
  end.

(** A declared value that is not empty and that [regex.match] refuses. *)
Definition refused (regex : regex) (declared : option string) : bool :=
  match declared with
  | Some s => negb (String.eqb s "") && negb (re_match regex s)
  | None => false
  end.

(** The names of [EFFECT_PATTERN]. *)
Definition effect_names : list string :=
  ["shake"; "nudge"; "bounce"; "slide-left"; "slide-right"; "pulse"; "blink";
   "grow"; "pop"; "glow"; "tilt"; "wobble"; "wave"].

(** What is left of [s] after the prefix [w], when it has that prefix. *)
Fixpoint strip_prefix (w s : string) : option string :=
  match w with
  | EmptyString => Some s
  | String c w' =>
      match s with
      | String c' s' => if Ascii.eqb c' c then strip_prefix w' s' else None
      | EmptyString => None
      end
  end.

(** The check returns on the graph, and passes if it is required. *)
Definition passes (parts : dict) (check : StoryCheck) : Prop :=
  exists value, function check parts = Ret value
                /\ (required check = true -> fires check value = false).

(** The character [c] occurs in [s]. *)
Fixpoint occurs (c : ascii) (s : string) : bool :=
  match s with
  | EmptyString => false
  | String c' s' => Ascii.eqb c' c || occurs c s'
  end.

(** ** Sample stories *)

Definition node (stem group : string) (body : string) (cs : list (string * string)) : StoryPart :=
  {| text := body;
     filepath := {| path_parts := ["story"; group; String.append stem ".md"];
                    path_name := String.append stem ".md"; path_stem := stem |};
     pathname := group;
     pace := None; colour := None; effect := None; pov := None;
     messagepov := None; messagetitle := None;
     revisit := true; choices := cs |}.

Definition group (starts ends : bool) (vs : list StoryPart) : StoryParts :=
  {| variants := vs; is_start := starts; is_end := ends |}.

Definition LF : string := String (ascii_of_nat 10) EmptyString.

(** [text.join(lines)] with a line feed between the lines. *)
Definition unlines (lines : list string) : string := String.concat LF lines.

(** Two start groups that point at each other. *)
Definition node_a : StoryPart := node "a" "A" "first" [("go", "B")].
Definition node_b : StoryPart := node "b" "B" "second" [("back", "A")].
Definition two_starts : dict :=
  [("A", group true false [node_a]); ("B", group true false [node_b])].

(** A node that declares a message sender and a message title, neither
    in the form its pattern accepts. *)
Definition node_msg : StoryPart :=
  {| text := "hello";
     filepath := {| path_parts := ["story"; "m.md"]; path_name := "m.md"; path_stem := "m" |};
     pathname := "m";
     pace := None; colour := None; effect := None; pov := None;
     messagepov := Some "alice"; messagetitle := Some "Group chat";
     revisit := true; choices := [] |}.
Definition message_story : dict := [("m", group true true [node_msg])].

(** A colour marker alone on its line, and the same marker inside a
    sentence. *)
Definition node_colour_line : StoryPart := node "c1" "C" "/colour #ff00ff" [].
Definition node_colour_inline : StoryPart :=
  node "c2" "C" "it turned /colour #ff00ff today" [].

(** A message-title marker inside a sentence. *)
Definition node_title_inline : StoryPart :=
  node "t" "T" "it said /message-title Hello today" [].
Definition title_story : dict := [("T", group true true [node_title_inline])].

(** Five lines, four of them the same pace marker; three lines, all of
    them that marker. *)
Definition node_five_lines : StoryPart :=
  node "p5" "P" (unlines ["/fast"; "/fast"; "/fast"; "/fast"; "calm"]) [].
Definition node_three_lines : StoryPart :=
  node "p3" "Q" (unlines ["/fast"; "/fast"; "/fast"]) [].

(** Eight lines, three of them the same named colour. *)
Definition node_three_of_eight : StoryPart :=
  node "q" "R"
    (unlines ["/red"; "/red"; "/red"; "one"; "two"; "three"; "four"; "five"]) [].

(** A loader that never raises, and a file of the story. *)
Definition lenient_load (meta : string) : outcome yaml := Ret (YMap []).
Definition intro_md : Path :=
  {| path_parts := ["story"; "intro.md"]; path_name := "intro.md"; path_stem := "intro" |}.

(** An end group whose node links to a group that does not exist. *)
Definition node_end : StoryPart := node "e" "E" "the end" [("again", "nowhere")].
Definition node_to_end : StoryPart := node "s" "S" "start" [("on", "E")].
Definition dangling_end : dict :=
  [("S", group true false [node_to_end]); ("E", group false true [node_end])].

(** A story that goes on after an end group: C is only linked from it. *)
Definition node_s : StoryPart := node "s" "S" "start" [("on", "E")].
Definition node_e : StoryPart := node "e" "E" "end" [("more", "C")].
Definition node_c : StoryPart := node "c" "C" "after" [].
Definition past_the_end : dict :=
  [("S", group true false [node_s]); ("E", group false true [node_e]);
   ("C", group false false [node_c])].

(** Two groups whose only files have the same name: the second one is
    the only way to D. *)
Definition node_x : StoryPart :=
  {| text := "start";
     filepath := {| path_parts := ["story"; "intro.md"]; path_name := "intro.md";
                    path_stem := "intro" |};
     pathname := "intro";
     pace := None; colour := None; effect := None; pov := None;
     messagepov := None; messagetitle := None;
     revisit := true; choices := [("left", "c"); ("right", "a")] |}.
Definition node_a1 : StoryPart := node "1" "a" "a dead end" [].
Definition node_c1 : StoryPart := node "1" "c" "the way on" [("on", "d")].
Definition node_d : StoryPart := node "2" "d" "arrival" [].
Definition same_file_names : dict :=
  [("intro", group true false [node_x]); ("a", group false false [node_a1]);
   ("c", group false false [node_c1]); ("d", group false true [node_d])].

(** A loader that knows one front matter. *)
Definition pace_load (meta : string) : outcome yaml :=
  if String.eqb meta " pace: fast "
  then Ret (YMap [(YStr "pace", YStr "fast")])
  else Raise YAMLError.

(** A start group that leads to an end group, and a start group whose
    only choice leads back to itself. *)
Definition node_go : StoryPart := node "a" "A" "begin" [("go", "B")].
Definition node_stop : StoryPart := node "b" "B" "finish" [].
Definition there_and_done : dict :=
  [("A", group true false [node_go]); ("B", group false true [node_stop])].
Definition node_self : StoryPart := node "a" "A" "again" [("go", "A")].
Definition self_loop : dict := [("A", group true false [node_self])].

(** A short way and a long way to the end. *)
Definition node_fork : StoryPart := node "f" "F" "fork" [("short", "Z"); ("long", "L1")].
Definition node_l1 : StoryPart := node "l1" "L1" "one" [("on", "L2")].
Definition node_l2 : StoryPart := node "l2" "L2" "two" [("on", "L3")].
Definition node_l3 : StoryPart := node "l3" "L3" "three" [("on", "Z")].
Definition node_z : StoryPart := node "z" "Z" "end" [].
Definition short_and_long : dict :=
  [("F", group true false [node_fork]); ("L1", group false false [node_l1]);
   ("L2", group false false [node_l2]); ("L3", group false false [node_l3]);
   ("Z", group false true [node_z])].

(** A group with one variant that goes on and one that does not, and a
    group that is both start and end. *)
Definition node_on : StoryPart := node "on" "G" "go on" [("next", "H")].
Definition node_off : StoryPart := node "off" "G" "stay" [].
Definition node_h : StoryPart := node "h" "H" "done" [].
Definition half_continuing : dict :=
  [("G", group true false [node_on; node_off]); ("H", group true true [node_h])].

(** Three documents, two of them variants of one group. *)
Definition forest_1 : Path :=
  {| path_parts := ["story"; "forest"; "1.md"]; path_name := "1.md"; path_stem := "1" |}.
Definition forest_2 : Path :=
  {| path_parts := ["story"; "forest"; "2.md"]; path_name := "2.md"; path_stem := "2" |}.
Definition corpus : list (Path * string) :=
  [(forest_1, "trees"); (intro_md, "once"); (forest_2, "more trees")].

(** The groups [find_parts] builds from [corpus], nothing being declared. *)
Definition corpus_parts : list (string * LoadedParts) :=
  Eval vm_compute in
    match find_parts lenient_load corpus with
    | Ret parts => parts
    | _ => []
    end.

(** The first of them, the group of the two forest documents. *)
Definition forest_group : LoadedParts :=
  Eval vm_compute in
    match corpus_parts with
    | (_, g) :: _ => g
    | [] => {| loaded_variants := []; loaded_is_start := YNull; loaded_is_end := YNull |}
    end.

(** A loop with a way out: B leads back to A and on to the end E. *)
Definition node_la : StoryPart := node "a" "A" "round" [("on", "B")].
Definition node_lb : StoryPart := node "b" "B" "and round" [("back", "A"); ("out", "E")].
Definition node_le : StoryPart := node "e" "E" "out" [].
Definition loop_with_exit : dict :=
  [("A", group true false [node_la]); ("B", group false false [node_lb]);
   ("E", group false true [node_le])].

(** A node that declares a pace outside the vocabulary, and one whose
    effect only starts like an effect name. *)
Definition node_sluggish : StoryPart :=
  {| text := "slowly";
     filepath := {| path_parts := ["story"; "n.md"]; path_name := "n.md"; path_stem := "n" |};
     pathname := "n";
     pace := Some "sluggish"; colour := None; effect := Some "shaken, not stirred";
     pov := None; messagepov := None; messagetitle := None;
     revisit := true; choices := [] |}.
Definition sluggish_story : dict := [("n", group true true [node_sluggish])].

(** ** Properties *)

#[local] Arguments Nat.mul : simpl never.

(** *** invalid_links *)

Lemma in_invalid_links_from parts todo n :
  In n (invalid_links_from parts todo) ->
  exists k g, In (k, g) todo /\ is_end g = false /\ In n (variants g).
Proof.
  induction todo as [|[k g] rest IH]; simpl; [tauto|].
  destruct (is_end g) eqn:E.
  - intros H. destruct (IH H) as (k' & g' & ? & ? & ?). exists k', g'. tauto.
  - rewrite in_app_iff. intros [H|H].
    + exists k, g. apply list_elem_of_In, list_elem_of_filter in H.
      destruct H as [_ H]. apply list_elem_of_In in H. tauto.
    + destruct (IH H) as (k' & g' & ? & ? & ?). exists k', g'. tauto.
Qed.

Lemma unique_keys_same parts k g g' :
  unique_keys parts -> In (k, g) parts -> In (k, g') parts -> g = g'.
Proof.
  unfold unique_keys. induction parts as [|[k0 g0] rest IH]; simpl; [tauto|].
  intros Hnd [H1|H1] [H2|H2]; inversion Hnd as [|? ? Hnot Hnd']; subst.
  - congruence.
  - inversion H1; subst. exfalso. apply Hnot.
    apply list_elem_of_In. apply (in_map fst) in H2. exact H2.
  - inversion H2; subst. exfalso. apply Hnot.
    apply list_elem_of_In. apply (in_map fst) in H1. exact H1.
  - auto.
Qed.

(** C10. No node of a group flagged [is_end] is ever returned by
    [invalid_links], whatever its choices point to. *)
Theorem invalid_links_skips_end_groups parts k g n :
  well_formed parts ->
  In (k, g) parts -> is_end g = true -> In n (variants g) ->
  ~ In n (invalid_links parts).
Proof.
  intros [Hu Hwf] Hin Hend Hn Hbad.
  apply in_invalid_links_from in Hbad as (k' & g' & Hin' & Hend' & Hn').
  assert (k' = k) by (rewrite <- (Hwf _ _ _ Hin' Hn'); eauto).
  subst k'. rewrite (unique_keys_same _ _ _ _ Hu Hin Hin') in Hend. congruence.
Qed.

(** Well-formedness of a graph written out in full. *)
Ltac keyed_by_cases :=
  let H := fresh in
  let Hn := fresh in
  intros ? ? ? H Hn; simpl in H;
  repeat (destruct H as [H|H];
          [injection H as <- <-; simpl in Hn;
           repeat (destruct Hn as [<-|Hn]; [reflexivity|]); destruct Hn|]);
  destruct H.

Ltac well_formed_by_cases :=
  split; [unfold unique_keys; refine (bool_decide_unpack _ _); vm_compute; exact I
         | keyed_by_cases].

Lemma invalid_links_skips_end_groups_witness :
  ~ In node_end (invalid_links dangling_end).
Proof.
  apply (invalid_links_skips_end_groups dangling_end "E" (group false true [node_end]) node_end).
  - well_formed_by_cases.
  - right; left; reflexivity.
  - reflexivity.
  - left; reflexivity.
Defined.

(** *** unreachable_nodes *)

Lemma starting_nodes_none parts :
  (forall k g, In (k, g) parts -> is_start g = false) -> starting_nodes parts = [].
Proof.
  induction parts as [|[k g] rest IH]; simpl; intros H; [reflexivity|].
  rewrite (H k g) by auto. apply IH. intros k' g' Hin. apply (H k' g'). auto.
Qed.

(** C9. With no start group, [unreachable_nodes] returns every node of
    the graph: all variants of all groups, in order. *)
Theorem unreachable_nodes_without_start fuel parts :
  (forall k g, In (k, g) parts -> is_start g = false) ->
  unreachable_nodes fuel parts = Ret (all_nodes parts).
Proof.
  intros H. unfold unreachable_nodes. rewrite (starting_nodes_none parts H).
  reflexivity.
Qed.

Lemma unreachable_nodes_without_start_witness :
  unreachable_nodes 0 [("A", group false false [node_a]); ("B", group false true [node_b])]
  = Ret [node_a; node_b].
Proof.
  apply (unreachable_nodes_without_start 0
           [("A", group false false [node_a]); ("B", group false true [node_b])]).
  intros k g [H|[H|[]]]; inversion H; reflexivity.
Defined.

(** *** canonical_looping *)

Lemma canonical_scan_id minimum loop names indices :
  canonical_scan minimum loop names indices = (loop, names).
Proof. induction indices as [|i rest IH]; simpl; [reflexivity | exact IH]. Qed.

(** Whenever [canonical_looping] returns, it returns the loop cut at the
    first occurrence of its last group and in the order it was found:
    no rotation is ever applied. *)
Lemma canonical_looping_never_rotates loop c :
  canonical_looping loop = Ret c ->
  exists start, c = (drop start loop, drop start (map pathname loop)).
Proof.
  unfold canonical_looping.
  destruct (last (map pathname loop)) as [final|]; [|discriminate].
  destruct (list_index final (map pathname loop)) as [start|]; [|discriminate].
  destruct (py_min _) as [minimum|]; [|discriminate].
  rewrite canonical_scan_id. intros [= <-]. exists start. reflexivity.
Qed.

(** C2. On the loop B, A, B the canonical group names are B, A, B although
    the least rotation is A, B, B; on A, B, A, a rotation of the same
    cycle, they are A, B, A; and [looping_nodes] keeps both as two loops. *)
Theorem canonical_looping_is_not_least_rotation :
  canonical_looping [node_b; node_a; node_b]
    = Ret ([node_b; node_a; node_b], ["B"; "A"; "B"])
  /\ py_min (map (fun i => rotate_at i ["B"; "A"; "B"]) (seq 0 3)) = Some ["A"; "B"; "B"]
  /\ canonical_looping [node_a; node_b; node_a]
    = Ret ([node_a; node_b; node_a], ["A"; "B"; "A"])
  /\ looping_nodes 8 two_starts
    = Ret [[node_a; node_b; node_a]; [node_b; node_a; node_b]].
Proof. repeat split; vm_compute; reflexivity. Qed.

(** *** command_metadata *)

Lemma getattr_hyphenated part name :
  name = "message-pov" \/ name = "message-title" ->
  getattr part name VNone = VNone.
Proof. intros [-> | ->]; reflexivity. Qed.

Lemma command_metadata_absent_attribute regex property parts :
  (forall part, getattr part property VNone = VNone) ->
  command_metadata parts regex property = Ret [].
Proof.
  intros H. unfold command_metadata. generalize (@nil StoryPart) as nodes.
  induction parts as [|[k g] rest IH]; intros nodes; simpl; [reflexivity|].
  assert (Hin : for_each (variants g) (command_metadata_part regex property) nodes
                = Ret nodes).
  { induction (variants g) as [|p ps IHp]; simpl; [reflexivity|].
    replace (command_metadata_part regex property p nodes) with (Ret nodes)
      by (unfold command_metadata_part; rewrite H; reflexivity).
    exact IHp. }
  rewrite Hin. simpl. apply IH.
Qed.

(** C6. [message_metadata] and [message_title_metadata] report no node at
    all: they read the attributes "message-pov" and "message-title", which
    a [StoryPart] does not have. A node whose [messagepov] and
    [messagetitle] both fail their pattern goes unreported, while the same
    check on the attribute [messagepov] reports it. *)
Theorem message_metadata_reports_nothing :
  (forall parts, message_metadata parts = Ret [] /\ message_title_metadata parts = Ret [])
  /\ re_match META_MESSAGE_PATTERN "alice" = false
  /\ re_match META_MESSAGE_TITLE_PATTERN "Group chat" = false
  /\ message_metadata message_story = Ret []
  /\ message_title_metadata message_story = Ret []
  /\ command_metadata message_story META_MESSAGE_PATTERN "messagepov" = Ret [node_msg].
Proof.
  split.
  - intros parts. split; apply command_metadata_absent_attribute; intros part;
      apply getattr_hyphenated; auto.
  - repeat split; vm_compute; reflexivity.
Qed.

(** *** Loops that return *)

Lemma for_each_returns {A S} (xs : list A) (body : A -> S -> outcome S) :
  (forall x s, In x xs -> exists s', body x s = Ret s') ->
  forall s, exists s', for_each xs body s = Ret s'.
Proof.
  induction xs as [|x xs IH]; simpl; intros H s; [eauto|].
  destruct (H x s) as [s1 ->]; [auto|]. simpl. apply IH. intros; apply H; auto.
Qed.

(** The same with an invariant [P] of the state. *)
Lemma for_each_invariant {A S} (P : S -> Prop) (xs : list A) (body : A -> S -> outcome S) :
  (forall x s, In x xs -> P s -> exists s', body x s = Ret s' /\ P s') ->
  forall s, P s -> exists s', for_each xs body s = Ret s' /\ P s'.
Proof.
  induction xs as [|x xs IH]; simpl; intros H s Hs; [eauto|].
  destruct (H x s) as (s1 & -> & Hs1); [auto..|]. simpl.
  apply IH; [|exact Hs1]. intros; apply H; auto.
Qed.

Lemma dict_get_In parts k g : dict_get parts k = Some g -> In (k, g) parts.
Proof.
  induction parts as [|[k' g'] rest IH]; simpl; [discriminate|].
  destruct (String.eqb k k') eqn:E.
  - apply String.eqb_eq in E. intros [= ->]. subst. auto.
  - auto.
Qed.

Lemma In_dict_get parts k g : In (k, g) parts -> exists g', dict_get parts k = Some g'.
Proof.
  induction parts as [|[k' g'] rest IH]; simpl; [tauto|].
  intros [H|H].
  - inversion H; subst. rewrite String.eqb_refl. eauto.
  - destruct (String.eqb k k'); eauto.
Qed.

Lemma In_starting_nodes parts n :
  In n (starting_nodes parts) -> exists k g, In (k, g) parts /\ In n (variants g).
Proof.
  induction parts as [|[k g] rest IH]; simpl; [tauto|].
  destruct (is_start g).
  - rewrite in_app_iff. intros [H|H]; [exists k, g; auto|].
    destruct (IH H) as (k' & g' & ? & ?). exists k', g'. auto.
  - intros H. destruct (IH H) as (k' & g' & ? & ?). exists k', g'. auto.
Qed.

Section Returning.
Variable parts : dict.
Hypothesis keyed :
  forall k g n, In (k, g) parts -> In n (variants g) -> pathname n = k.

Lemma known_variant choice target v :
  dict_get parts choice = Some target -> In v (variants target) -> known parts v.
Proof.
  intros Hget Hv. exists target.
  rewrite (keyed choice target v); auto using dict_get_In.
Qed.

Lemma known_start n : In n (starting_nodes parts) -> known parts n.
Proof.
  intros H. apply In_starting_nodes in H as (k & g & Hin & Hn).
  rewrite <- (keyed _ _ _ Hin Hn) in Hin.
  apply In_dict_get in Hin. exact Hin.
Qed.

Lemma traverse_returns fuel : forall node path st,
  known parts node ->
  5 * length parts + 2 <= fuel + length path -> 1 <= fuel ->
  exists st', traverse fuel parts node path st = Ret st'.
Proof.
  induction fuel as [|fuel IH]; intros node path st [g Hg] Hfuel Hpos; [lia|].
  simpl. destruct (5 * length parts <? length path)%nat eqn:Hcut; [eauto|].
  apply Nat.ltb_ge in Hcut.
  destruct (decide _); [eauto|]. rewrite Hg.
  destruct (is_end g || negb (has_valid_choices parts g)); [eauto|].
  apply for_each_returns. intros variant st1 _.
  apply for_each_returns. intros choice st2 _.
  destruct (dict_get parts choice) as [target|] eqn:Htarget; [|eauto].
  destruct (_ && _); [eauto|].
  apply for_each_returns. intros next st3 Hnext.
  apply IH.
  - eapply known_variant; eauto.
  - rewrite length_app. simpl. lia.
  - lia.
Qed.

Lemma playthroughs_returns fuel :
  5 * length parts + 2 <= fuel ->
  exists all_paths, playthroughs fuel parts = Ret all_paths.
Proof.
  intros Hfuel. unfold playthroughs.
  destruct (for_each_returns (starting_nodes parts)
              (fun start st => traverse fuel parts start [] st)) with (s := (@nil (list StoryPart), (∅ : gset (list string))))
    as [st ->].
  - intros n st Hn. apply traverse_returns; [apply known_start; auto|simpl; lia|lia].
  - simpl. eauto.
Qed.
End Returning.

(** *** abnormal_paths *)

Lemma filter_none {A} (P : A -> Prop) `{forall x, Decision (P x)} (l : list A) :
  (forall x, x ∈ l -> ~ P x) -> filter P l = [].
Proof.
  induction l as [|x l IH]; intros Hl; [reflexivity|].
  rewrite filter_cons_False by (apply Hl; left).
  apply IH. intros y Hy. apply Hl. right. exact Hy.
Qed.

Lemma total_length_uniform (all_paths : list (list StoryPart)) (n : nat) :
  (forall p, In p all_paths -> length p = n) ->
  total_length all_paths = (length all_paths * n)%nat.
Proof.
  induction all_paths as [|p ps IH]; simpl; intros H; [reflexivity|].
  rewrite (H p) by auto. rewrite IH by auto. lia.
Qed.

Lemma average_path_uniform (all_paths : list (list StoryPart)) (n : nat) :
  all_paths <> [] ->
  (forall p, In p all_paths -> length p = n) ->
  (average_path all_paths == inject_Z (Z.of_nat n))%Q.
Proof.
  intros Hne H. unfold average_path.
  rewrite (total_length_uniform all_paths n H).
  rewrite Nat2Z.inj_mul, inject_Z_mult.
  assert (Hpos : ~ (inject_Z (Z.of_nat (length all_paths)) == 0)%Q).
  { destruct all_paths; [congruence|]. simpl length.
    unfold Qeq. simpl. lia. }
  field. exact Hpos.
Qed.

Lemma is_abnormal_uniform (all_paths : list (list StoryPart)) (p : list StoryPart) :
  (forall q, In q all_paths -> length q = length p) ->
  all_paths <> [] ->
  is_abnormal (average_path all_paths) p = false.
Proof.
  intros H Hne. unfold is_abnormal.
  apply negb_false_iff, Qle_bool_iff.
  rewrite (average_path_uniform all_paths (length p) Hne H).
  assert (E : (inject_Z (Z.of_nat (length p)) - inject_Z (Z.of_nat (length p)) == 0)%Q)
    by ring.
  rewrite E. unfold Qle. simpl. lia.
Qed.

Lemma is_abnormal_iff average p :
  is_abnormal average p = true <->
  (1 < Qabs (inject_Z (Z.of_nat (length p)) - average))%Q.
Proof.
  unfold is_abnormal. rewrite negb_true_iff.
  split.
  - intros H. apply Qnot_le_lt. intros Hle. apply Qle_bool_iff in Hle. congruence.
  - intros H. destruct (Qle_bool _ 1) eqn:E; [|reflexivity].
    apply Qle_bool_iff in E. exfalso. exact (Qlt_not_le _ _ H E).
Qed.

(** C7. On a graph as [find_parts] builds it, and with fuel for the
    length bound of the traversal, [abnormal_paths] returns: its result
    holds exactly the recorded playthroughs whose length is further than 1
    from the mean length; it is empty when all playthroughs have the same
    length and when none was recorded. *)
Theorem abnormal_paths_are_the_outliers parts fuel :
  well_formed parts ->
  5 * length parts + 2 <= fuel ->
  exists all_paths result,
    playthroughs fuel parts = Ret all_paths
    /\ abnormal_paths fuel parts = Ret result
    /\ (forall p, In p result <->
          In p all_paths
          /\ (1 < Qabs (inject_Z (Z.of_nat (length p)) - average_path all_paths))%Q)
    /\ ((forall p q, In p all_paths -> In q all_paths -> length p = length q) ->
        result = [])
    /\ (all_paths = [] -> result = []).
Proof.
  intros [_ Hkeyed] Hfuel.
  destruct (playthroughs_returns parts Hkeyed fuel Hfuel) as [all_paths Hall].
  exists all_paths. unfold abnormal_paths. rewrite Hall.
  destruct all_paths as [|p0 ps].
  - exists []. split; [reflexivity|]. split; [reflexivity|].
    split; [|auto]. intros p. simpl. tauto.
  - exists (filter (fun path => is_abnormal (average_path (p0 :: ps)) path) (p0 :: ps)).
    split; [reflexivity|]. split; [reflexivity|].
    assert (Hne : p0 :: ps <> []) by discriminate.
    revert Hne. generalize (p0 :: ps) as all. intros all Hne.
    split; [|split].
    + intros p. rewrite <- !list_elem_of_In, list_elem_of_filter.
      rewrite <- is_abnormal_iff. rewrite Is_true_true. tauto.
    + intros Hsame. apply filter_none. intros p Hp Hab.
      apply Is_true_true in Hab.
      rewrite is_abnormal_uniform in Hab; [discriminate| |exact Hne].
      intros q Hq. apply Hsame; [exact Hq|]. apply list_elem_of_In, Hp.
    + congruence.
Qed.

Lemma abnormal_paths_are_the_outliers_witness :
  exists all_paths result,
    playthroughs 12 two_starts = Ret all_paths
    /\ abnormal_paths 12 two_starts = Ret result
    /\ (forall p, In p result <->
          In p all_paths
          /\ (1 < Qabs (inject_Z (Z.of_nat (length p)) - average_path all_paths))%Q)
    /\ ((forall p q, In p all_paths -> In q all_paths -> length p = length q) ->
        result = [])
    /\ (all_paths = [] -> result = []).
Proof.
  apply (abnormal_paths_are_the_outliers two_starts 12).
  - well_formed_by_cases.
  - simpl. lia.
Defined.

(** *** The matcher moves forward *)

Lemma rep_loop_advancing {A} (step : nat -> string -> option string -> cont A -> option A)
    lo hi (k : cont A) :
  advancing step ->
  forall fuel count pos s cap x,
    rep_loop step lo hi k fuel count pos s cap = Some x ->
    exists pos' s' cap', pos <= pos' /\ k pos' s' cap' = Some x.
Proof.
  intros Hstep. induction fuel as [|fuel IH]; intros count pos s cap x; simpl.
  - destruct (lo <=? count)%nat; [|discriminate]. intros H. exists pos, s, cap. auto.
  - destruct (below count hi).
    + destruct (step pos s cap _) as [y|] eqn:E.
      * intros [= ->]. apply Hstep in E as (pos1 & s1 & cap1 & Hle & Hk).
        destruct (_ && _); [discriminate|].
        apply IH in Hk as (pos2 & s2 & cap2 & Hle2 & Hk2).
        exists pos2, s2, cap2. split; [lia|exact Hk2].
      * destruct (lo <=? count)%nat; [|discriminate]. intros H. exists pos, s, cap. auto.
    + destruct (lo <=? count)%nat; [|discriminate]. intros H. exists pos, s, cap. auto.
Qed.

Lemma run_advancing {A} (r : regex) : advancing (fun pos s cap (k : cont A) => run r pos s cap k).
Proof.
  induction r as [|c|p|r1 IH1 r2 IH2|r1 IH1 r2 IH2|lo hi r1 IH1|r1 IH1| |];
    intros pos s cap k x; simpl.
  - intros H. exists pos, s, cap. auto.
  - destruct s as [|c' s']; [discriminate|]. destruct (Ascii.eqb c' c); [|discriminate].
    intros H. exists (S pos), s', cap. auto.
  - destruct s as [|c' s']; [discriminate|]. destruct (p c'); [|discriminate].
    intros H. exists (S pos), s', cap. auto.
  - intros H. apply IH1 in H as (pos1 & s1 & cap1 & Hle1 & H).
    apply IH2 in H as (pos2 & s2 & cap2 & Hle2 & H).
    exists pos2, s2, cap2. split; [lia|exact H].
  - destruct (run r1 pos s cap k) as [y|] eqn:E.
    + intros [= ->]. apply IH1 in E. exact E.
    + intros H. apply IH2 in H. exact H.
  - intros H. eapply rep_loop_advancing in H; [exact H|exact IH1].
  - intros H. apply IH1 in H as (pos1 & s1 & cap1 & Hle1 & H). eauto.
  - destruct (pos =? 0)%nat; [|discriminate]. intros H. exists pos, s, cap. auto.
  - destruct s as [|c [|c' s']]; [| |discriminate].
    + intros H. exists pos, "", cap. auto.
    + destruct (code c =? 10)%N; [|discriminate]. intros H. eexists pos, _, cap. eauto.
Qed.

(** A pattern that opens with the introducer only matches at one, and
    never the empty string. *)
Lemma match_at_slash r pos s must_advance m :
  match_at (Seq (Chr "/") r) pos s must_advance = Some m ->
  (exists s', s = String "/" s') /\ pos < fst m.
Proof.
  unfold match_at. simpl. destruct s as [|c s']; [discriminate|].
  destruct (Ascii.eqb c "/") eqn:E; [|discriminate].
  apply Ascii.eqb_eq in E. subst c. intros H.
  apply (run_advancing r) in H as (pos1 & s1 & cap1 & Hle & H).
  destruct (_ && _); [discriminate|]. injection H as <-. simpl.
  split; [eauto|lia].
Qed.

Lemma findall_from_slashes r : forall s pos skip,
  length (findall_from (Seq (Chr "/") r) pos s skip) <= slashes s.
Proof.
  induction s as [|c s IH]; intros pos skip.
  - destruct skip; simpl; [|lia].
    destruct (match_at (Seq (Chr "/") r) pos "" false) as [m|] eqn:E; [|simpl; lia].
    apply match_at_slash in E as [[s' Hs] _]. discriminate.
  - destruct skip as [|sk].
    + cbn [findall_from].
      destruct (match_at (Seq (Chr "/") r) pos (String c s) false) as [m|] eqn:E.
      * apply match_at_slash in E as [[s' Hs] Hlt]. injection Hs as -> ->.
        replace (fst m =? pos)%nat with false by (symmetry; apply Nat.eqb_neq; lia).
        cbn [length slashes]. rewrite Ascii.eqb_refl.
        specialize (IH (S pos) (fst m - pos - 1)). lia.
      * cbn [slashes]. specialize (IH (S pos) 0). lia.
    + cbn [findall_from slashes]. specialize (IH (S pos) sk). lia.
Qed.

Lemma findall_slashes r s : length (findall (Seq (Chr "/") r) s) <= slashes s.
Proof. apply findall_from_slashes. Qed.

(** *** commands_in_text *)

Lemma marker_lines_iff regex allow_multiple lines :
  marker_lines regex allow_multiple lines = true <->
  exists line, In line lines /\ bad_marker_line regex allow_multiple line.
Proof.
  unfold bad_marker_line. induction lines as [|line rest IH]; simpl.
  - split; [discriminate|]. intros (? & [] & _).
  - destruct (String.eqb (strip line) "") eqn:Eblank.
    + apply String.eqb_eq in Eblank. rewrite IH. split.
      * intros (l & Hl & H). exists l. auto.
      * intros (l & [<-|Hl] & Hne & H); [congruence|]. exists l. auto.
    + apply String.eqb_neq in Eblank.
      destruct allow_multiple; simpl.
      * destruct (bool_decide (findall regex (strip line) = [])) eqn:Eno; simpl.
        -- apply bool_decide_eq_true in Eno. rewrite IH. split.
           ++ intros (l & Hl & H). exists l. auto.
           ++ intros (l & [<-|Hl] & Hne & H); [|exists l; auto].
              destruct H as [[? _]|[? _]]; congruence.
        -- apply bool_decide_eq_false in Eno.
           destruct (startswith (strip line) "/") eqn:Estart; simpl.
           ++ rewrite IH. split.
              ** intros (l & Hl & H). exists l. auto.
              ** intros (l & [<-|Hl] & Hne & H); [|exists l; auto].
                 destruct H as [[? _]|[_ ?]]; congruence.
           ++ split; [|reflexivity]. intros _. exists line. auto.
      * destruct (1 <? length (findall regex (strip line)))%nat eqn:Emany.
        -- apply Nat.ltb_lt in Emany. split; [|reflexivity].
           intros _. exists line. auto.
        -- apply Nat.ltb_ge in Emany.
           destruct (bool_decide (findall regex (strip line) = [])) eqn:Eno; simpl.
           ++ apply bool_decide_eq_true in Eno. rewrite IH. split.
              ** intros (l & Hl & H). exists l. auto.
              ** intros (l & [<-|Hl] & Hne & H); [|exists l; auto].
                 destruct H as [[_ ?]|[? _]]; [lia|congruence].
           ++ apply bool_decide_eq_false in Eno.
              destruct (startswith (strip line) "/") eqn:Estart; simpl.
              ** rewrite IH. split.
                 --- intros (l & Hl & H). exists l. auto.
                 --- intros (l & [<-|Hl] & Hne & H); [|exists l; auto].
                     destruct H as [[_ ?]|[_ ?]]; [lia|congruence].
              ** split; [|reflexivity]. intros _. exists line. auto.
Qed.

Lemma In_commands_in_text parts regex allow_multiple part :
  In part (commands_in_text parts regex allow_multiple) <->
  In part (all_nodes parts)
  /\ marker_lines regex allow_multiple (splitlines (text part)) = true.
Proof.
  induction parts as [|[k g] rest IH]; simpl; [tauto|].
  rewrite !in_app_iff, IH, <- !list_elem_of_In, list_elem_of_filter, Is_true_true.
  tauto.
Qed.

Lemma findall_from_not_slash r pos c s :
  Ascii.eqb c "/" = false ->
  findall_from (Seq (Chr "/") r) pos (String c s) 0
  = findall_from (Seq (Chr "/") r) (S pos) s 0.
Proof.
  intros E. cbn [findall_from].
  replace (match_at (Seq (Chr "/") r) pos (String c s) false) with (@None (nat * option string)).
  - reflexivity.
  - unfold match_at. simpl. rewrite E. reflexivity.
Qed.

Lemma findall_from_at_match r pos s :
  is_Some (match_at (Seq (Chr "/") r) pos s false) ->
  findall_from (Seq (Chr "/") r) pos s 0 <> [].
Proof.
  intros [m Hm]. destruct s as [|c s]; cbn [findall_from]; rewrite Hm;
    destruct (fst m =? pos)%nat; discriminate.
Qed.

Lemma alts_last_matches {A} (rs : list regex) (final : regex) pos s cap (k : cont A) :
  is_Some (run final pos s cap k) ->
  is_Some (run (alts (rs ++ [final])) pos s cap k).
Proof.
  intros H. induction rs as [|r rs IH]; [exact H|].
  change (alts ((r :: rs) ++ [final])) with (alts (r :: (rs ++ [final]))).
  destruct (rs ++ [final]) as [|r' rest] eqn:E.
  - destruct rs; discriminate.
  - change (alts (r :: r' :: rest)) with (Alt r (alts (r' :: rest))). simpl run.
    destruct (run r pos s cap k); [eauto|]. exact IH.
Qed.

Lemma colour_line_accepted NAMED_COLOURS :
  marker_lines (COLOUR_PATTERN NAMED_COLOURS) false ["/colour #ff00ff"] = false.
Proof.
  cbn [marker_lines]. change (strip "/colour #ff00ff") with "/colour #ff00ff".
  pose proof (findall_slashes
                (Grp (alts (named_alternatives NAMED_COLOURS ++ [Seq (Lit "colour ") HEX_COLOURS])))
                "/colour #ff00ff") as Hle.
  change (slashes "/colour #ff00ff") with 1 in Hle.
  fold (COLOUR_PATTERN NAMED_COLOURS) in Hle.
  change (String.eqb "/colour #ff00ff" "") with false. cbv iota.
  replace (1 <? length (findall (COLOUR_PATTERN NAMED_COLOURS) "/colour #ff00ff"))%nat
    with false by (symmetry; apply Nat.ltb_ge; exact Hle).
  change (startswith "/colour #ff00ff" "/") with true.
  simpl. rewrite andb_false_r. reflexivity.
Qed.

Lemma colour_inline_refused NAMED_COLOURS :
  marker_lines (COLOUR_PATTERN NAMED_COLOURS) false ["it turned /colour #ff00ff today"] = true.
Proof.
  apply marker_lines_iff. exists "it turned /colour #ff00ff today".
  split; [left; reflexivity|]. unfold bad_marker_line.
  change (strip "it turned /colour #ff00ff today") with "it turned /colour #ff00ff today".
  split; [discriminate|]. right. split; [|reflexivity].
  unfold findall, COLOUR_PATTERN.
  do 10 (rewrite findall_from_not_slash by reflexivity).
  apply findall_from_at_match. unfold match_at. simpl run.
  apply alts_last_matches. vm_compute. eauto.
Qed.

(** X30. For every concern, the marker check returns exactly the nodes
    of the graph with a non-blank line on which the pattern of the concern
    either is found more than once while the concern does not allow
    several (only the effect concern does), or is found while the line,
    once trimmed, does not open with the introducer. Whatever the named
    colours are, a line that is the colour marker is accepted and a
    sentence holding it is refused. *)
Theorem marker_check_flags_bad_lines NAMED_COLOURS :
  (forall c parts part,
      In part (markers_check NAMED_COLOURS c parts) <->
      In part (all_nodes parts)
      /\ exists line, In line (splitlines (text part))
           /\ bad_marker_line (marker_pattern NAMED_COLOURS c) (allows_multiple c) line)
  /\ colour_markers NAMED_COLOURS [("C", group true true [node_colour_line])] = []
  /\ colour_markers NAMED_COLOURS [("C", group true true [node_colour_inline])]
     = [node_colour_inline].
Proof.
  split; [|split].
  - intros c parts part. rewrite <- marker_lines_iff.
    destruct c; apply In_commands_in_text.
  - unfold colour_markers. cbn [commands_in_text variants group].
    rewrite filter_cons_False; [reflexivity|].
    change (splitlines (text node_colour_line)) with ["/colour #ff00ff"].
    rewrite colour_line_accepted. exact id.
  - unfold colour_markers. cbn [commands_in_text variants group].
    rewrite filter_cons_True; [reflexivity|].
    change (splitlines (text node_colour_inline)) with ["it turned /colour #ff00ff today"].
    rewrite colour_inline_refused. exact I.
Qed.

(** *** The anchored pattern of the message titles *)

Lemma findall_from_anchored r :
  (forall pos s b, match_at r (S pos) s b = None) ->
  forall s pos skip, findall_from r (S pos) s skip = [].
Proof.
  intros Hlate. induction s as [|c s IH]; intros pos skip.
  - destruct skip; cbn [findall_from]; [rewrite Hlate|]; reflexivity.
  - destruct skip; cbn [findall_from]; [rewrite Hlate|]; apply IH.
Qed.

(** A pattern that matches at the start of the text only, and there only
    on the introducer, is found at most once, in a text that opens with
    the introducer. *)
Lemma findall_anchored r s :
  (forall pos s b, match_at r (S pos) s b = None) ->
  (forall s b m, match_at r 0 s b = Some m -> (exists s', s = String "/" s') /\ 0 < fst m) ->
  length (findall r s) <= 1 /\ (findall r s <> [] -> startswith s "/" = true).
Proof.
  intros Hlate Hfirst. unfold findall.
  destruct s as [|c s]; cbn [findall_from].
  - destruct (match_at r 0 "" false) as [m|] eqn:E; [|split; [simpl; lia|congruence]].
    apply Hfirst in E as [[s' Hs] _]. discriminate.
  - destruct (match_at r 0 (String c s) false) as [m|] eqn:E.
    + apply Hfirst in E as [[s' Hs] Hlt]. injection Hs as -> ->.
      replace (fst m =? 0)%nat with false by (symmetry; apply Nat.eqb_neq; lia).
      rewrite (findall_from_anchored r Hlate). split; [simpl; lia|].
      intros _. destruct s'; reflexivity.
    + rewrite (findall_from_anchored r Hlate). split; [simpl; lia|congruence].
Qed.

Lemma MESSAGE_TITLE_PATTERN_anchored s :
  length (findall MESSAGE_TITLE_PATTERN s) <= 1
  /\ (findall MESSAGE_TITLE_PATTERN s <> [] -> startswith s "/" = true).
Proof.
  apply findall_anchored.
  - intros pos s' b. reflexivity.
  - intros s' b m H.
    apply (match_at_slash
             (Seq (Lit "message-title ") (Seq (Grp (plus (Cls not_slash))) Eol)) 0 s' b m).
    exact H.
Qed.

Lemma marker_lines_anchored lines : marker_lines MESSAGE_TITLE_PATTERN false lines = false.
Proof.
  destruct (marker_lines MESSAGE_TITLE_PATTERN false lines) eqn:E; [|reflexivity].
  apply marker_lines_iff in E as (line & _ & _ & Hbad).
  destruct (MESSAGE_TITLE_PATTERN_anchored (strip line)) as [Hone Hstart].
  destruct Hbad as [[_ Hmany]|[Hsome Hnot]]; [lia|].
  rewrite (Hstart Hsome) in Hnot. discriminate.
Qed.

(** C8. [message_title_markers] reports no node at all: its pattern is
    anchored at both ends of the line, so it is never found twice on a
    line nor on a line that does not open with the introducer. A sentence
    that holds a message-title marker goes unreported, while the colour
    check, whose pattern is not anchored, reports the sentence that holds
    a colour marker. *)
Theorem message_title_markers_reports_nothing NAMED_COLOURS :
  (forall parts, markers_check NAMED_COLOURS MessageTitle parts = [])
  /\ findall MESSAGE_TITLE_PATTERN "it said /message-title Hello today" = []
  /\ findall MESSAGE_TITLE_PATTERN "/message-title Hello" = ["Hello"]
  /\ message_title_markers title_story = []
  /\ colour_markers NAMED_COLOURS [("C", group true true [node_colour_inline])]
     = [node_colour_inline].
Proof.
  assert (Hnone : forall parts, message_title_markers parts = []).
  { intros parts. destruct (message_title_markers parts) as [|n ns] eqn:E; [reflexivity|].
    assert (Hn : In n (message_title_markers parts)) by (rewrite E; left; reflexivity).
    apply In_commands_in_text in Hn as [_ Hn].
    rewrite marker_lines_anchored in Hn. discriminate. }
  split; [exact Hnone|]. split; [vm_compute; reflexivity|].
  split; [vm_compute; reflexivity|]. split; [apply Hnone|].
  unfold colour_markers. cbn [commands_in_text variants group].
  rewrite filter_cons_True; [reflexivity|].
  change (splitlines (text node_colour_inline)) with ["it turned /colour #ff00ff today"].
  rewrite colour_inline_refused. exact I.
Qed.

(** *** excessive_commands *)

Lemma counted_add x c v :
  counted (counter_add x c) v = if String.eqb v x then S (counted c v) else counted c v.
Proof.
  induction c as [|[y n] c IH]; simpl.
  - destruct (String.eqb v x); reflexivity.
  - destruct (String.eqb x y) eqn:Exy; simpl.
    + apply String.eqb_eq in Exy. subst y.
      destruct (String.eqb v x); reflexivity.
    + destruct (String.eqb v y) eqn:Evy; [|exact IH].
      apply String.eqb_eq in Evy. subst y.
      rewrite String.eqb_sym, Exy. reflexivity.
Qed.

Lemma counted_fold l : forall c v,
  counted (fold_left (fun c x => counter_add x c) l c) v
  = count_occ string_dec l v + counted c v.
Proof.
  induction l as [|x l IH]; intros c v; simpl; [reflexivity|].
  rewrite IH, counted_add.
  destruct (string_dec x v) as [->|Hne].
  - rewrite String.eqb_refl. lia.
  - replace (String.eqb v x) with false; [reflexivity|].
    symmetry. apply String.eqb_neq. congruence.
Qed.

Lemma counted_Counter l v : counted (Counter l) v = count_occ string_dec l v.
Proof. unfold Counter. rewrite counted_fold. simpl. lia. Qed.

Lemma counted_le_most_common c v : counted c v <= most_common_count c.
Proof.
  induction c as [|[y n] c IH]; simpl; [lia|].
  destruct (String.eqb v y); lia.
Qed.

Lemma most_common_is_entry c :
  c <> [] -> exists y, In (y, most_common_count c) c.
Proof.
  induction c as [|[y n] c IH]; [congruence|]. intros _. simpl.
  destruct c as [|e c'].
  - exists y. left. simpl. f_equal. lia.
  - destruct IH as [y' Hy']; [discriminate|].
    destruct (Nat.max_spec n (most_common_count (e :: c'))) as [[_ ->]|[_ ->]].
    + exists y'. right. exact Hy'.
    + exists y. left. reflexivity.
Qed.

Lemma counter_add_entries x c seen :
  (forall y n, In (y, n) c -> n <= count_occ string_dec seen y) ->
  forall y n, In (y, n) (counter_add x c) -> n <= count_occ string_dec (seen ++ [x]) y.
Proof.
  intros Hc. induction c as [|[z m] c IH]; simpl.
  - intros y n [[= <- <-]|[]]. rewrite count_occ_app. simpl.
    destruct (string_dec x x); [lia|congruence].
  - destruct (String.eqb x z) eqn:E.
    + apply String.eqb_eq in E. subst z. intros y n [[= <- <-]|H].
      * rewrite count_occ_app. simpl. destruct (string_dec x x); [|congruence].
        specialize (Hc x m (or_introl eq_refl)). lia.
      * rewrite count_occ_app. specialize (Hc y n (or_intror H)). lia.
    + intros y n [[= <- <-]|H].
      * rewrite count_occ_app. specialize (Hc z m (or_introl eq_refl)). lia.
      * apply IH; [|exact H]. intros y' n' H'. apply Hc. right. exact H'.
Qed.

Lemma Counter_entries l : forall c seen,
  (forall y n, In (y, n) c -> n <= count_occ string_dec seen y) ->
  forall y n, In (y, n) (fold_left (fun c x => counter_add x c) l c) ->
              n <= count_occ string_dec (seen ++ l) y.
Proof.
  induction l as [|x l IH]; intros c seen Hc y n; simpl.
  - rewrite app_nil_r. apply Hc.
  - intros H. replace (seen ++ x :: l) with ((seen ++ [x]) ++ l)
      by (rewrite <- app_assoc; reflexivity).
    eapply IH; [|exact H]. apply counter_add_entries. exact Hc.
Qed.

(** The count [most_common(1)] reports is the count of some value, and no
    value occurs more often. *)
Lemma most_common_attained l :
  exists v, count_occ string_dec l v = most_common_count (Counter l).
Proof.
  destruct (Counter l) as [|e c] eqn:E.
  - exists "". rewrite <- counted_Counter, E. reflexivity.
  - destruct (most_common_is_entry (e :: c)) as [y Hy]; [discriminate|].
    exists y. rewrite <- E in *. apply Nat.le_antisymm.
    + rewrite <- counted_Counter. apply counted_le_most_common.
    + apply (Counter_entries l [] [] (fun _ _ H => match H with end) y _ Hy).
Qed.

Lemma most_common_bound l v : count_occ string_dec l v <= most_common_count (Counter l).
Proof. rewrite <- counted_Counter. apply counted_le_most_common. Qed.

Lemma fraction_gt threshold m n :
  0 < n ->
  (threshold < fraction m n)%Q <->
  (threshold * inject_Z (Z.of_nat n) < inject_Z (Z.of_nat m))%Q.
Proof.
  intros Hn. unfold fraction.
  assert (Hpos : (0 < inject_Z (Z.of_nat n))%Q).
  { change 0%Q with (inject_Z 0). rewrite <- Zlt_Qlt. lia. }
  split; intros H.
  - apply (Qmult_lt_r _ _ _ Hpos) in H.
    assert (E : (inject_Z (Z.of_nat m) / inject_Z (Z.of_nat n) * inject_Z (Z.of_nat n)
                 == inject_Z (Z.of_nat m))%Q).
    { field. intros E0. rewrite E0 in Hpos. discriminate. }
    rewrite E in H. exact H.
  - apply Qlt_shift_div_l; assumption.
Qed.

Lemma excessive_part_iff regex threshold part :
  (0 <= threshold)%Q ->
  excessive_part regex threshold part = true <-> overused regex threshold part.
Proof.
  intros Hth. unfold excessive_part, overused.
  set (lines := nonblank_lines (text part)).
  set (found := findall regex (text part)).
  assert (Hgt : forall m, negb (Qle_bool (fraction m (length lines)) threshold) = true
                          <-> (threshold < fraction m (length lines))%Q).
  { intros m. rewrite negb_true_iff. split.
    - intros H. apply Qnot_le_lt. intros Hle. apply Qle_bool_iff in Hle. congruence.
    - intros H. destruct (Qle_bool _ threshold) eqn:E; [|reflexivity].
      apply Qle_bool_iff in E. exfalso. exact (Qlt_not_le _ _ H E). }
  split.
  - intros H. destruct lines as [|l0 ls] eqn:El; [discriminate|]. rewrite <- El in *.
    destruct found as [|f0 fs] eqn:Ef; [discriminate|]. rewrite <- Ef in *.
    apply andb_true_iff in H as [H1 H2]. apply Nat.ltb_lt in H2.
    split; [exact H2|]. destruct (most_common_attained found) as [v Hv].
    exists v. rewrite Hv. apply Hgt. exact H1.
  - intros [Hlen [v Hv]].
    destruct lines as [|l0 ls] eqn:El; [simpl in Hlen; lia|]. rewrite <- El in *.
    assert (Hn : 0 < length lines) by lia.
    assert (Hmost : (threshold < fraction (most_common_count (Counter found)) (length lines))%Q).
    { apply fraction_gt; [exact Hn|]. apply fraction_gt in Hv; [|exact Hn].
      eapply Qlt_le_trans; [exact Hv|]. rewrite <- Zle_Qle.
      apply Nat2Z.inj_le, most_common_bound. }
    destruct found as [|f0 fs] eqn:Ef.
    + exfalso. apply fraction_gt in Hv; [|exact Hn]. simpl in Hv.
      apply (Qlt_not_le _ _ Hv). change (inject_Z 0) with 0%Q.
      apply Qmult_le_0_compat; [exact Hth|].
      change 0%Q with (inject_Z 0). rewrite <- Zle_Qle. lia.
    + rewrite <- Ef in *. apply andb_true_iff. split.
      * apply Hgt. exact Hmost.
      * apply Nat.ltb_lt. exact Hlen.
Qed.

Lemma In_excessive_commands parts regex threshold part :
  In part (excessive_commands parts regex threshold) <->
  In part (all_nodes parts) /\ excessive_part regex threshold part = true.
Proof.
  induction parts as [|[k g] rest IH]; simpl; [tauto|].
  rewrite !in_app_iff, IH, <- !list_elem_of_In, list_elem_of_filter, Is_true_true.
  tauto.
Qed.

(** C3, amended. For each of the colour, pace, effect and point-of-view
    concerns, the excessive-usage check returns exactly the nodes of the
    graph with more than four non-blank lines on which some marker value
    is found more often than one half of the number of those lines: the
    threshold is one half for every concern, colour included. Five lines
    with the same pace marker on four of them are reported, three lines
    with that marker on each are not. *)
Theorem excessive_usage_is_over_half NAMED_COLOURS c check parts part :
  excessive_check NAMED_COLOURS c = Some check ->
  (In part (check parts) <->
   In part (all_nodes parts) /\ overused (marker_pattern NAMED_COLOURS c) (1 # 2) part)
  /\ excessive_pacing [("P", group true true [node_five_lines])] = [node_five_lines]
  /\ excessive_pacing [("Q", group true true [node_three_lines])] = [].
Proof.
  intros Hcheck. split; [|split; vm_compute; reflexivity].
  rewrite <- excessive_part_iff by discriminate.
  destruct c; simpl in Hcheck; try discriminate; injection Hcheck as <-;
    apply In_excessive_commands.
Qed.

Lemma excessive_usage_is_over_half_witness :
  (In node_five_lines (excessive_pacing [("P", group true true [node_five_lines])]) <->
   In node_five_lines (all_nodes [("P", group true true [node_five_lines])])
   /\ overused (marker_pattern [] Pace) (1 # 2) node_five_lines)
  /\ excessive_pacing [("P", group true true [node_five_lines])] = [node_five_lines]
  /\ excessive_pacing [("Q", group true true [node_three_lines])] = [].
Proof.
  apply (excessive_usage_is_over_half [] Pace excessive_pacing
           [("P", group true true [node_five_lines])] node_five_lines).
  reflexivity.
Defined.

(** The claim of C3 with a quarter for the colour concern fails: three
    of eight lines hold the same colour marker, which is more than a
    quarter, and [excessive_colours] does not report the node. *)
Lemma excessive_colours_ignores_the_quarter :
  ~ (In node_three_of_eight
        (excessive_colours ["red"] [("R", group true true [node_three_of_eight])]) <->
     In node_three_of_eight (all_nodes [("R", group true true [node_three_of_eight])])
     /\ overused (COLOUR_PATTERN ["red"]) EXCESSIVE_THRESHOLD node_three_of_eight).
Proof.
  intros [_ H].
  assert (Hin : In node_three_of_eight
                  (excessive_colours ["red"] [("R", group true true [node_three_of_eight])])).
  { apply H. split; [left; reflexivity|]. split.
    - vm_compute. lia.
    - exists "red". vm_compute. reflexivity. }
  vm_compute in Hin. exact Hin.
Qed.

(** *** Ingestion *)

(** The claim of C5 fails: even with a loader that never raises,
    [parse_markdown] raises on a text that opens a front matter and does
    not close it. *)
Lemma parse_markdown_needs_closing_delimiter :
  ~ (forall content, exists r, parse_markdown lenient_load content = Ret r).
Proof.
  intros H. destruct (H "---") as [r Hr]. vm_compute in Hr. discriminate.
Qed.

Lemma build_part_mapping f m body :
  (lookup_key m "choices" = None \/ exists c, lookup_key m "choices" = Some (YMap c)) ->
  exists part, build_part f (YMap m) body = Ret part /\ defaults_where_absent m part.
Proof.
  intros Hchoices. unfold build_part. cbn [yaml_get mbind outcome_bind].
  assert (Hitems : exists items,
             yaml_items (default (YMap []) (lookup_key m "choices")) = Ret items
             /\ (lookup_key m "choices" = None -> items = [])).
  { destruct Hchoices as [->|[c ->]]; simpl; eauto.
    exists c. split; [reflexivity|discriminate]. }
  destruct Hitems as (items & -> & Hnone). cbn [mbind outcome_bind].
  eexists. split; [reflexivity|].
  unfold defaults_where_absent. cbn.
  repeat split; try (intros ->; reflexivity).
  intros H. rewrite (Hnone H). reflexivity.
Qed.

(** C5, amended. On a content without front matter, and on a content
    whose front matter is closed and loads as a mapping with well-shaped
    choices, [parse_markdown] and the construction of the document in
    [find_parts] return: every field the metadata leaves out takes its
    default (no value, no choice, revisit true), and a group opened by
    the document is neither start nor end unless declared. *)
Theorem ingestion_defaults safe_load f content m body :
  ingestible safe_load content m body ->
  parse_markdown safe_load content = Ret (YMap m, body)
  /\ exists part,
       build_part f (YMap m) body = Ret part
       /\ defaults_where_absent m part
       /\ forall parts, exists parts',
            add_document safe_load (f, content) parts = Ret parts'
            /\ (append_variant parts (pathname_of f) part = None ->
                parts' = parts ++ [(pathname_of f, opened_group m part)]).
Proof.
  intros Hok.
  assert (Hparse : parse_markdown safe_load content = Ret (YMap m, body)).
  { unfold parse_markdown.
    destruct Hok as [(Hstart & -> & ->)|(Hstart & before & meta & rest & Hsplit & Hload & -> & _)];
      rewrite Hstart; cbn [negb]; [reflexivity|].
    rewrite Hsplit, Hload. reflexivity. }
  assert (Hchoices : lookup_key m "choices" = None
                     \/ exists c, lookup_key m "choices" = Some (YMap c)).
  { destruct Hok as [(_ & -> & _)|(_ & ? & ? & ? & _ & _ & _ & H)]; [left; reflexivity|exact H]. }
  split; [exact Hparse|].
  destruct (build_part_mapping f m body Hchoices) as (part & Hbuild & Hdefaults).
  exists part. split; [exact Hbuild|]. split; [exact Hdefaults|].
  intros parts. unfold add_document. cbn [fst snd]. rewrite Hparse.
  cbn [mbind outcome_bind fst snd]. rewrite Hbuild. cbn [mbind outcome_bind].
  destruct (append_variant parts (pathname_of f) part) as [parts'|].
  - exists parts'. split; [reflexivity|discriminate].
  - eexists. split; [reflexivity|]. intros _. reflexivity.
Qed.

Lemma ingestion_defaults_witness :
  parse_markdown lenient_load "  once upon a time " = Ret (YMap [], "once upon a time")
  /\ exists part,
       build_part intro_md (YMap []) "once upon a time" = Ret part
       /\ defaults_where_absent [] part
       /\ forall parts, exists parts',
            add_document lenient_load (intro_md, "  once upon a time ") parts = Ret parts'
            /\ (append_variant parts (pathname_of intro_md) part = None ->
                parts' = parts ++ [(pathname_of intro_md, opened_group [] part)]).
Proof.
  apply (ingestion_defaults lenient_load intro_md "  once upon a time " [] "once upon a time").
  left. repeat split; reflexivity.
Defined.

(** *** Reachability *)

Lemma list_pop_snoc {A} (l : list A) x : list_pop (l ++ [x]) = Some (l, x).
Proof.
  induction l as [|y l IH]; simpl; [reflexivity|]. rewrite IH. reflexivity.
Qed.

Lemma In_all_nodes parts n :
  In n (all_nodes parts) <-> exists k g, In (k, g) parts /\ In n (variants g).
Proof.
  induction parts as [|[k g] rest IH]; simpl.
  - split; [tauto|]. intros (? & ? & [] & _).
  - rewrite in_app_iff, IH. split.
    + intros [H|(k' & g' & H1 & H2)]; [exists k, g; auto|exists k', g'; auto].
    + intros (k' & g' & [[= <- <-]|H1] & H2); [auto|right; exists k', g'; auto].
Qed.

Lemma starting_nodes_In parts k g n :
  In (k, g) parts -> is_start g = true -> In n (variants g) -> In n (starting_nodes parts).
Proof.
  induction parts as [|[k' g'] rest IH]; simpl; [tauto|].
  intros [[= -> ->]|H] Hs Hn.
  - rewrite Hs. apply in_app_iff. auto.
  - destruct (is_start g'); [apply in_app_iff; right|]; auto.
Qed.

Lemma dict_get_unique parts k g :
  unique_keys parts -> In (k, g) parts -> dict_get parts k = Some g.
Proof.
  intros Hu Hin. destruct (In_dict_get parts k g Hin) as [g' Hg'].
  rewrite Hg'. f_equal. apply dict_get_In in Hg'.
  exact (unique_keys_same parts k g' g Hu Hg' Hin).
Qed.

Lemma dict_mem_get parts k : dict_mem parts k = true -> exists g, dict_get parts k = Some g.
Proof. unfold dict_mem. destruct (dict_get parts k); [eauto|discriminate]. Qed.

Lemma In_extend_choices parts cs : forall stack v,
  In v (extend_choices parts cs stack) <->
  In v stack \/ exists c t, In c cs /\ dict_get parts c = Some t /\ In v (variants t).
Proof.
  induction cs as [|c cs IH]; intros stack v; simpl.
  - split; [auto|]. intros [H|(? & ? & [] & _)]. exact H.
  - destruct (dict_get parts c) as [t|] eqn:E; rewrite IH.
    + rewrite in_app_iff. split.
      * intros [[H|H]|(c' & t' & H1 & H2 & H3)]; [auto| |].
        -- right. exists c, t. auto.
        -- right. exists c', t'. auto.
      * intros [H|(c' & t' & [<-|H1] & H2 & H3)]; [auto| |].
        -- rewrite E in H2. injection H2 as <-. auto.
        -- right. exists c', t'. auto.
    + split.
      * intros [H|(c' & t' & H1 & H2 & H3)]; [auto|]. right. exists c', t'. auto.
      * intros [H|(c' & t' & [<-|H1] & H2 & H3)]; [auto|congruence|].
        right. exists c', t'. auto.
Qed.

Lemma NoDup_map_injective {A B} (f : A -> B) (l : list A) a b :
  NoDup (map f l) -> In a l -> In b l -> f a = f b -> a = b.
Proof.
  induction l as [|x l IH]; simpl; [tauto|].
  intros Hnd. apply NoDup_cons in Hnd as [Hx Hnd].
  intros [<-|Ha] [<-|Hb] E; auto.
  - exfalso. apply Hx. rewrite E. apply list_elem_of_In, in_map, Hb.
  - exfalso. apply Hx. rewrite <- E. apply list_elem_of_In, in_map, Ha.
Qed.

Lemma unreachable_loop_more_fuel parts fuel : forall stack visited v,
  unreachable_loop fuel parts stack visited = Ret v ->
  forall fuel', fuel <= fuel' -> unreachable_loop fuel' parts stack visited = Ret v.
Proof.
  induction fuel as [|fuel IH]; intros stack visited v; simpl; [discriminate|].
  intros H [|fuel'] Hle; [lia|]. simpl.
  destruct (list_pop stack) as [[stack' node]|]; [|exact H].
  destruct (decide _); [apply (IH _ _ _ H); lia|].
  destruct (dict_get parts (pathname node)) as [g|]; [|exact H].
  destruct (is_end g); apply (IH _ _ _ H); lia.
Qed.

Lemma file_name_in_names parts n :
  In n (all_nodes parts) -> file_name n ∈ file_names parts.
Proof.
  intros H. apply elem_of_list_to_set, list_elem_of_In, in_map, H.
Qed.

Lemma fewer_unmarked parts node (visited : gset string) :
  In node (all_nodes parts) -> file_name node ∉ visited ->
  size (file_names parts ∖ (visited ∪ {[ file_name node ]}))
  < size (file_names parts ∖ visited).
Proof.
  intros Hin Hnew. apply subset_size. split.
  - intros x Hx. apply elem_of_difference in Hx as [Hname Hx].
    apply elem_of_difference. split; [exact Hname|].
    intros Hv. apply Hx, elem_of_union. left. exact Hv.
  - intros Hsub.
    assert (H : file_name node ∈ file_names parts ∖ visited).
    { apply elem_of_difference. split; [apply file_name_in_names, Hin|exact Hnew]. }
    apply Hsub, elem_of_difference in H as [_ H].
    apply H, elem_of_union. right. apply elem_of_singleton. reflexivity.
Qed.

Section Reachability.
Variable parts : dict.
Hypothesis shaped : well_formed parts.
Hypothesis distinct : distinct_files parts.

Lemma same_file_same_node a b :
  In a (all_nodes parts) -> In b (all_nodes parts) ->
  file_name a = file_name b -> a = b.
Proof. apply NoDup_map_injective, distinct. Qed.

Lemma node_is_known n : In n (all_nodes parts) -> known parts n.
Proof.
  intros H. apply In_all_nodes in H as (k & g & Hin & Hn).
  destruct shaped as [_ Hkeyed]. rewrite <- (Hkeyed _ _ _ Hin Hn) in Hin.
  apply In_dict_get in Hin. exact Hin.
Qed.

Lemma frontier_pop_seen stack node visited :
  frontier parts (stack ++ [node]) visited ->
  file_name node ∈ visited ->
  frontier parts stack visited.
Proof.
  intros (Hstack & Hstart & Hclosed) Hseen. split; [|split].
  - intros n Hn. apply Hstack, in_app_iff. auto.
  - intros n Hn. destruct (Hstart n Hn) as [H|H]; [|auto].
    apply in_app_iff in H as [H|[<-|[]]]; auto.
  - intros n g c t v Hn Hv Hg He Hc Ht Hin.
    destruct (Hclosed n g c t v Hn Hv Hg He Hc Ht Hin) as [H|H]; [|auto].
    apply in_app_iff in H as [H|[<-|[]]]; auto.
Qed.

Lemma frontier_pop_end stack node visited g :
  frontier parts (stack ++ [node]) visited ->
  dict_get parts (pathname node) = Some g -> is_end g = true ->
  frontier parts stack (visited ∪ {[ file_name node ]}).
Proof.
  intros (Hstack & Hstart & Hclosed) Hg Hend.
  assert (Hnode : In node (all_nodes parts)) by (apply Hstack, in_app_iff; simpl; auto).
  split; [|split].
  - intros n Hn. apply Hstack, in_app_iff. auto.
  - intros n Hn. destruct (Hstart n Hn) as [H|H]; [|right; set_solver].
    apply in_app_iff in H as [H|[<-|[]]]; [auto|right; set_solver].
  - intros n g' c t v Hn Hv Hg' He Hc Ht Hin.
    apply elem_of_union in Hv as [Hv|Hv].
    + destruct (Hclosed n g' c t v Hn Hv Hg' He Hc Ht Hin) as [H|H]; [|right; set_solver].
      apply in_app_iff in H as [H|[<-|[]]]; [auto|right; set_solver].
    + apply elem_of_singleton in Hv.
      rewrite (same_file_same_node n node Hn Hnode Hv) in Hg'. congruence.
Qed.

Lemma frontier_pop_expand stack node visited g :
  frontier parts (stack ++ [node]) visited ->
  dict_get parts (pathname node) = Some g ->
  frontier parts (extend_choices parts (values (choices node)) stack)
           (visited ∪ {[ file_name node ]}).
Proof.
  intros (Hstack & Hstart & Hclosed) Hg.
  assert (Hnode : In node (all_nodes parts)) by (apply Hstack, in_app_iff; simpl; auto).
  split; [|split].
  - intros n Hn. apply In_extend_choices in Hn as [Hn|(c & t & Hc & Ht & Hn)].
    + apply Hstack, in_app_iff. auto.
    + apply In_all_nodes. exists c, t. auto using dict_get_In.
  - intros n Hn. destruct (Hstart n Hn) as [H|H]; [|right; set_solver].
    apply in_app_iff in H as [H|[<-|[]]]; [|right; set_solver].
    left. apply In_extend_choices. auto.
  - intros n g' c t v Hn Hv Hg' He Hc Ht Hin.
    apply elem_of_union in Hv as [Hv|Hv].
    + destruct (Hclosed n g' c t v Hn Hv Hg' He Hc Ht Hin) as [H|H]; [|right; set_solver].
      apply in_app_iff in H as [H|[<-|[]]]; [|right; set_solver].
      left. apply In_extend_choices. auto.
    + apply elem_of_singleton in Hv.
      rewrite (same_file_same_node n node Hn Hnode Hv) in Hc.
      left. apply In_extend_choices. right. exists c, t. auto.
Qed.

(** The loop returns, and what it returns is closed under the links
    the traversal follows. *)
Lemma unreachable_loop_closes : forall unmarked visited stack,
  size (file_names parts ∖ visited) = unmarked ->
  frontier parts stack visited ->
  exists fuel visited',
    unreachable_loop fuel parts stack visited = Ret visited'
    /\ frontier parts [] visited'.
Proof.
  intros unmarked. induction (lt_wf unmarked) as [unmarked _ IHu].
  intros visited stack Hsize.
  induction stack as [|node stack IHs] using rev_ind; intros Hfront.
  - exists 1, visited. split; [reflexivity|exact Hfront].
  - assert (Hnode : In node (all_nodes parts)).
    { destruct Hfront as [Hstack _]. apply Hstack, in_app_iff. simpl. auto. }
    destruct (decide (file_name node ∈ visited)) as [Hseen|Hnew].
    + destruct (IHs (frontier_pop_seen _ _ _ Hfront Hseen)) as (fuel & v & Hloop & Hv).
      exists (S fuel), v. split; [|exact Hv].
      simpl. rewrite list_pop_snoc. fold (file_name node).
      destruct (decide _); [exact Hloop|contradiction].
    + destruct (node_is_known node Hnode) as [g Hg].
      pose proof (fewer_unmarked parts node visited Hnode Hnew) as Hless.
      destruct (is_end g) eqn:Hend.
      * destruct (IHu _ ltac:(rewrite <- Hsize; exact Hless) _ stack eq_refl
                    (frontier_pop_end _ _ _ _ Hfront Hg Hend)) as (fuel & v & Hloop & Hv).
        exists (S fuel), v. split; [|exact Hv].
        simpl. rewrite list_pop_snoc. fold (file_name node).
        destruct (decide _); [contradiction|]. rewrite Hg, Hend. exact Hloop.
      * destruct (IHu _ ltac:(rewrite <- Hsize; exact Hless) _
                    (extend_choices parts (values (choices node)) stack) eq_refl
                    (frontier_pop_expand _ _ _ _ Hfront Hg)) as (fuel & v & Hloop & Hv).
        exists (S fuel), v. split; [|exact Hv].
        simpl. rewrite list_pop_snoc. fold (file_name node).
        destruct (decide _); [contradiction|]. rewrite Hg, Hend. exact Hloop.
Qed.

(** Once the stack is empty, every group reachable without leaving an
    end group has all its variants marked. *)
Lemma closed_marks_reachable visited k :
  frontier parts [] visited ->
  reachable_before_end parts k ->
  forall g n, In (k, g) parts -> In n (variants g) -> file_name n ∈ visited.
Proof.
  intros (_ & Hstart & Hclosed) Hreach.
  destruct shaped as [Hunique Hkeyed].
  induction Hreach as [k g0 Hin0 Hs|a ga b Hreach IH Hina Hend Hlink]; intros g n Hin Hn.
  - rewrite (unique_keys_same parts k g g0 Hunique Hin Hin0) in Hn.
    destruct (Hstart n (starting_nodes_In parts k g0 n Hin0 Hs Hn)) as [[]|H]. exact H.
  - destruct Hlink as (g' & m & label & Hin' & Hm & Hchoice & Hmem).
    apply dict_mem_get in Hmem as [t Ht].
    rewrite (unique_keys_same parts b g t Hunique Hin (dict_get_In _ _ _ Ht)) in Hn.
    rewrite (unique_keys_same parts a g' ga Hunique Hin' Hina) in Hm.
    assert (Hm_all : In m (all_nodes parts)) by (apply In_all_nodes; eauto).
    assert (Hm_get : dict_get parts (pathname m) = Some ga).
    { rewrite (Hkeyed a ga m Hina Hm). apply dict_get_unique; assumption. }
    destruct (Hclosed m ga b t n Hm_all (IH ga m Hina Hm) Hm_get Hend) as [[]|H]; auto.
    unfold values. apply (in_map snd _ _ Hchoice).
Qed.

Lemma starting_frontier : frontier parts (starting_nodes parts) ∅.
Proof.
  split; [|split].
  - intros n Hn. apply In_starting_nodes in Hn. apply In_all_nodes. exact Hn.
  - auto.
  - intros n g c t v _ Hv. set_solver.
Qed.

Lemma no_start_no_reach k :
  starting_nodes parts = [] ->
  reachable_before_end parts k ->
  forall g, In (k, g) parts -> variants g = [].
Proof.
  intros Hnone Hreach. destruct shaped as [Hunique _].
  induction Hreach as [k g0 Hin0 Hs|a ga b Hreach IH Hina Hend Hlink]; intros g Hin.
  - rewrite (unique_keys_same parts k g g0 Hunique Hin Hin0).
    destruct (variants g0) as [|n ns] eqn:E; [reflexivity|].
    pose proof (starting_nodes_In parts k g0 n Hin0 Hs) as H.
    rewrite E, Hnone in H. destruct H. left. reflexivity.
  - destruct Hlink as (g' & m & label & Hin' & Hm & _).
    rewrite (IH g' Hin') in Hm. destruct Hm.
Qed.

(** X29. On a graph as [find_parts] builds it, whose nodes have pairwise
    distinct file names and whose every group is reachable from a start
    group along valid links that leave no end group, [unreachable_nodes]
    returns the empty list, given enough fuel for its loop. *)
Theorem unreachable_nodes_empty_when_all_reached :
  (forall k g, In (k, g) parts -> reachable_before_end parts k) ->
  exists fuel, forall fuel', fuel <= fuel' -> unreachable_nodes fuel' parts = Ret [].
Proof.
  intros Hall. unfold unreachable_nodes.
  destruct (starting_nodes parts) as [|s0 ss] eqn:Hstarts.
  - exists 0. intros _ _. f_equal.
    destruct (all_nodes parts) as [|n ns] eqn:E; [reflexivity|].
    assert (Hn : In n (all_nodes parts)) by (rewrite E; left; reflexivity).
    apply In_all_nodes in Hn as (k & g & Hin & Hn).
    rewrite (no_start_no_reach k Hstarts (Hall k g Hin) g Hin) in Hn. destruct Hn.
  - rewrite <- Hstarts.
    destruct (unreachable_loop_closes _ ∅ (starting_nodes parts) eq_refl starting_frontier)
      as (fuel & visited & Hloop & Hclosed).
    exists fuel. intros fuel' Hle.
    rewrite (unreachable_loop_more_fuel parts fuel _ _ _ Hloop fuel' Hle).
    cbn [mbind outcome_bind]. f_equal. apply filter_none.
    intros n Hn Hnot. apply list_elem_of_In, In_all_nodes in Hn as (k & g & Hin & Hn).
    pose proof (closed_marks_reachable visited k Hclosed (Hall k g Hin) g n Hin Hn) as Hv.
    apply Is_true_true, negb_true_iff, bool_decide_eq_false in Hnot.
    apply Hnot. exact Hv.
Qed.
End Reachability.

Lemma unreachable_nodes_empty_when_all_reached_witness :
  exists fuel, forall fuel', fuel <= fuel' -> unreachable_nodes fuel' dangling_end = Ret [].
Proof.
  apply (unreachable_nodes_empty_when_all_reached dangling_end).
  - well_formed_by_cases.
  - unfold distinct_files. refine (bool_decide_unpack _ _). vm_compute. exact I.
  - intros k g [H|[H|[]]]; injection H as <- <-.
    + apply (before_end_start dangling_end "S" (group true false [node_to_end]));
        [left; reflexivity|reflexivity].
    + apply (before_end_link dangling_end "S" (group true false [node_to_end]) "E").
      * apply (before_end_start dangling_end "S" (group true false [node_to_end]));
          [left; reflexivity|reflexivity].
      * left; reflexivity.
      * reflexivity.
      * exists (group true false [node_to_end]), node_to_end, "on".
        repeat split; try (left; reflexivity).
Defined.

(** The traversal does not go past an end group: in [past_the_end] every
    group is reachable from the start group along valid links, C through
    the end group E, and [unreachable_nodes] reports the node of C. *)
Lemma unreachable_nodes_stops_at_end_groups :
  (forall k g, In (k, g) past_the_end -> reachable past_the_end k)
  /\ unreachable_nodes 4 past_the_end = Ret [node_c]
  /\ (forall fuel, unreachable_nodes fuel past_the_end <> Ret []).
Proof.
  assert (HS : reachable past_the_end "S").
  { apply (reachable_start past_the_end "S" (group true false [node_s]));
      [left; reflexivity|reflexivity]. }
  assert (HE : reachable past_the_end "E").
  { apply (reachable_link past_the_end "S" "E" HS).
    exists (group true false [node_s]), node_s, "on".
    repeat split; try (left; reflexivity). }
  assert (HC : reachable past_the_end "C").
  { apply (reachable_link past_the_end "E" "C" HE).
    exists (group false true [node_e]), node_e, "more".
    repeat split; try (left; reflexivity). right; left; reflexivity. }
  split; [|split].
  - intros k g [H|[H|[H|[]]]]; injection H as <- <-; assumption.
  - vm_compute. reflexivity.
  - intros fuel.
    do 3 (destruct fuel as [|fuel]; [vm_compute; discriminate|]).
    vm_compute. discriminate.
Qed.

Lemma reachable_before_end_reachable parts k :
  reachable_before_end parts k -> reachable parts k.
Proof.
  induction 1 as [k g Hin Hs|a g b _ IH _ _ Hlink].
  - exact (reachable_start parts k g Hin Hs).
  - exact (reachable_link parts a b IH Hlink).
Qed.

(** C4. [unreachable_nodes] marks a node by the name of its file, not by
    the node: [same_file_names] is a graph as [find_parts] builds it, with
    the files a/1.md and c/1.md; every group of it is reachable from the
    start group along valid links that leave no end group, and the node
    of d is reported all the same, whatever the fuel, because the mark of
    a/1.md makes the loop skip c/1.md, the only way to d. *)
Theorem unreachable_nodes_confuses_file_names :
  well_formed same_file_names
  /\ (forall k g, In (k, g) same_file_names -> reachable_before_end same_file_names k)
  /\ (forall k g, In (k, g) same_file_names -> reachable same_file_names k)
  /\ unreachable_nodes 6 same_file_names = Ret [node_d]
  /\ (forall fuel, unreachable_nodes fuel same_file_names <> Ret []).
Proof.
  split; [well_formed_by_cases|].
  assert (H0 : reachable_before_end same_file_names "intro").
  { apply (before_end_start same_file_names "intro" (group true false [node_x]));
      [left; reflexivity|reflexivity]. }
  assert (Ha : reachable_before_end same_file_names "a").
  { apply (before_end_link same_file_names "intro" (group true false [node_x]) "a" H0);
      [left; reflexivity|reflexivity|].
    exists (group true false [node_x]), node_x, "right".
    repeat split; try (left; reflexivity). right; left; reflexivity. }
  assert (Hc : reachable_before_end same_file_names "c").
  { apply (before_end_link same_file_names "intro" (group true false [node_x]) "c" H0);
      [left; reflexivity|reflexivity|].
    exists (group true false [node_x]), node_x, "left".
    repeat split; try (left; reflexivity). }
  assert (Hd : reachable_before_end same_file_names "d").
  { apply (before_end_link same_file_names "c" (group false false [node_c1]) "d" Hc);
      [right; right; left; reflexivity|reflexivity|].
    exists (group false false [node_c1]), node_c1, "on".
    repeat split; try (left; reflexivity). right; right; left; reflexivity. }
  assert (Hall : forall k g, In (k, g) same_file_names ->
                        reachable_before_end same_file_names k).
  { intros k g [H|[H|[H|[H|[]]]]]; injection H as <- <-; assumption. }
  split; [exact Hall|]. split; [|split].
  - intros k g Hin. apply reachable_before_end_reachable. exact (Hall k g Hin).
  - vm_compute. reflexivity.
  - intros fuel.
    do 5 (destruct fuel as [|fuel]; [vm_compute; discriminate|]).
    vm_compute. discriminate.
Qed.

(** *** Loops and their escapes *)

Lemma first_true_returns {A} (xs : list A) (f : A -> outcome bool) :
  (forall x, In x xs -> exists b, f x = Ret b) ->
  exists b, first_true xs f = Ret b.
Proof.
  induction xs as [|x xs IH]; simpl; intros H; [eauto|].
  destruct (H x) as [b ->]; [auto|]. cbn [mbind outcome_bind].
  destruct b; [eauto|]. apply IH. intros; apply H; auto.
Qed.

Lemma list_index_In x names : In x names -> exists i, list_index x names = Some i.
Proof.
  induction names as [|y names IH]; simpl; [tauto|].
  destruct (String.eqb y x) eqn:E; [eauto|].
  intros [->|H]; [rewrite String.eqb_refl in E; discriminate|].
  destruct (IH H) as [i ->]. simpl. eauto.
Qed.

Lemma list_index_lt x names i : list_index x names = Some i -> i < length names.
Proof.
  revert i. induction names as [|y names IH]; simpl; intros i; [discriminate|].
  destruct (String.eqb y x); [intros [= <-]; lia|].
  destruct (list_index x names) as [j|]; simpl; [|discriminate].
  intros [= <-]. specialize (IH j eq_refl). lia.
Qed.

Lemma py_min_Some l : l <> [] -> exists m, py_min l = Some m.
Proof.
  destruct l as [|x l]; [congruence|]. intros _. simpl.
  destruct (py_min l) as [m|]; [|eauto]. destruct (tuple_ltb m x); eauto.
Qed.

(** On a loop that is not empty, [canonical_looping] returns a part of it. *)
Lemma canonical_looping_returns loop :
  loop <> [] ->
  exists c, canonical_looping loop = Ret c /\ forall n, In n c.1 -> In n loop.
Proof.
  intros Hne. unfold canonical_looping.
  assert (Hnames : map pathname loop <> []) by (destruct loop; [congruence|discriminate]).
  destruct (last (map pathname loop)) as [final|] eqn:Hlast;
    [|apply last_None in Hlast; contradiction].
  apply last_Some_elem_of, list_elem_of_In, list_index_In in Hlast as [start Hstart].
  rewrite Hstart. apply list_index_lt in Hstart.
  destruct (py_min_Some
              (map (fun i => rotate_at i (drop start (map pathname loop)))
                   (seq 0 (length (drop start (map pathname loop)))))) as [minimum ->].
  - rewrite length_drop. destruct (length (map pathname loop) - start) eqn:E; [lia|].
    discriminate.
  - rewrite canonical_scan_id. eexists. split; [reflexivity|].
    cbn [fst]. intros n Hn. apply list_elem_of_In in Hn. apply list_elem_of_In.
    apply (subseteq_drop start loop). exact Hn.
Qed.

Lemma filter_partition {A} (f : A -> bool) (l : list A) :
  filter (fun x => f x) l ++ filter (fun x => negb (f x)) l ≡ₚ l.
Proof.
  induction l as [|x l IH]; [reflexivity|].
  destruct (f x) eqn:E.
  - rewrite filter_cons_True by (rewrite E; exact I).
    rewrite (filter_cons_False (fun x => negb (f x))) by (rewrite E; exact id).
    simpl. constructor. exact IH.
  - rewrite filter_cons_False by (rewrite E; exact id).
    rewrite (filter_cons_True (fun x => negb (f x))) by (rewrite E; exact I).
    rewrite <- Permutation_middle. constructor. exact IH.
Qed.

(** The selecting loops of the two checks, once the test is known to
    return. *)
Lemma for_each_select {A} (test : A -> outcome bool) (keep : bool -> bool)
    (f : A -> bool) (xs : list A) :
  (forall x, In x xs -> test x = Ret (f x)) ->
  forall acc,
    for_each xs
      (fun x acc => test x ≫= λ b : bool, if keep b then Ret (acc ++ [x]) else Ret acc)
      acc
    = Ret (acc ++ filter (fun x => keep (f x)) xs).
Proof.
  induction xs as [|x xs IH]; intros Htest acc; simpl.
  - rewrite app_nil_r. reflexivity.
  - assert (Hrest : forall y, In y xs -> test y = Ret (f y))
      by (intros y Hy; apply Htest; right; exact Hy).
    rewrite (Htest x) by (left; reflexivity). cbn [mbind outcome_bind].
    destruct (keep (f x)) eqn:E; cbn [mbind outcome_bind].
    + rewrite (IH Hrest). rewrite filter_cons_True by (rewrite E; exact I).
      rewrite <- app_assoc. reflexivity.
    + rewrite (IH Hrest). rewrite filter_cons_False by (rewrite E; exact id).
      reflexivity.
Qed.

Section Loops.
Variable parts : dict.
Hypothesis shaped : well_formed parts.

Lemma keyed_parts k g n : In (k, g) parts -> In n (variants g) -> pathname n = k.
Proof. destruct shaped as [_ H]. apply H. Qed.

Lemma group_names_size : size (group_names parts) = length parts.
Proof.
  unfold group_names. rewrite size_list_to_set, length_map; [reflexivity|].
  destruct shaped as [H _]. exact H.
Qed.

Lemma depth_search_returns fuel : forall node ancestors loops,
  known parts node ->
  (forall a, In a ancestors -> known parts a) ->
  sound_loops parts loops ->
  2 * length parts + 2 <= fuel + length ancestors -> 1 <= fuel ->
  exists loops', depth_search fuel parts node ancestors loops = Ret loops'
                 /\ sound_loops parts loops'.
Proof.
  induction fuel as [|fuel IH]; intros node ancestors loops Hnode Hanc Hloops Hfuel Hpos;
    [lia|].
  simpl. destruct (bool_decide _).
  - eexists. split; [reflexivity|]. intros loop Hin.
    apply in_app_iff in Hin as [Hin|[<-|[]]]; [auto|].
    split; [destruct ancestors; discriminate|].
    intros n Hn. apply in_app_iff in Hn as [Hn|[<-|[]]]; auto.
  - destruct Hnode as [g Hg]. rewrite Hg.
    destruct (is_end g); [eauto|].
    destruct (2 * length parts <? length ancestors)%nat eqn:Hcut; [eauto|].
    apply Nat.ltb_ge in Hcut.
    apply for_each_invariant; [|exact Hloops]. intros choice loops1 _ H1.
    destruct (dict_get parts choice) as [target|] eqn:Htarget; [|eauto].
    destruct (_ && _); [eauto|].
    apply for_each_invariant; [|exact H1]. intros variant loops2 Hvariant H2.
    apply IH; [| |exact H2| |].
    + exact (known_variant parts keyed_parts choice target variant Htarget Hvariant).
    + intros a Ha. apply in_app_iff in Ha as [Ha|[<-|[]]]; [exact (Hanc a Ha)|exists g; exact Hg].
    + rewrite length_app. simpl. lia.
    + lia.
Qed.

Lemma raw_loops_returns fuel :
  2 * length parts + 2 <= fuel ->
  exists loops, raw_loops fuel parts = Ret loops /\ sound_loops parts loops.
Proof.
  intros Hfuel. unfold raw_loops.
  apply (for_each_invariant (sound_loops parts)).
  - intros n loops Hn Hloops. apply depth_search_returns.
    + exact (known_start parts keyed_parts n Hn).
    + intros a [].
    + exact Hloops.
    + simpl. lia.
    + lia.
  - intros loop [].
Qed.

Lemma looping_nodes_returns fuel :
  2 * length parts + 2 <= fuel ->
  exists loops, looping_nodes fuel parts = Ret loops
                /\ forall loop n, In loop loops -> In n loop -> known parts n.
Proof.
  intros Hfuel. unfold looping_nodes.
  destruct (raw_loops_returns fuel Hfuel) as (raw & -> & Hraw). cbn [mbind outcome_bind].
  destruct (for_each_invariant
              (fun st : list (list StoryPart) * list (list string) =>
                 forall loop n, In loop st.1 -> In n loop -> known parts n)
              raw keep_unique) with (s := (@nil (list StoryPart), @nil (list string)))
    as (st & -> & Hst).
  - intros loop st Hloop Hst. unfold keep_unique.
    destruct (Hraw loop Hloop) as [Hne Hknown].
    destruct (canonical_looping_returns loop Hne) as (c & -> & Hc).
    cbn [mbind outcome_bind]. destruct (bool_decide _); [eauto|].
    eexists. split; [reflexivity|]. cbn [fst]. intros loop' n Hin Hn.
    apply in_app_iff in Hin as [Hin|[<-|[]]]; [eauto|]. auto.
  - intros loop n [].
  - cbn [mbind outcome_bind]. eauto.
Qed.

Lemma search_returns loop_names fuel : forall node visited,
  known parts node ->
  visited ⊆ group_names parts ->
  length parts + 2 <= fuel + size visited ->
  exists b, search fuel parts loop_names node visited = Ret b.
Proof.
  induction fuel as [|fuel IH]; intros node visited Hnode Hsub Hfuel.
  - apply subseteq_size in Hsub. rewrite group_names_size in Hsub. lia.
  - simpl. destruct Hnode as [g Hg]. rewrite Hg.
    destruct (is_end g); [eauto|].
    destruct (decide (pathname node ∈ visited)) as [Hseen|Hnew]; [eauto|].
    assert (Hkey : pathname node ∈ group_names parts).
    { apply elem_of_list_to_set, list_elem_of_In.
      apply (in_map fst _ _ (dict_get_In _ _ _ Hg)). }
    assert (Hsub' : visited ∪ {[pathname node]} ⊆ group_names parts).
    { apply union_subseteq. split; [exact Hsub|]. apply singleton_subseteq_l, Hkey. }
    assert (Hsize : size (visited ∪ {[pathname node]}) = S (size visited)).
    { rewrite size_union, size_singleton; [lia|].
      apply disjoint_singleton_r. exact Hnew. }
    assert (Hrec : forall target v, (exists choice, dict_get parts choice = Some target) ->
               In v (variants target) ->
               exists b, search fuel parts loop_names v (visited ∪ {[pathname node]}) = Ret b).
    { intros target v [choice Hchoice] Hv. apply IH; [|exact Hsub'|lia].
      exact (known_variant parts keyed_parts choice target v Hchoice Hv). }
    apply first_true_returns. intros variant _.
    apply first_true_returns. intros choice _.
    destruct (dict_get parts choice) as [target|] eqn:Htarget; [|eauto].
    destruct (decide _); apply first_true_returns; intros v Hv; eapply Hrec; eauto.
Qed.

Lemma can_escape_returns fuel loop :
  length parts + 2 <= fuel ->
  (forall n, In n loop -> known parts n) ->
  exists b, can_escape fuel parts loop = Ret b.
Proof.
  intros Hfuel Hknown. unfold can_escape.
  apply first_true_returns. intros n Hn.
  apply search_returns; [auto|apply empty_subseteq|lia].
Qed.

(** C1. On a graph as [find_parts] builds it, and with fuel for the depth
    bound of the search, the three functions return, and the lists of
    [escapable_looping_nodes] and [innescapable_looping_nodes] partition
    the list of [looping_nodes]: together they are a rearrangement of it,
    so a loop is found exactly when it is in one of the two, and no loop
    is in both. *)
Theorem looping_nodes_are_partitioned fuel :
  2 * length parts + 2 <= fuel ->
  exists loops escapable innescapable,
    looping_nodes fuel parts = Ret loops
    /\ escapable_looping_nodes fuel parts = Ret escapable
    /\ innescapable_looping_nodes fuel parts = Ret innescapable
    /\ escapable ++ innescapable ≡ₚ loops
    /\ (forall loop, In loop loops <-> In loop escapable \/ In loop innescapable)
    /\ (forall loop, ~ (In loop escapable /\ In loop innescapable)).
Proof.
  intros Hfuel.
  destruct (looping_nodes_returns fuel Hfuel) as (loops & Hloops & Hknown).
  set (escapes := fun loop =>
         match can_escape fuel parts loop with Ret b => b | _ => false end).
  assert (Htest : forall loop, In loop loops ->
                    can_escape fuel parts loop = Ret (escapes loop)).
  { intros loop Hin. unfold escapes.
    destruct (can_escape_returns fuel loop) as [b ->]; [lia|eauto|reflexivity]. }
  exists loops, (filter (fun loop => escapes loop) loops),
    (filter (fun loop => negb (escapes loop)) loops).
  split; [exact Hloops|]. split; [|split; [|split; [|split]]].
  - unfold escapable_looping_nodes. rewrite Hloops. cbn [mbind outcome_bind].
    apply (for_each_select (can_escape fuel parts) (fun b => b) escapes loops Htest []).
  - unfold innescapable_looping_nodes. rewrite Hloops. cbn [mbind outcome_bind].
    apply (for_each_select (can_escape fuel parts) negb escapes loops Htest []).
  - apply filter_partition.
  - intros loop. rewrite <- !list_elem_of_In, !list_elem_of_filter.
    destruct (escapes loop); simpl; tauto.
  - intros loop. rewrite <- !list_elem_of_In, !list_elem_of_filter.
    destruct (escapes loop); simpl; tauto.
Qed.
End Loops.

Lemma looping_nodes_are_partitioned_witness :
  exists loops escapable innescapable,
    looping_nodes 6 two_starts = Ret loops
    /\ escapable_looping_nodes 6 two_starts = Ret escapable
    /\ innescapable_looping_nodes 6 two_starts = Ret innescapable
    /\ escapable ++ innescapable ≡ₚ loops
    /\ (forall loop, In loop loops <-> In loop escapable \/ In loop innescapable)
    /\ (forall loop, ~ (In loop escapable /\ In loop innescapable)).
Proof.
  apply (looping_nodes_are_partitioned two_starts).
  - well_formed_by_cases.
  - simpl. lia.
Defined.

(** *** The stories of the test plan *)

Example there_and_done_is_sound :
  unreachable_nodes 4 there_and_done = Ret []
  /\ looping_nodes 6 there_and_done = Ret []
  /\ playthroughs 12 there_and_done = Ret [[node_go; node_stop]]
  /\ abnormal_paths 12 there_and_done = Ret [].
Proof. repeat split; vm_compute; reflexivity. Qed.

Example self_loop_is_a_trap :
  looping_nodes 4 self_loop = Ret [[node_self; node_self]]
  /\ escapable_looping_nodes 4 self_loop = Ret []
  /\ innescapable_looping_nodes 4 self_loop = Ret [[node_self; node_self]]
  /\ playthroughs 8 self_loop = Ret []
  /\ abnormal_paths 8 self_loop = Ret [].
Proof. repeat split; vm_compute; reflexivity. Qed.

Example short_and_long_are_both_abnormal :
  playthroughs 27 short_and_long
  = Ret [[node_fork; node_z]; [node_fork; node_l1; node_l2; node_l3; node_z]]
  /\ abnormal_paths 27 short_and_long
     = Ret [[node_fork; node_z]; [node_fork; node_l1; node_l2; node_l3; node_z]].
Proof. repeat split; vm_compute; reflexivity. Qed.

Example front_matter_is_ingestible :
  ingestible pace_load "--- pace: fast --- a\b" [(YStr "pace", YStr "fast")] "a/b"
  /\ parse_markdown pace_load "--- pace: fast --- a\b"
     = Ret (YMap [(YStr "pace", YStr "fast")], "a/b")
  /\ parse_markdown pace_load "--- pace: slow --- a" = Raise YAMLError
  /\ build_part intro_md YNull "a" = Raise AttributeError.
Proof.
  split; [|repeat split; vm_compute; reflexivity].
  right. split; [reflexivity|].
  exists "", " pace: fast ", " a\b". repeat split; try reflexivity.
  left. reflexivity.
Qed.

(** *** The plain checks *)

Lemma In_filter_bool {A} (f : A -> bool) (l : list A) x :
  In x (filter (fun y => f y) l) <-> In x l /\ f x = true.
Proof. rewrite <- !list_elem_of_In, list_elem_of_filter, Is_true_true. tauto. Qed.

Lemma In_select cond test parts n :
  In n (select cond test parts) <-> picked cond test parts n.
Proof.
  unfold select, picked. rewrite in_flat_map. split.
  - intros ([k g] & Hin & Hn). simpl in Hn. destruct (cond g) eqn:E; [|destruct Hn].
    apply In_filter_bool in Hn as [Hn Ht]. exists k, g. auto.
  - intros (k & g & Hin & Hc & Hn & Ht). exists (k, g). split; [exact Hin|].
    simpl. rewrite Hc. apply In_filter_bool. auto.
Qed.

Lemma filter_all {A} (l : list A) : filter (fun _ : A => true) l = l.
Proof.
  induction l as [|x l IH]; [reflexivity|].
  rewrite filter_cons_True by exact I. rewrite IH. reflexivity.
Qed.

(** Each check is a selection. *)
Ltac as_selection :=
  let parts := fresh "parts" in
  let IH := fresh "IH" in
  intros parts; induction parts as [|[? ?] ? IH]; [reflexivity|];
  simpl; unfold select in IH; rewrite IH; unfold select; simpl;
  repeat match goal with
         | |- context [is_end ?g] => destruct (is_end g); simpl
         | |- context [is_start ?g] => destruct (is_start g); simpl
         end;
  rewrite ?filter_all; reflexivity.

Lemma starting_nodes_select :
  forall parts, starting_nodes parts = select is_start (fun _ _ => true) parts.
Proof. as_selection. Qed.

Lemma ending_nodes_select :
  forall parts, ending_nodes parts = select is_end (fun _ _ => true) parts.
Proof. as_selection. Qed.

Lemma start_end_nodes_select :
  forall parts, start_end_nodes parts
                = select (fun g => is_end g && is_start g) (fun _ _ => true) parts.
Proof. as_selection. Qed.

Lemma dead_ends_select :
  forall parts, dead_ends parts
                = select (fun g => negb (is_end g)) (fun _ part => no_choices part) parts.
Proof. as_selection. Qed.

Lemma continuing_ends_select :
  forall parts, continuing_ends parts
                = select is_end (fun _ part => negb (no_choices part)) parts.
Proof. as_selection. Qed.

Lemma single_choice_select :
  forall parts, single_choice parts
                = select (fun g => negb (is_end g))
                         (fun _ part => length (choices part) =? 1)%nat parts.
Proof. as_selection. Qed.

Lemma duplicate_choices_select :
  forall parts, duplicate_choices parts
                = select (fun g => negb (is_end g)) (fun _ part => repeats_a_target part) parts.
Proof. as_selection. Qed.

Lemma revist_variants_select :
  forall parts, revist_variants parts
                = select (fun _ => true)
                         (fun g part => StoryParts_revisit g && negb (revisit part)) parts.
Proof. as_selection. Qed.

Lemma noncontinuing_variants_select :
  forall parts, noncontinuing_variants parts
                = select (fun _ => true)
                         (fun g part => some_variant_continues g && no_choices part) parts.
Proof. as_selection. Qed.

Lemma invalid_links_select :
  forall parts todo, invalid_links_from parts todo
    = select (fun g => negb (is_end g))
             (fun _ part => has_invalid_choice parts (values (choices part))) todo.
Proof. intros parts0. as_selection. Qed.

(** X1. [revist_variants] reports no node, whatever the graph: a group is
    revisitable only when all its variants are, so no variant of a
    revisitable group is not revisitable. *)
Theorem revist_variants_reports_nothing parts : revist_variants parts = [].
Proof.
  rewrite revist_variants_select.
  destruct (select _ _ parts) as [|n l] eqn:E; [reflexivity|].
  assert (H : In n (select (fun _ => true)
                      (fun g part => StoryParts_revisit g && negb (revisit part)) parts))
    by (rewrite E; left; reflexivity).
  apply In_select in H as (k & g & _ & _ & Hn & Ht).
  apply andb_true_iff in Ht as [Hall Hnot].
  unfold StoryParts_revisit in Hall. rewrite forallb_forall in Hall.
  rewrite (Hall n Hn) in Hnot. discriminate.
Qed.

Lemma duplicate_scan_app seen a b :
  duplicate_scan seen (a ++ b)
  = duplicate_scan seen a ++ duplicate_scan (texts_after seen a) b
  /\ texts_after seen (a ++ b) = texts_after (texts_after seen a) b.
Proof.
  revert seen. induction a as [|p a IH]; intros seen; simpl; [auto|].
  destruct (bool_decide _); simpl; destruct (IH seen), (IH (seen ++ [text p]));
    split; congruence.
Qed.

Lemma duplicate_fold_variants ps : forall seen acc,
  fold_left duplicate_step ps (seen, acc)
  = (texts_after seen ps, acc ++ duplicate_scan seen ps).
Proof.
  induction ps as [|p ps IH]; intros seen acc; simpl.
  - rewrite app_nil_r. reflexivity.
  - unfold duplicate_step at 2. cbn [fst snd].
    destruct (bool_decide _); rewrite IH; [|reflexivity].
    rewrite <- app_assoc. reflexivity.
Qed.

Lemma duplicate_fold_groups parts : forall seen acc,
  fold_left (fun st entry => fold_left duplicate_step (variants entry.2) st)
            parts (seen, acc)
  = (texts_after seen (all_nodes parts), acc ++ duplicate_scan seen (all_nodes parts)).
Proof.
  induction parts as [|[k g] rest IH]; intros seen acc; simpl.
  - rewrite app_nil_r. reflexivity.
  - rewrite duplicate_fold_variants, IH.
    destruct (duplicate_scan_app seen (variants g) (all_nodes rest)) as [-> ->].
    rewrite app_assoc. reflexivity.
Qed.

Lemma duplicate_nodes_scan parts :
  duplicate_nodes parts = duplicate_scan [] (all_nodes parts).
Proof. unfold duplicate_nodes. rewrite duplicate_fold_groups. reflexivity. Qed.

Lemma duplicate_scan_nil nodes : forall seen,
  duplicate_scan seen nodes = [] <->
  (forall p, In p nodes -> text p ∉ seen) /\ NoDup (map text nodes).
Proof.
  induction nodes as [|p nodes IH]; intros seen; simpl.
  - split; [|reflexivity]. intros _. split; [tauto|constructor].
  - destruct (bool_decide (text p ∈ seen)) eqn:E.
    + apply bool_decide_eq_true in E. split; [discriminate|].
      intros [H _]. exfalso. apply (H p); auto.
    + apply bool_decide_eq_false in E. rewrite IH, NoDup_cons. split.
      * intros [Hseen Hnd]. split; [|split; [|exact Hnd]].
        -- intros q [<-|Hq]; [exact E|]. intros Hin. apply (Hseen q Hq).
           apply elem_of_app. left. exact Hin.
        -- intros Hin. apply list_elem_of_In, in_map_iff in Hin as (q & Hq & Hin).
           apply (Hseen q Hin). apply elem_of_app. right. rewrite Hq. left.
      * intros [Hseen [Hfresh Hnd]]. split; [|exact Hnd].
        intros q Hq Hin. apply elem_of_app in Hin as [Hin|Hin].
        -- apply (Hseen q); auto.
        -- apply list_elem_of_singleton in Hin. apply Hfresh. rewrite <- Hin.
           apply list_elem_of_In, in_map, Hq.
Qed.

Lemma duplicate_scan_sublist nodes : forall seen n,
  In n (duplicate_scan seen nodes) ->
  In n nodes /\ (text n ∈ seen \/ 2 <= count_occ string_dec (map text nodes) (text n)).
Proof.
  induction nodes as [|p nodes IH]; intros seen n; simpl; [tauto|].
  destruct (bool_decide (text p ∈ seen)) eqn:E.
  - apply bool_decide_eq_true in E. intros [<-|H]; [auto|].
    destruct (IH seen n H) as [Hin [Hs|Hc]]; [auto|].
    split; [auto|]. right. destruct (string_dec (text p) (text n)); lia.
  - intros H. destruct (IH _ n H) as [Hin [Hs|Hc]].
    + split; [auto|]. apply elem_of_app in Hs as [Hs|Hs]; [auto|].
      apply list_elem_of_singleton in Hs. right.
      destruct (string_dec (text p) (text n)); [|congruence].
      assert (Hpos : 0 < count_occ string_dec (map text nodes) (text n)).
      { apply count_occ_In, in_map, Hin. }
      lia.
    + split; [auto|]. right. destruct (string_dec (text p) (text n)); lia.
Qed.

(** X2. [duplicate_nodes] is empty exactly when the texts of the nodes of
    the graph are pairwise distinct, and every node it reports is a node
    of the graph whose text occurs at least twice among them. *)
Theorem duplicate_nodes_are_repeated_texts parts :
  (duplicate_nodes parts = [] <-> NoDup (map text (all_nodes parts)))
  /\ (forall n, In n (duplicate_nodes parts) ->
        In n (all_nodes parts)
        /\ 2 <= count_occ string_dec (map text (all_nodes parts)) (text n)).
Proof.
  rewrite duplicate_nodes_scan. split.
  - rewrite duplicate_scan_nil. split; [tauto|]. intros H. split; [|exact H].
    intros p _ Hin. apply elem_of_nil in Hin. exact Hin.
  - intros n Hn. apply duplicate_scan_sublist in Hn as [Hin [Hs|Hc]]; [|auto].
    apply elem_of_nil in Hs. destruct Hs.
Qed.

Lemma size_list_to_set_le (l : list string) :
  size (list_to_set l : gset string) <= length l.
Proof.
  induction l as [|x l IH].
  - rewrite list_to_set_nil, size_empty. simpl. lia.
  - rewrite list_to_set_cons. simpl length.
    rewrite size_union_alt.
    rewrite size_singleton.
    pose proof (subseteq_size (list_to_set l ∖ {[x]}) (list_to_set l : gset string)) as H.
    assert (Hsub : (list_to_set l ∖ {[x]} : gset string) ⊆ list_to_set l).
    { intros y Hy. apply elem_of_difference in Hy as [Hy _]. exact Hy. }
    specialize (H Hsub). lia.
Qed.

Lemma NoDup_iff_size (l : list string) :
  NoDup l <-> length l = size (list_to_set l : gset string).
Proof.
  split; [intros H; symmetry; apply size_list_to_set, H|].
  induction l as [|x l IH]; [constructor|].
  rewrite list_to_set_cons. simpl length. intros Hlen.
  destruct (decide (x ∈ l)) as [Hin|Hnew].
  - exfalso. pose proof (size_list_to_set_le l) as Hle.
    assert (E : ({[x]} ∪ list_to_set l : gset string) = list_to_set l).
    { apply set_eq. intros y. rewrite elem_of_union, elem_of_singleton, !elem_of_list_to_set.
      split; [intros [->|H]; auto|auto]. }
    rewrite E in Hlen. lia.
  - constructor; [exact Hnew|]. apply IH.
    rewrite size_union, size_singleton in Hlen; [lia|].
    apply disjoint_singleton_l. rewrite elem_of_list_to_set. exact Hnew.
Qed.

Lemma repeats_a_target_iff n :
  repeats_a_target n = true <-> ~ NoDup (values (choices n)).
Proof.
  unfold repeats_a_target. rewrite negb_true_iff, Nat.eqb_neq, NoDup_iff_size. tauto.
Qed.

Lemma repeats_needs_two n : repeats_a_target n = true -> 2 <= length (choices n).
Proof.
  rewrite repeats_a_target_iff. intros H.
  destruct (choices n) as [|a [|b l]]; simpl; [| |lia]; exfalso; apply H; simpl.
  - constructor.
  - apply NoDup_singleton.
Qed.

(** X3. [duplicate_choices] reports exactly the variants of the groups
    that are not end groups in which two choices lead to the same target. *)
Theorem duplicate_choices_are_repeated_targets parts n :
  In n (duplicate_choices parts) <->
  exists k g, In (k, g) parts /\ is_end g = false /\ In n (variants g)
              /\ ~ NoDup (values (choices n)).
Proof.
  rewrite duplicate_choices_select, In_select. unfold picked.
  split; intros (k & g & Hin & He & Hn & Ht); exists k, g;
    rewrite negb_true_iff in *; rewrite repeats_a_target_iff in *; auto.
Qed.

(** X4. No node is reported by two of [dead_ends], [single_choice] and
    [duplicate_choices]: they ask for no choice, one choice, and at least
    two. *)
Theorem choice_checks_are_disjoint parts n :
  ~ (In n (dead_ends parts) /\ In n (single_choice parts))
  /\ ~ (In n (dead_ends parts) /\ In n (duplicate_choices parts))
  /\ ~ (In n (single_choice parts) /\ In n (duplicate_choices parts)).
Proof.
  rewrite dead_ends_select, single_choice_select, duplicate_choices_select, !In_select.
  unfold picked, no_choices.
  split; [|split]; intros [(k1 & g1 & _ & _ & _ & H1) (k2 & g2 & _ & _ & _ & H2)].
  - destruct (choices n); [discriminate H2|discriminate H1].
  - apply repeats_needs_two in H2. destruct (choices n); [simpl in H2; lia|discriminate].
  - apply repeats_needs_two in H2. apply Nat.eqb_eq in H1. lia.
Qed.

(** X5. [noncontinuing_variants] reports exactly the variants without a
    choice that have a sibling variant with one; each of them is also
    reported by [dead_ends], unless its group is an end group. *)
Theorem noncontinuing_variants_have_continuing_siblings parts n :
  (In n (noncontinuing_variants parts) <->
   exists k g, In (k, g) parts /\ In n (variants g) /\ choices n = []
               /\ exists m, In m (variants g) /\ choices m <> [])
  /\ (In n (noncontinuing_variants parts) ->
      In n (dead_ends parts) \/ In n (ending_nodes parts)).
Proof.
  rewrite noncontinuing_variants_select, dead_ends_select, ending_nodes_select, !In_select.
  unfold picked, some_variant_continues, no_choices. split; [split|].
  - intros (k & g & Hin & _ & Hn & Ht). apply andb_true_iff in Ht as [Hsome Hnone].
    exists k, g. split; [exact Hin|]. split; [exact Hn|].
    split; [destruct (choices n); [reflexivity|discriminate]|].
    apply existsb_exists in Hsome as (m & Hm & Hlen). exists m. split; [exact Hm|].
    destruct (choices m); [discriminate|discriminate].
  - intros (k & g & Hin & Hn & Hnone & m & Hm & Hsome). exists k, g.
    split; [exact Hin|]. split; [reflexivity|]. split; [exact Hn|].
    rewrite Hnone. rewrite andb_true_r. apply existsb_exists. exists m.
    split; [exact Hm|]. destruct (choices m); [congruence|reflexivity].
  - intros (k & g & Hin & _ & Hn & Ht). apply andb_true_iff in Ht as [_ Hnone].
    destruct (is_end g) eqn:He; [right|left]; exists k, g; rewrite ?He; auto.
Qed.

(** X6. [invalid_links] reports exactly the variants of the groups that
    are not end groups with a choice whose target is no key of the graph. *)
Theorem invalid_links_are_dangling_choices parts n :
  In n (invalid_links parts) <->
  exists k g, In (k, g) parts /\ is_end g = false /\ In n (variants g)
              /\ exists c, In c (values (choices n)) /\ dict_get parts c = None.
Proof.
  unfold invalid_links. rewrite invalid_links_select, In_select. unfold picked.
  assert (Hscan : forall cs, has_invalid_choice parts cs = true <->
                             exists c, In c cs /\ dict_get parts c = None).
  { induction cs as [|c cs IH]; simpl.
    - split; [discriminate|]. intros (? & [] & _).
    - unfold dict_mem. destruct (dict_get parts c) eqn:E; simpl.
      + rewrite IH. split.
        * intros (c' & Hc & Hn). exists c'. auto.
        * intros (c' & [<-|Hc] & Hn); [congruence|]. exists c'. auto.
      + split; [|reflexivity]. intros _. exists c. auto. }
  split; intros (k & g & Hin & He & Hn & Ht); exists k, g;
    rewrite negb_true_iff in *; rewrite Hscan in *; auto.
Qed.

Lemma picked_same_group parts cond1 cond2 test1 test2 n :
  well_formed parts ->
  picked cond1 test1 parts n -> picked cond2 test2 parts n ->
  exists k g, In (k, g) parts /\ In n (variants g)
              /\ cond1 g = true /\ test1 g n = true
              /\ cond2 g = true /\ test2 g n = true.
Proof.
  intros [Hu Hk] (k1 & g1 & Hin1 & Hc1 & Hn1 & Ht1) (k2 & g2 & Hin2 & Hc2 & Hn2 & Ht2).
  assert (k1 = k2) by (rewrite <- (Hk _ _ _ Hin1 Hn1); apply Hk with g2; assumption).
  subst k2. rewrite <- (unique_keys_same parts k1 g1 g2 Hu Hin1 Hin2) in *.
  exists k1, g1. auto 10.
Qed.

(** X7. On a graph as [find_parts] builds it, [start_end_nodes] reports
    exactly the nodes that are both in [starting_nodes] and in
    [ending_nodes]. *)
Theorem start_end_nodes_are_start_and_end parts n :
  well_formed parts ->
  In n (start_end_nodes parts) <->
  In n (starting_nodes parts) /\ In n (ending_nodes parts).
Proof.
  intros Hwf.
  rewrite start_end_nodes_select, starting_nodes_select, ending_nodes_select, !In_select.
  split.
  - intros (k & g & Hin & Hc & Hn & _). apply andb_true_iff in Hc as [He Hs].
    split; exists k, g; auto.
  - intros [H1 H2].
    destruct (picked_same_group parts _ _ _ _ n Hwf H1 H2) as (k & g & Hin & Hn & Hs & _ & He & _).
    exists k, g. rewrite He, Hs. auto.
Qed.

Lemma start_end_nodes_are_start_and_end_witness :
  In node_h (start_end_nodes half_continuing) <->
  In node_h (starting_nodes half_continuing) /\ In node_h (ending_nodes half_continuing).
Proof.
  apply (start_end_nodes_are_start_and_end half_continuing node_h).
  well_formed_by_cases.
Defined.

(** X8. On a graph as [find_parts] builds it, no node is reported both
    by [dead_ends] and by [continuing_ends]. *)
Theorem dead_ends_are_not_continuing_ends parts n :
  well_formed parts ->
  ~ (In n (dead_ends parts) /\ In n (continuing_ends parts)).
Proof.
  intros Hwf. rewrite dead_ends_select, continuing_ends_select, !In_select.
  intros [H1 H2].
  destruct (picked_same_group parts _ _ _ _ n Hwf H1 H2) as (k & g & _ & _ & Hne & _ & He & _).
  rewrite He in Hne. discriminate.
Qed.

Lemma dead_ends_are_not_continuing_ends_witness :
  ~ (In node_off (dead_ends half_continuing) /\ In node_off (continuing_ends half_continuing)).
Proof.
  apply (dead_ends_are_not_continuing_ends half_continuing node_off).
  well_formed_by_cases.
Defined.

(** *** find_parts *)

Lemma for_each_snoc {A S} (xs : list A) (x : A) (body : A -> S -> outcome S) (s : S) :
  for_each (xs ++ [x]) body s = for_each xs body s ≫= body x.
Proof.
  revert s. induction xs as [|y xs IH]; intros s; simpl.
  - destruct (body x s); reflexivity.
  - destruct (body y s) as [s1| |]; simpl; [apply IH|reflexivity|reflexivity].
Qed.

Lemma build_part_fields f metadata body v :
  build_part f metadata body = Ret v ->
  loaded_pathname v = pathname_of f /\ loaded_filepath v = f /\ loaded_text v = body.
Proof.
  unfold build_part. destruct metadata; try discriminate.
  cbn [yaml_get mbind outcome_bind].
  destruct (yaml_items _) as [items| |]; try discriminate.
  cbn [mbind outcome_bind]. intros [= <-]. auto.
Qed.

Lemma append_variant_None parts k v :
  append_variant parts k v = None <-> ~ In k (map fst parts).
Proof.
  induction parts as [|[k' g] rest IH]; simpl; [tauto|].
  destruct (String.eqb k k') eqn:E.
  - apply String.eqb_eq in E. split; [discriminate|]. intros H. exfalso. apply H. auto.
  - apply String.eqb_neq in E. destruct (append_variant rest k v); simpl.
    + split; [discriminate|]. intros H. exfalso.
      destruct IH as [_ IH]. discriminate IH. intros Hin. apply H. auto.
    + split; [|reflexivity]. intros _ [H|H]; [congruence|].
      apply IH in H; [exact H|reflexivity].
Qed.

Lemma append_variant_Some parts k v parts' :
  NoDup (map fst parts) ->
  append_variant parts k v = Some parts' ->
  map fst parts' = map fst parts
  /\ forall k' g', In (k', g') parts' <->
       (k' <> k /\ In (k', g') parts)
       \/ (k' = k /\ exists g, In (k, g) parts
                               /\ loaded_variants g' = loaded_variants g ++ [v]
                               /\ loaded_is_start g' = loaded_is_start g
                               /\ loaded_is_end g' = loaded_is_end g).
Proof.
  revert parts'. induction parts as [|[k0 g0] rest IH]; intros parts' Hnd; simpl;
    [discriminate|].
  apply NoDup_cons in Hnd as [Hfresh Hnd].
  destruct (String.eqb k k0) eqn:E.
  - apply String.eqb_eq in E. subst k0. intros [= <-]. split; [reflexivity|].
    intros k' g'. simpl. split.
    + intros [[= <- <-]|H].
      * right. split; [reflexivity|]. exists g0. auto.
      * left. split; [|auto]. intros ->. apply Hfresh.
        apply list_elem_of_In. apply (in_map fst _ _ H).
    + intros [[Hne [[= -> ->]|H]]|[-> (g & [[= <-]|H] & Hv & Hs & He)]].
      * congruence.
      * auto.
      * left. destruct g'. simpl in *. congruence.
      * exfalso. apply Hfresh. apply list_elem_of_In. apply (in_map fst _ _ H).
  - apply String.eqb_neq in E.
    destruct (append_variant rest k v) as [rest'|] eqn:Hrest; simpl; [|discriminate].
    intros [= <-]. destruct (IH rest' Hnd eq_refl) as [Hkeys Hin].
    split; [simpl; congruence|]. intros k' g'. simpl. rewrite Hin. split.
    + intros [[= <- <-]|[[Hne H]|[-> (g & H & Hrec)]]].
      * left. auto.
      * left. auto.
      * right. split; [reflexivity|]. exists g. auto.
    + intros [[Hne [H|H]]|[-> (g & [[= <- <-]|H] & Hrec)]].
      * auto.
      * right. left. auto.
      * congruence.
      * right. right. split; [reflexivity|]. exists g. auto.
Qed.

Lemma documents_of_snoc k documents doc :
  documents_of k (documents ++ [doc])
  = documents_of k documents ++ (if String.eqb (pathname_of doc.1) k then [doc] else []).
Proof.
  unfold documents_of. rewrite filter_app. f_equal.
  destruct (String.eqb (pathname_of doc.1) k) eqn:E.
  - rewrite filter_cons_True by (rewrite E; exact I). reflexivity.
  - rewrite filter_cons_False by (rewrite E; exact id). reflexivity.
Qed.

Lemma add_document_ingested safe_load documents doc parts parts' :
  ingested safe_load documents parts ->
  add_document safe_load doc parts = Ret parts' ->
  ingested safe_load (documents ++ [doc]) parts'.
Proof.
  intros (Hnd & Hkeys & Hgroups). unfold add_document.
  destruct (parse_markdown safe_load doc.2) as [[metadata body]| |] eqn:Hparse;
    try discriminate.
  cbn [mbind outcome_bind fst snd].
  destruct (build_part doc.1 metadata body) as [v| |] eqn:Hbuild; try discriminate.
  cbn [mbind outcome_bind].
  assert (Hbuilt : built_from safe_load doc v) by (exists metadata, body; auto).
  destruct (append_variant parts (pathname_of doc.1) v) as [parts1|] eqn:Happ.
  - intros [= <-].
    destruct (append_variant_Some _ _ _ _ Hnd Happ) as [Hsame Hin].
    split; [rewrite Hsame; exact Hnd|]. split.
    + intros k. rewrite Hsame, Hkeys, documents_of_snoc. split.
      * intros H E. apply app_eq_nil in E as [E _]. contradiction.
      * intros H E. apply H. rewrite E.
        destruct (String.eqb (pathname_of doc.1) k) eqn:Ek; [|reflexivity].
        apply String.eqb_eq in Ek. subst k. exfalso.
        assert (Hk : In (pathname_of doc.1) (map fst parts)).
        { destruct (In_dec string_dec (pathname_of doc.1) (map fst parts)) as [Hk|Hk];
            [exact Hk|].
          apply append_variant_None with (v := v) in Hk. congruence. }
        apply Hkeys in Hk. contradiction.
    + intros k g Hg. apply Hin in Hg as [[Hne Hg]|[-> (g0 & Hg & Hv & Hs & He)]].
      * rewrite documents_of_snoc.
        replace (String.eqb (pathname_of doc.1) k) with false
          by (symmetry; apply String.eqb_neq; congruence).
        rewrite app_nil_r. apply Hgroups, Hg.
      * rewrite documents_of_snoc, String.eqb_refl, Hv.
        destruct (Hgroups _ _ Hg) as [Hall (d & rest & Hd & md & bd & Hp & Hstart & Hend)].
        split.
        -- apply Forall2_app; [exact Hall|]. constructor; [exact Hbuilt|constructor].
        -- exists d, (rest ++ [doc]). rewrite Hd. split; [reflexivity|].
           exists md, bd. rewrite Hs, He. auto.
  - destruct (yaml_get metadata "start" (YBool false)) as [v_start| |] eqn:Hstart;
      try discriminate.
    cbn [mbind outcome_bind].
    destruct (yaml_get metadata "end" (YBool false)) as [v_end| |] eqn:Hend;
      try discriminate.
    cbn [mbind outcome_bind]. intros [= <-].
    apply append_variant_None in Happ.
    assert (Hnone : documents_of (pathname_of doc.1) documents = []).
    { destruct (documents_of (pathname_of doc.1) documents) eqn:E; [reflexivity|].
      exfalso. apply Happ, Hkeys. rewrite E. discriminate. }
    split; [|split].
    + rewrite map_app. simpl. apply NoDup_app. split; [exact Hnd|].
      split; [|apply NoDup_singleton].
      intros k Hk Hk'. apply list_elem_of_singleton in Hk'. subst k.
      apply Happ, list_elem_of_In, Hk.
    + intros k. rewrite map_app, in_app_iff, Hkeys, documents_of_snoc. simpl. split.
      * intros [H|[<-|[]]] E.
        -- apply app_eq_nil in E as [E _]. contradiction.
        -- rewrite String.eqb_refl in E. apply app_eq_nil in E as [_ E]. discriminate.
      * intros H. destruct (String.eqb (pathname_of doc.1) k) eqn:Ek.
        -- apply String.eqb_eq in Ek. auto.
        -- rewrite app_nil_r in H. auto.
    + intros k g Hg. apply in_app_iff in Hg as [Hg|[[= <- <-]|[]]].
      * rewrite documents_of_snoc.
        replace (String.eqb (pathname_of doc.1) k) with false.
        -- rewrite app_nil_r. apply Hgroups, Hg.
        -- symmetry. apply String.eqb_neq. intros <-. apply Happ.
           apply (in_map fst _ _ Hg).
      * rewrite documents_of_snoc, String.eqb_refl, Hnone. simpl. split.
        -- constructor; [exact Hbuilt|constructor].
        -- exists doc, []. split; [reflexivity|]. exists metadata, body. auto.
Qed.

Lemma find_parts_ingested safe_load documents parts :
  find_parts safe_load documents = Ret parts ->
  ingested safe_load documents parts.
Proof.
  unfold find_parts. revert parts.
  induction documents as [|doc documents IH] using rev_ind; intros parts.
  - intros [= <-]. split; [constructor|]. split; [|intros k g []].
    intros k. simpl. split; [tauto|]. intros H. apply H. reflexivity.
  - rewrite for_each_snoc.
    destruct (for_each documents (add_document safe_load) []) as [parts0| |];
      try discriminate.
    cbn [mbind outcome_bind]. apply add_document_ingested, IH. reflexivity.
Qed.

Lemma built_from_fields safe_load documents variants :
  Forall2 (built_from safe_load) documents variants ->
  map loaded_filepath variants = map fst documents
  /\ forall v, In v variants ->
       exists doc, In doc documents /\ loaded_pathname v = pathname_of doc.1.
Proof.
  induction 1 as [|doc v documents variants (md & body & _ & Hbuild) _ [IHf IHp]]; simpl.
  - split; [reflexivity|]. intros v [].
  - apply build_part_fields in Hbuild as (Hname & Hfile & _). split; [congruence|].
    intros v' [<-|Hv']; [exists doc; auto|].
    destruct (IHp v' Hv') as (doc' & Hdoc' & Hn'). exists doc'. auto.
Qed.

Lemma In_documents_of k documents doc :
  In doc (documents_of k documents) <-> In doc documents /\ pathname_of doc.1 = k.
Proof.
  unfold documents_of. rewrite <- !list_elem_of_In, list_elem_of_filter, Is_true_true.
  rewrite String.eqb_eq. tauto.
Qed.

(** X9. The graph [find_parts] returns has pairwise distinct keys, no
    group without a variant, and in every group only variants whose
    [pathname] is the key of the group. *)
Theorem find_parts_is_well_formed safe_load documents parts :
  find_parts safe_load documents = Ret parts ->
  NoDup (map fst parts)
  /\ forall k g, In (k, g) parts ->
       loaded_variants g <> []
       /\ forall v, In v (loaded_variants g) -> loaded_pathname v = k.
Proof.
  intros H. apply find_parts_ingested in H as (Hnd & Hkeys & Hgroups).
  split; [exact Hnd|]. intros k g Hg.
  destruct (Hgroups k g Hg) as [Hall (doc & rest & Hdocs & _)]. split.
  - intros E. rewrite E, Hdocs in Hall. inversion Hall.
  - intros v Hv. destruct (built_from_fields _ _ _ Hall) as [_ Hp].
    destruct (Hp v Hv) as (d & Hd & ->). apply In_documents_of in Hd as [_ Hd]. exact Hd.
Qed.

Lemma find_parts_is_well_formed_witness :
  NoDup (map fst corpus_parts)
  /\ forall k g, In (k, g) corpus_parts ->
       loaded_variants g <> []
       /\ forall v, In v (loaded_variants g) -> loaded_pathname v = k.
Proof.
  apply (find_parts_is_well_formed lenient_load corpus corpus_parts).
  vm_compute. reflexivity.
Defined.

(** X10. When [find_parts] returns, every document is kept: the variants
    of each group are built, in enumeration order, from the documents of
    that name, and the group of every document exists. *)
Theorem find_parts_keeps_every_document safe_load documents parts :
  find_parts safe_load documents = Ret parts ->
  (forall k g, In (k, g) parts ->
     Forall2 (built_from safe_load) (documents_of k documents) (loaded_variants g)
     /\ map loaded_filepath (loaded_variants g) = map fst (documents_of k documents))
  /\ (forall doc, In doc documents -> In (pathname_of doc.1) (map fst parts)).
Proof.
  intros H. apply find_parts_ingested in H as (Hnd & Hkeys & Hgroups). split.
  - intros k g Hg. destruct (Hgroups k g Hg) as [Hall _].
    split; [exact Hall|]. apply (built_from_fields _ _ _ Hall).
  - intros doc Hdoc. apply Hkeys. intros E.
    assert (Hin : In doc (documents_of (pathname_of doc.1) documents))
      by (apply In_documents_of; auto).
    rewrite E in Hin. destruct Hin.
Qed.

Lemma find_parts_keeps_every_document_witness :
  (forall k g, In (k, g) corpus_parts ->
     Forall2 (built_from lenient_load) (documents_of k corpus) (loaded_variants g)
     /\ map loaded_filepath (loaded_variants g) = map fst (documents_of k corpus))
  /\ (forall doc, In doc corpus -> In (pathname_of doc.1) (map fst corpus_parts)).
Proof.
  apply (find_parts_keeps_every_document lenient_load corpus corpus_parts).
  vm_compute. reflexivity.
Defined.

(** X11. When [find_parts] returns, the start and end flags of every
    group are the ones declared by the first document of its name; the
    documents that follow add a variant and leave the flags alone. *)
Theorem find_parts_flags_come_first safe_load documents parts k g :
  find_parts safe_load documents = Ret parts ->
  In (k, g) parts ->
  exists doc rest,
    documents_of k documents = doc :: rest /\ flags_from safe_load doc g.
Proof.
  intros H Hg. apply find_parts_ingested in H as (_ & _ & Hgroups).
  destruct (Hgroups k g Hg) as [_ Hflags]. exact Hflags.
Qed.

Lemma find_parts_flags_come_first_witness :
  exists doc rest,
    documents_of "forest" corpus = doc :: rest /\ flags_from lenient_load doc forest_group.
Proof.
  apply (find_parts_flags_come_first lenient_load corpus corpus_parts "forest" forest_group).
  - vm_compute. reflexivity.
  - left. reflexivity.
Defined.

(** *** What the searches record *)

Lemma for_each_preserves {A S} (P : S -> Prop) (xs : list A) (body : A -> S -> outcome S) :
  (forall x s s', In x xs -> P s -> body x s = Ret s' -> P s') ->
  forall s s', P s -> for_each xs body s = Ret s' -> P s'.
Proof.
  induction xs as [|x xs IH]; simpl; intros H s s' Hs.
  - intros [= <-]. exact Hs.
  - destruct (body x s) as [s1| |] eqn:E; try discriminate. cbn [mbind outcome_bind].
    apply IH; [intros; eapply H; eauto|]. eapply H; eauto.
Qed.

Lemma chained_snoc parts l a b :
  chained parts (l ++ [a]) -> steps parts a b -> chained parts ((l ++ [a]) ++ [b]).
Proof.
  induction l as [|x l IH]; simpl.
  - intros _ H. auto.
  - intros [Hx Hrest] Hstep. split; [|apply IH; assumption].
    destruct l; simpl in *; exact Hx.
Qed.

Lemma chained_drop parts n : forall l, chained parts l -> chained parts (drop n l).
Proof.
  induction n as [|n IH]; intros l H; [rewrite drop_0; exact H|].
  destruct l as [|x l]; [exact H|]. simpl. apply IH. destruct H as [_ H]. exact H.
Qed.

Lemma depth_search_records parts fuel : forall node ancestors loops loops',
  depth_search fuel parts node ancestors loops = Ret loops' ->
  NoDup (map pathname ancestors) ->
  chained parts (ancestors ++ [node]) ->
  (forall a, In a ancestors -> open_node parts a) ->
  (forall loop, In loop loops -> recorded_loop parts loop) ->
  forall loop, In loop loops' -> recorded_loop parts loop.
Proof.
  induction fuel as [|fuel IH]; intros node ancestors loops loops'; simpl; [discriminate|].
  destruct (bool_decide (pathname node ∈ map pathname ancestors)) eqn:Hseen.
  - apply bool_decide_eq_true in Hseen. intros [= <-] Hnd Hchain Hopen Hloops loop Hin.
    apply in_app_iff in Hin as [Hin|[<-|[]]]; [auto|].
    exists ancestors, node. rewrite <- list_elem_of_In. auto.
  - apply bool_decide_eq_false in Hseen.
    destruct (dict_get parts (pathname node)) as [g|] eqn:Hg; [|discriminate].
    destruct (is_end g) eqn:Hend; [intros [= <-]; auto|].
    destruct (2 * length parts <? length ancestors)%nat; [intros [= <-]; auto|].
    intros Hrun Hnd Hchain Hopen Hloops.
    refine (for_each_preserves
              (fun loops => forall loop, In loop loops -> recorded_loop parts loop)
              _ _ _ loops loops' Hloops Hrun).
    intros choice loops1 loops2 Hchoice H1.
    destruct (dict_get parts choice) as [target|] eqn:Htarget; [|intros [= <-]; exact H1].
    destruct (_ && _); [intros [= <-]; exact H1|].
    intros Hinner.
    refine (for_each_preserves
              (fun loops => forall loop, In loop loops -> recorded_loop parts loop)
              _ _ _ loops1 loops2 H1 Hinner).
    intros variant loops3 loops4 Hvariant H3 Hrec.
    apply (IH _ _ _ _ Hrec); [| | |exact H3].
    + rewrite map_app. simpl. apply NoDup_app. split; [exact Hnd|].
      split; [|apply NoDup_singleton].
      intros x Hx Hx'. apply list_elem_of_singleton in Hx'. subst x. contradiction.
    + apply chained_snoc; [exact Hchain|]. exists choice, target. auto.
    + intros a Ha. apply in_app_iff in Ha as [Ha|[<-|[]]]; [auto|].
      exists g. auto.
Qed.

Lemma list_index_lookup x names i :
  list_index x names = Some i -> names !! i = Some x.
Proof.
  revert i. induction names as [|y names IH]; simpl; intros i; [discriminate|].
  destruct (String.eqb y x) eqn:E.
  - apply String.eqb_eq in E. intros [= <-]. simpl. congruence.
  - destruct (list_index x names) as [j|]; simpl; [|discriminate].
    intros [= <-]. simpl. apply IH. reflexivity.
Qed.

Lemma list_index_app_l x l1 l2 :
  In x l1 -> list_index x (l1 ++ l2) = list_index x l1.
Proof.
  induction l1 as [|y l1 IH]; simpl; [tauto|].
  destruct (String.eqb y x) eqn:E; [reflexivity|].
  intros [->|H]; [rewrite String.eqb_refl in E; discriminate|].
  rewrite IH by exact H. reflexivity.
Qed.

Lemma canonical_looping_cut loop c :
  canonical_looping loop = Ret c ->
  exists final start,
    last (map pathname loop) = Some final
    /\ list_index final (map pathname loop) = Some start
    /\ c = (drop start loop, drop start (map pathname loop)).
Proof.
  unfold canonical_looping.
  destruct (last (map pathname loop)) as [final|] eqn:Hlast; [|discriminate].
  destruct (list_index final (map pathname loop)) as [start|] eqn:Hstart; [|discriminate].
  destruct (py_min _) as [minimum|]; [|discriminate].
  rewrite canonical_scan_id. intros [= <-]. exists final, start.
  split; [reflexivity|]. split; [exact Hstart|reflexivity].
Qed.

Lemma recorded_loop_cut parts loop c :
  recorded_loop parts loop ->
  canonical_looping loop = Ret c ->
  simple_cycle parts c.1 /\ c.2 = map pathname c.1.
Proof.
  intros (ancestors & final & -> & Hnd & Hin & Hchain & Hopen) Hc.
  apply canonical_looping_cut in Hc as (name & start & Hlast & Hindex & ->).
  cbn [fst snd]. split; [|symmetry; apply fmap_drop].
  rewrite map_app in Hlast, Hindex. simpl in Hlast, Hindex.
  rewrite last_snoc in Hlast. injection Hlast as <-.
  rewrite (list_index_app_l _ _ _ Hin) in Hindex.
  pose proof (list_index_lt _ _ _ Hindex) as Hlt. rewrite length_map in Hlt.
  apply list_index_lookup in Hindex.
  apply list_lookup_fmap_Some in Hindex as (first & Hname & Hfirst).
  exists first, (drop (S start) ancestors), final.
  assert (Hdrop : drop start ancestors = first :: drop (S start) ancestors)
    by (apply drop_S; exact Hfirst).
  split; [rewrite drop_app_le by lia; rewrite Hdrop; reflexivity|].
  split; [congruence|]. split; [|split].
  - rewrite <- Hdrop, <- skipn_map. apply (sublist_NoDup _ _ Hnd (sublist_drop _ _)).
  - apply chained_drop, Hchain.
  - intros n Hn. apply list_elem_of_In in Hn.
    apply (subseteq_drop start (ancestors ++ [final])) in Hn.
    apply list_elem_of_In, in_app_iff in Hn as [Hn|[<-|[]]]; [auto|].
    destruct (Hopen first) as (g & Hg & He).
    { apply list_elem_of_In. eapply list_elem_of_lookup_2. exact Hfirst. }
    exists g. rewrite <- Hname in Hg. auto.
Qed.

Lemma raw_loops_records parts fuel loops :
  raw_loops fuel parts = Ret loops ->
  forall loop, In loop loops -> recorded_loop parts loop.
Proof.
  unfold raw_loops. intros Hrun.
  refine (for_each_preserves
            (fun loops => forall loop, In loop loops -> recorded_loop parts loop)
            _ _ _ [] loops _ Hrun); [|intros loop []].
  intros node loops1 loops2 _ H1 Hrec.
  apply (depth_search_records _ _ _ _ _ _ Hrec); [constructor|simpl; auto| |exact H1].
  intros a [].
Qed.

Lemma looping_nodes_records parts fuel loops :
  looping_nodes fuel parts = Ret loops ->
  (forall loop, In loop loops -> simple_cycle parts loop)
  /\ NoDup (map (map pathname) loops).
Proof.
  unfold looping_nodes.
  destruct (raw_loops fuel parts) as [raw| |] eqn:Hraw; try discriminate.
  cbn [mbind outcome_bind].
  destruct (for_each raw keep_unique ([], [])) as [st| |] eqn:Hst; try discriminate.
  cbn [mbind outcome_bind]. intros [= <-].
  pose proof (raw_loops_records parts fuel raw Hraw) as Hrec.
  assert (Hinv : (forall loop, In loop st.1 -> simple_cycle parts loop)
                 /\ st.2 = map (map pathname) st.1 /\ NoDup st.2).
  { refine (for_each_preserves
              (fun st : list (list StoryPart) * list (list string) =>
                 (forall loop, In loop st.1 -> simple_cycle parts loop)
                 /\ st.2 = map (map pathname) st.1 /\ NoDup st.2)
              _ _ _ ([], []) st _ Hst).
    - intros loop st1 st2 Hloop (Hcycles & Hnames & Hnd). unfold keep_unique.
      destruct (canonical_looping loop) as [c| |] eqn:Hc; try discriminate.
      cbn [mbind outcome_bind].
      destruct (recorded_loop_cut parts loop c (Hrec loop Hloop) Hc) as [Hcycle Hname].
      destruct (bool_decide (c.2 ∈ st1.2)) eqn:Hseen; intros [= <-]; [auto|].
      apply bool_decide_eq_false in Hseen. cbn [fst snd]. split; [|split].
      + intros l Hl. apply in_app_iff in Hl as [Hl|[<-|[]]]; auto.
      + rewrite map_app, Hnames, Hname. reflexivity.
      + apply NoDup_app. split; [exact Hnd|]. split; [|apply NoDup_singleton].
        intros x Hx Hx'. apply list_elem_of_singleton in Hx'. subst x. contradiction.
    - simpl. split; [intros loop []|]. split; [reflexivity|constructor]. }
  destruct Hinv as (Hcycles & Hnames & Hnd). split; [exact Hcycles|].
  rewrite <- Hnames. exact Hnd.
Qed.

(** X12. On a graph as [find_parts] builds it, [looping_nodes] returns
    loops that open and close on the same group, meet no other group
    twice, follow valid choices from node to node and stay outside the
    end groups. *)
Theorem looping_nodes_are_simple_cycles parts fuel :
  well_formed parts ->
  2 * length parts + 2 <= fuel ->
  exists loops, looping_nodes fuel parts = Ret loops
                /\ forall loop, In loop loops -> simple_cycle parts loop.
Proof.
  intros Hwf Hfuel.
  destruct (looping_nodes_returns parts Hwf fuel Hfuel) as (loops & Hloops & _).
  exists loops. split; [exact Hloops|]. apply (looping_nodes_records parts fuel loops Hloops).
Qed.

Lemma looping_nodes_are_simple_cycles_witness :
  exists loops, looping_nodes 6 two_starts = Ret loops
                /\ forall loop, In loop loops -> simple_cycle two_starts loop.
Proof.
  apply (looping_nodes_are_simple_cycles two_starts 6).
  - well_formed_by_cases.
  - simpl. lia.
Defined.

(** X13. On a graph as [find_parts] builds it, no two loops that
    [looping_nodes] returns have the same sequence of group names. *)
Theorem looping_nodes_have_distinct_names parts fuel :
  well_formed parts ->
  2 * length parts + 2 <= fuel ->
  exists loops, looping_nodes fuel parts = Ret loops
                /\ NoDup (map (map pathname) loops).
Proof.
  intros Hwf Hfuel.
  destruct (looping_nodes_returns parts Hwf fuel Hfuel) as (loops & Hloops & _).
  exists loops. split; [exact Hloops|]. apply (looping_nodes_records parts fuel loops Hloops).
Qed.

Lemma looping_nodes_have_distinct_names_witness :
  exists loops, looping_nodes 6 two_starts = Ret loops
                /\ NoDup (map (map pathname) loops).
Proof.
  apply (looping_nodes_have_distinct_names two_starts 6).
  - well_formed_by_cases.
  - simpl. lia.
Defined.

Lemma group_chained_snoc parts l a b :
  group_chained parts (l ++ [a]) -> group_steps parts a b ->
  group_chained parts ((l ++ [a]) ++ [b]).
Proof.
  induction l as [|x l IH]; simpl.
  - intros _ H. auto.
  - intros [Hx Hrest] Hstep. split; [|apply IH; assumption].
    destruct l; simpl in *; exact Hx.
Qed.

Lemma traverse_records parts fuel : forall node path st st',
  traverse fuel parts node path st = Ret st' ->
  (exists first, head (path ++ [node]) = Some first /\ In first (starting_nodes parts)) ->
  group_chained parts (path ++ [node]) ->
  (forall a, In a path -> goes_on parts a) ->
  walked parts st -> walked parts st'.
Proof.
  induction fuel as [|fuel IH]; intros node path st st'; simpl; [discriminate|].
  destruct (5 * length parts <? length path)%nat eqn:Hcut; [intros [= <-]; auto|].
  apply Nat.ltb_ge in Hcut.
  destruct (decide (map pathname (path ++ [node]) ∈ st.2)) as [Hseen|Hnew];
    [intros [= <-]; auto|].
  destruct (dict_get parts (pathname node)) as [g|] eqn:Hg; [|discriminate].
  cbn [fst snd].
  destruct (is_end g || negb (has_valid_choices parts g)) eqn:Hstop.
  - intros [= <-] Hfirst Hchain Hon (Hpaths & Hnd & Hvisited).
    unfold walked. cbn [fst snd]. split; [|split].
    + intros p Hp. apply in_app_iff in Hp as [Hp|[<-|[]]]; [auto|].
      exists path, node. split; [reflexivity|]. split; [exact Hfirst|].
      split; [exact Hchain|]. split; [exact Hon|]. split; [|exact Hcut].
      exists g. split; [exact Hg|].
      apply orb_true_iff in Hstop as [H|H]; [auto|]. right.
      apply negb_true_iff in H. exact H.
    + rewrite (map_app (map pathname) st.1). apply NoDup_app. split; [exact Hnd|].
      split; [|apply NoDup_singleton].
      intros x Hx Hx'. apply list_elem_of_singleton in Hx'. subst x.
      apply list_elem_of_In, in_map_iff in Hx as (p & Hp & Hin).
      apply Hnew. rewrite <- Hp. apply Hvisited, Hin.
    + intros p Hp. apply in_app_iff in Hp as [Hp|[<-|[]]].
      * apply elem_of_union. left. apply Hvisited, Hp.
      * apply elem_of_union. right. apply elem_of_singleton. reflexivity.
  - apply orb_false_iff in Hstop as [Hend Hvalid]. apply negb_false_iff in Hvalid.
    intros Hrun Hfirst Hchain Hon Hwalked.
    assert (Hon' : forall a, In a (path ++ [node]) -> goes_on parts a).
    { intros a Ha. apply in_app_iff in Ha as [Ha|[<-|[]]]; [auto|]. exists g. auto. }
    assert (Hfirst' : forall next, exists first,
               head ((path ++ [node]) ++ [next]) = Some first
               /\ In first (starting_nodes parts)).
    { intros next. destruct Hfirst as (first & Hhead & Hstart). exists first.
      split; [|exact Hstart]. destruct (path ++ [node]); [discriminate|exact Hhead]. }
    assert (Hwalked0 : walked parts (st.1, st.2 ∪ {[map pathname (path ++ [node])]})).
    { destruct Hwalked as (Hpaths & Hnd & Hvisited). split; [exact Hpaths|].
      split; [exact Hnd|]. intros p Hp. apply elem_of_union. left. apply Hvisited, Hp. }
    refine (for_each_preserves (walked parts) _ _ _ _ st' Hwalked0 Hrun).
    intros variant st1 st2 Hvariant H1 Hrun1.
    refine (for_each_preserves (walked parts) _ _ _ st1 st2 H1 Hrun1).
    intros choice st3 st4 Hchoice H3.
    destruct (dict_get parts choice) as [target|] eqn:Htarget; [|intros [= <-]; exact H3].
    destruct (_ && _); [intros [= <-]; exact H3|].
    intros Hrun3.
    refine (for_each_preserves (walked parts) _ _ _ st3 st4 H3 Hrun3).
    intros next st5 st6 Hnext H5 Hrec.
    apply (IH _ _ _ _ Hrec); [apply Hfirst'| |exact Hon'|exact H5].
    apply group_chained_snoc; [exact Hchain|].
    exists g, variant, choice, target. auto 6.
Qed.

Lemma playthroughs_records parts fuel all_paths :
  playthroughs fuel parts = Ret all_paths ->
  (forall p, In p all_paths -> playthrough parts p)
  /\ NoDup (map (map pathname) all_paths).
Proof.
  unfold playthroughs.
  destruct (for_each _ _ _) as [st| |] eqn:Hst; try discriminate.
  cbn [mbind outcome_bind]. intros [= <-].
  assert (Hwalked : walked parts st).
  { refine (for_each_preserves (walked parts) _ _ _ _ st _ Hst).
    - intros start st1 st2 Hstart H1 Hrec.
      apply (traverse_records _ _ _ _ _ _ Hrec); [| |intros a []|exact H1].
      + exists start. auto.
      + simpl. auto.
    - split; [intros p []|]. split; [constructor|intros p []]. }
  destruct Hwalked as (Hpaths & Hnd & _). auto.
Qed.

(** X14. On a graph as [find_parts] builds it, every playthrough that
    [abnormal_paths] enumerates opens on a start node, goes from each
    node to a variant of a target some variant of its group chooses,
    passes only groups that are no end group and have a valid choice,
    stops on an end group or a group without valid choice, and has at
    most [5 * len(parts) + 1] nodes. *)
Theorem playthroughs_are_complete_walks parts fuel :
  well_formed parts ->
  5 * length parts + 2 <= fuel ->
  exists all_paths, playthroughs fuel parts = Ret all_paths
                    /\ forall p, In p all_paths -> playthrough parts p.
Proof.
  intros [_ Hkeyed] Hfuel.
  destruct (playthroughs_returns parts Hkeyed fuel Hfuel) as [all_paths Hall].
  exists all_paths. split; [exact Hall|]. apply (playthroughs_records parts fuel all_paths Hall).
Qed.

Lemma playthroughs_are_complete_walks_witness :
  exists all_paths, playthroughs 27 short_and_long = Ret all_paths
                    /\ forall p, In p all_paths -> playthrough short_and_long p.
Proof.
  apply (playthroughs_are_complete_walks short_and_long 27).
  - well_formed_by_cases.
  - simpl. lia.
Defined.

(** X15. On a graph as [find_parts] builds it, no two enumerated
    playthroughs have the same sequence of group names: of the
    playthroughs that differ only in the variants they pass, the first
    one met is kept. *)
Theorem playthroughs_have_distinct_names parts fuel :
  well_formed parts ->
  5 * length parts + 2 <= fuel ->
  exists all_paths, playthroughs fuel parts = Ret all_paths
                    /\ NoDup (map (map pathname) all_paths).
Proof.
  intros [_ Hkeyed] Hfuel.
  destruct (playthroughs_returns parts Hkeyed fuel Hfuel) as [all_paths Hall].
  exists all_paths. split; [exact Hall|]. apply (playthroughs_records parts fuel all_paths Hall).
Qed.

Lemma playthroughs_have_distinct_names_witness :
  exists all_paths, playthroughs 27 short_and_long = Ret all_paths
                    /\ NoDup (map (map pathname) all_paths).
Proof.
  apply (playthroughs_have_distinct_names short_and_long 27).
  - well_formed_by_cases.
  - simpl. lia.
Defined.

(** *** More on unreachable_nodes *)

Lemma waiting_pop_seen parts stack node visited :
  waiting parts (stack ++ [node]) visited -> file_name node ∈ visited ->
  waiting parts stack visited.
Proof.
  intros (Hstack & Hstart) Hseen. split.
  - intros n Hn. apply Hstack, in_app_iff. auto.
  - intros n Hn. destruct (Hstart n Hn) as [H|H]; [|auto].
    apply in_app_iff in H as [H|[<-|[]]]; auto.
Qed.

Lemma waiting_pop_marked parts stack stack' node visited :
  waiting parts (stack ++ [node]) visited ->
  (forall n, In n stack -> In n stack') ->
  (forall n, In n stack' -> In n (all_nodes parts)) ->
  waiting parts stack' (visited ∪ {[ file_name node ]}).
Proof.
  intros (Hstack & Hstart) Hmore Hnodes. split; [exact Hnodes|].
  intros n Hn. destruct (Hstart n Hn) as [H|H].
  - apply in_app_iff in H as [H|[<-|[]]]; [auto|].
    right. apply elem_of_union. right. apply elem_of_singleton. reflexivity.
  - right. apply elem_of_union. left. exact H.
Qed.

Lemma unreachable_loop_returns parts :
  well_formed parts ->
  forall unmarked visited stack,
    size (file_names parts ∖ visited) = unmarked ->
    waiting parts stack visited ->
    exists fuel visited',
      unreachable_loop fuel parts stack visited = Ret visited'
      /\ waiting parts [] visited'.
Proof.
  intros Hwf unmarked. induction (lt_wf unmarked) as [unmarked _ IHu].
  intros visited stack Hsize.
  induction stack as [|node stack IHs] using rev_ind; intros Hwait.
  - exists 1, visited. split; [reflexivity|exact Hwait].
  - assert (Hnode : In node (all_nodes parts)).
    { destruct Hwait as [Hstack _]. apply Hstack, in_app_iff. simpl. auto. }
    destruct (decide (file_name node ∈ visited)) as [Hseen|Hnew].
    + destruct (IHs (waiting_pop_seen _ _ _ _ Hwait Hseen)) as (fuel & v & Hloop & Hv).
      exists (S fuel), v. split; [|exact Hv].
      simpl. rewrite list_pop_snoc. fold (file_name node).
      destruct (decide _); [exact Hloop|contradiction].
    + destruct (node_is_known parts Hwf node Hnode) as [g Hg].
      pose proof (fewer_unmarked parts node visited Hnode Hnew) as Hless.
      destruct (is_end g) eqn:Hend.
      * destruct (IHu _ ltac:(rewrite <- Hsize; exact Hless) _ stack eq_refl) as (fuel & v & Hloop & Hv).
        { apply (waiting_pop_marked _ stack stack node visited Hwait); [auto|].
          intros n Hn. destruct Hwait as [Hstack _]. apply Hstack, in_app_iff. auto. }
        exists (S fuel), v. split; [|exact Hv].
        simpl. rewrite list_pop_snoc. fold (file_name node).
        destruct (decide _); [contradiction|]. rewrite Hg, Hend. exact Hloop.
      * destruct (IHu _ ltac:(rewrite <- Hsize; exact Hless) _
                    (extend_choices parts (values (choices node)) stack) eq_refl)
          as (fuel & v & Hloop & Hv).
        { apply (waiting_pop_marked _ stack _ node visited Hwait).
          - intros n Hn. apply In_extend_choices. auto.
          - intros n Hn. apply In_extend_choices in Hn as [Hn|(c & t & Hc & Ht & Hn)].
            + destruct Hwait as [Hstack _]. apply Hstack, in_app_iff. auto.
            + apply In_all_nodes. exists c, t. auto using dict_get_In. }
        exists (S fuel), v. split; [|exact Hv].
        simpl. rewrite list_pop_snoc. fold (file_name node).
        destruct (decide _); [contradiction|]. rewrite Hg, Hend. exact Hloop.
Qed.

(** X16. On a graph as [find_parts] builds it, the loop of
    [unreachable_nodes] comes to an end, whatever the file names: with
    enough fuel the function returns nodes of the graph, and never a
    start node. *)
Theorem unreachable_nodes_returns_without_starts parts :
  well_formed parts ->
  exists fuel, forall fuel', fuel <= fuel' ->
    exists nodes,
      unreachable_nodes fuel' parts = Ret nodes
      /\ (forall n, In n nodes -> In n (all_nodes parts))
      /\ (forall n, In n (starting_nodes parts) -> ~ In n nodes).
Proof.
  intros Hwf. unfold unreachable_nodes.
  destruct (starting_nodes parts) as [|s0 ss] eqn:Hstarts.
  - exists 0. intros _ _. exists (all_nodes parts). split; [reflexivity|].
    split; [auto|]. intros n [].
  - rewrite <- Hstarts.
    destruct (unreachable_loop_returns parts Hwf _ ∅ (starting_nodes parts) eq_refl)
      as (fuel & visited & Hloop & _ & Hmarked).
    { split; [|auto]. intros n Hn. apply In_starting_nodes in Hn.
      apply In_all_nodes. exact Hn. }
    exists fuel. intros fuel' Hle.
    rewrite (unreachable_loop_more_fuel parts fuel _ _ _ Hloop fuel' Hle).
    cbn [mbind outcome_bind]. eexists. split; [reflexivity|]. split.
    + intros n Hn. apply list_elem_of_In, list_elem_of_filter in Hn as [_ Hn].
      apply list_elem_of_In. exact Hn.
    + intros n Hn Hin. apply list_elem_of_In, list_elem_of_filter in Hin as [Hnot _].
      apply Is_true_true, negb_true_iff, bool_decide_eq_false in Hnot.
      destruct (Hmarked n Hn) as [[]|Hv]. apply Hnot. exact Hv.
Qed.

Lemma unreachable_nodes_returns_without_starts_witness :
  exists fuel, forall fuel', fuel <= fuel' ->
    exists nodes,
      unreachable_nodes fuel' same_file_names = Ret nodes
      /\ (forall n, In n nodes -> In n (all_nodes same_file_names))
      /\ (forall n, In n (starting_nodes same_file_names) -> ~ In n nodes).
Proof.
  apply (unreachable_nodes_returns_without_starts same_file_names).
  well_formed_by_cases.
Defined.

(** *** What can_escape finds *)

Lemma first_true_true {A} (xs : list A) (f : A -> outcome bool) :
  first_true xs f = Ret true -> exists x, In x xs /\ f x = Ret true.
Proof.
  induction xs as [|x xs IH]; simpl; [discriminate|].
  destruct (f x) as [[|]| |] eqn:E; cbn [mbind outcome_bind]; try discriminate.
  - intros _. exists x. auto.
  - intros H. destruct (IH H) as (y & Hy & Hfy). exists y. auto.
Qed.

Lemma first_true_found {A} (xs : list A) (f : A -> outcome bool) :
  (forall x, In x xs -> exists b, f x = Ret b) ->
  (exists x, In x xs /\ f x = Ret true) ->
  first_true xs f = Ret true.
Proof.
  induction xs as [|x xs IH]; simpl; intros Hall (y & Hy & Hfy); [destruct Hy|].
  destruct (Hall x (or_introl eq_refl)) as [[|] Hb]; rewrite Hb; cbn [mbind outcome_bind];
    [reflexivity|].
  apply IH; [intros; apply Hall; auto|].
  destruct Hy as [<-|Hy]; [congruence|]. exists y. auto.
Qed.

Lemma search_sound parts loop_names fuel : forall node visited,
  search fuel parts loop_names node visited = Ret true ->
  escapes_simply parts visited (pathname node).
Proof.
  induction fuel as [|fuel IH]; intros node visited; simpl; [discriminate|].
  destruct (dict_get parts (pathname node)) as [g|] eqn:Hg; [|discriminate].
  destruct (is_end g) eqn:Hend; [intros _; eapply simply_end; eauto|].
  destruct (decide (pathname node ∈ visited)) as [Hseen|Hnew]; [discriminate|].
  intros H. apply first_true_true in H as (v & Hv & H).
  apply first_true_true in H as (c & Hc & H).
  destruct (dict_get parts c) as [t|] eqn:Ht; [|discriminate].
  assert (Hw : exists w, In w (variants t)
                 /\ search fuel parts loop_names w (visited ∪ {[pathname node]}) = Ret true).
  { destruct (decide _); apply first_true_true in H; exact H. }
  destruct Hw as (w & Hw & Hrec).
  apply (simply_step parts visited (pathname node) g v c t w); auto.
Qed.

Lemma search_complete parts loop_names :
  well_formed parts ->
  forall visited k, escapes_simply parts visited k ->
  forall fuel node,
    pathname node = k ->
    visited ⊆ group_names parts ->
    length parts + 2 <= fuel + size visited ->
    search fuel parts loop_names node visited = Ret true.
Proof.
  intros Hwf visited k Hesc.
  induction Hesc as [visited k g Hg Hend|visited k g v c t w Hg Hend Hnew Hv Hc Ht Hw Hesc IH];
    intros fuel node Hname Hsub Hfuel.
  - destruct fuel as [|fuel].
    + apply subseteq_size in Hsub. rewrite (group_names_size parts Hwf) in Hsub. lia.
    + simpl. rewrite Hname, Hg, Hend. reflexivity.
  - destruct fuel as [|fuel].
    + apply subseteq_size in Hsub. rewrite (group_names_size parts Hwf) in Hsub. lia.
    + simpl. rewrite Hname, Hg, Hend.
      destruct (decide (k ∈ visited)) as [Hseen|_]; [contradiction|].
      assert (Hkey : k ∈ group_names parts).
      { apply elem_of_list_to_set, list_elem_of_In.
        apply (in_map fst _ _ (dict_get_In _ _ _ Hg)). }
      assert (Hsub' : visited ∪ {[k]} ⊆ group_names parts).
      { apply union_subseteq. split; [exact Hsub|]. apply singleton_subseteq_l, Hkey. }
      assert (Hsize : size (visited ∪ {[k]}) = S (size visited)).
      { rewrite size_union, size_singleton; [lia|]. apply disjoint_singleton_r. exact Hnew. }
      assert (Hreturns : forall c' t' w', dict_get parts c' = Some t' -> In w' (variants t') ->
                 exists b, search fuel parts loop_names w' (visited ∪ {[k]}) = Ret b).
      { intros c' t' w' Hc' Hw'. apply (search_returns parts Hwf); [|exact Hsub'|lia].
        exact (known_variant parts (keyed_parts parts Hwf) c' t' w' Hc' Hw'). }
      assert (Hinner : forall c', exists b,
                 match dict_get parts c' with
                 | Some target =>
                     if decide (c' ∉ loop_names)
                     then first_true (variants target)
                            (fun v0 => search fuel parts loop_names v0 (visited ∪ {[k]}))
                     else first_true (variants target)
                            (fun v0 => search fuel parts loop_names v0 (visited ∪ {[k]}))
                 | None => Ret false
                 end = Ret b).
      { intros c'. destruct (dict_get parts c') as [t'|] eqn:Ht'; [|eauto].
        destruct (decide _); apply first_true_returns; intros w' Hw'; eapply Hreturns; eauto. }
      apply first_true_found.
      * intros v' _. apply first_true_returns. intros c' _. apply Hinner.
      * exists v. split; [exact Hv|]. apply first_true_found.
        -- intros c' _. apply Hinner.
        -- exists c. split; [exact Hc|]. rewrite Ht.
           assert (Hfound : first_true (variants t)
                              (fun v0 => search fuel parts loop_names v0 (visited ∪ {[k]}))
                            = Ret true).
           { apply first_true_found.
             - intros w' Hw'. eapply Hreturns; eauto.
             - exists w. split; [exact Hw|]. apply IH; [reflexivity|exact Hsub'|lia]. }
           destruct (decide _); exact Hfound.
Qed.

(** X17. On a graph as [find_parts] builds it, [can_escape] returns, and
    it answers true exactly when the group of some node of the loop
    reaches an end group along valid choices of its variants without
    passing a group twice. *)
Theorem can_escape_finds_simple_escapes parts fuel loop :
  well_formed parts ->
  length parts + 2 <= fuel ->
  (forall n, In n loop -> known parts n) ->
  exists b, can_escape fuel parts loop = Ret b
            /\ (b = true <->
                exists n, In n loop /\ escapes_simply parts ∅ (pathname n)).
Proof.
  intros Hwf Hfuel Hknown.
  destruct (can_escape_returns parts Hwf fuel loop Hfuel Hknown) as [b Hb].
  exists b. split; [exact Hb|]. unfold can_escape in *. split.
  - intros ->. apply first_true_true in Hb as (n & Hn & Hs).
    exists n. split; [exact Hn|]. eapply search_sound. exact Hs.
  - intros (n & Hn & Hesc).
    assert (Htrue : first_true loop
                      (fun node => search fuel parts (list_to_set (map pathname loop)) node ∅)
                    = Ret true).
    { apply first_true_found.
      - intros m Hm. apply (search_returns parts Hwf); [auto|apply empty_subseteq|lia].
      - exists n. split; [exact Hn|].
        apply (search_complete parts _ Hwf ∅ (pathname n) Hesc);
          [reflexivity|apply empty_subseteq|lia]. }
    congruence.
Qed.

Lemma can_escape_finds_simple_escapes_witness :
  exists b, can_escape 5 loop_with_exit [node_la; node_lb; node_la] = Ret b
            /\ (b = true <->
                exists n, In n [node_la; node_lb; node_la]
                          /\ escapes_simply loop_with_exit ∅ (pathname n)).
Proof.
  apply (can_escape_finds_simple_escapes loop_with_exit 5 [node_la; node_lb; node_la]).
  - well_formed_by_cases.
  - simpl. lia.
  - intros n [<-|[<-|[<-|[]]]]; eexists; reflexivity.
Defined.

Lemma escapes_simply_needs_end parts visited k :
  escapes_simply parts visited k -> exists k' g, In (k', g) parts /\ is_end g = true.
Proof.
  induction 1 as [visited k g Hg Hend|]; [|assumption].
  exists k, g. split; [apply dict_get_In, Hg|exact Hend].
Qed.

(** X18. On a graph as [find_parts] builds it that has no end group,
    [escapable_looping_nodes] returns no loop and
    [innescapable_looping_nodes] returns every loop of [looping_nodes]. *)
Theorem without_end_no_loop_escapes parts fuel :
  well_formed parts ->
  2 * length parts + 2 <= fuel ->
  (forall k g, In (k, g) parts -> is_end g = false) ->
  exists loops,
    looping_nodes fuel parts = Ret loops
    /\ escapable_looping_nodes fuel parts = Ret []
    /\ innescapable_looping_nodes fuel parts = Ret loops.
Proof.
  intros Hwf Hfuel Hnoend.
  destruct (looping_nodes_returns parts Hwf fuel Hfuel) as (loops & Hloops & Hknown).
  exists loops. split; [exact Hloops|].
  assert (Htest : forall loop, In loop loops -> can_escape fuel parts loop = Ret false).
  { intros loop Hin.
    destruct (can_escape_returns parts Hwf fuel loop) as [b Hb]; [lia|eauto|].
    destruct b; [|exact Hb]. exfalso. unfold can_escape in Hb.
    apply first_true_true in Hb as (n & _ & Hs). apply search_sound in Hs.
    apply escapes_simply_needs_end in Hs as (k & g & Hin' & Hend).
    rewrite (Hnoend k g Hin') in Hend. discriminate. }
  unfold escapable_looping_nodes, innescapable_looping_nodes. rewrite Hloops.
  cbn [mbind outcome_bind]. split.
  - rewrite (for_each_select (can_escape fuel parts) (fun b => b) (fun _ => false) loops Htest []).
    rewrite filter_none; [reflexivity|]. intros x _ H. exact H.
  - rewrite (for_each_select (can_escape fuel parts) negb (fun _ => false) loops Htest []).
    simpl. rewrite filter_all. reflexivity.
Qed.

Lemma without_end_no_loop_escapes_witness :
  exists loops,
    looping_nodes 6 two_starts = Ret loops
    /\ escapable_looping_nodes 6 two_starts = Ret []
    /\ innescapable_looping_nodes 6 two_starts = Ret loops.
Proof.
  apply (without_end_no_loop_escapes two_starts 6).
  - well_formed_by_cases.
  - simpl. lia.
  - intros k g [H|[H|[]]]; injection H as <- <-; reflexivity.
Defined.

(** *** The metadata checks that read a field *)

Lemma command_metadata_part_reads regex property field part nodes :
  getattr part property VNone = of_field (field part) ->
  command_metadata_part regex property part nodes
  = Ret (if refused regex (field part) then nodes ++ [part] else nodes).
Proof.
  unfold command_metadata_part. intros ->.
  destruct (field part) as [v|]; simpl; [|reflexivity].
  destruct (String.eqb v ""); simpl; [reflexivity|].
  destruct (re_match regex v); reflexivity.
Qed.

Lemma command_metadata_variants regex property field variants :
  (forall part, getattr part property VNone = of_field (field part)) ->
  forall nodes,
    for_each variants (command_metadata_part regex property) nodes
    = Ret (nodes ++ filter (fun part => refused regex (field part)) variants).
Proof.
  intros Hfield. induction variants as [|p ps IH]; intros nodes; simpl.
  - rewrite app_nil_r. reflexivity.
  - rewrite (command_metadata_part_reads regex property field p nodes (Hfield p)).
    cbn [mbind outcome_bind]. rewrite IH.
    destruct (refused regex (field p)) eqn:E.
    + rewrite filter_cons_True by (rewrite E; exact I).
      rewrite <- app_assoc. reflexivity.
    + rewrite filter_cons_False by (rewrite E; exact id). reflexivity.
Qed.

Lemma command_metadata_reads_field regex property field parts :
  (forall part, getattr part property VNone = of_field (field part)) ->
  command_metadata parts regex property
  = Ret (filter (fun part => refused regex (field part)) (all_nodes parts)).
Proof.
  intros Hfield. unfold command_metadata.
  rewrite <- (app_nil_l (filter _ (all_nodes parts))). generalize (@nil StoryPart) as nodes.
  induction parts as [|[k g] rest IH]; intros nodes; simpl.
  - rewrite app_nil_r. reflexivity.
  - rewrite (command_metadata_variants regex property field (variants g) Hfield).
    cbn [mbind outcome_bind]. rewrite IH, filter_app, app_assoc. reflexivity.
Qed.

(** X19. For the colour, pace, effect and point-of-view concerns the
    metadata check returns, in graph order, exactly the nodes whose
    declared value is not empty and is refused by the pattern of the
    concern. *)
Theorem style_metadata_reports_refused_values NAMED_COLOURS c parts :
  c <> Message -> c <> MessageTitle ->
  metadata_check NAMED_COLOURS c parts
  = Ret (filter (fun part => refused (metadata_pattern NAMED_COLOURS c) (metadata_field c part))
                (all_nodes parts)).
Proof.
  intros Hm Ht. destruct c; try congruence;
    apply command_metadata_reads_field; intros part; reflexivity.
Qed.

Lemma style_metadata_reports_refused_values_witness :
  metadata_check [] Pace sluggish_story
  = Ret (filter (fun part => refused (metadata_pattern [] Pace) (metadata_field Pace part))
                (all_nodes sluggish_story)).
Proof.
  apply (style_metadata_reports_refused_values [] Pace sluggish_story); discriminate.
Defined.

Lemma run_Lit {A} w : forall pos s cap (k : cont A),
  run (Lit w) pos s cap k
  = match strip_prefix w s with
    | Some rest => k (pos + String.length w) rest cap
    | None => None
    end.
Proof.
  induction w as [|c w IH]; intros pos s cap k.
  - simpl. rewrite Nat.add_0_r. reflexivity.
  - destruct w as [|c' w'].
    + simpl. destruct s as [|c0 s0]; [reflexivity|].
      destruct (Ascii.eqb c0 c); [|reflexivity]. rewrite Nat.add_1_r. reflexivity.
    + change (Lit (String c (String c' w'))) with (Seq (Chr c) (Lit (String c' w'))).
      cbn [run]. destruct s as [|c0 s0]; [reflexivity|].
      cbn [strip_prefix]. destruct (Ascii.eqb c0 c); [|reflexivity].
      rewrite IH.
      replace (S pos + String.length (String c' w'))
        with (pos + String.length (String c (String c' w'))) by (simpl; lia).
      reflexivity.
Qed.

Lemma strip_prefix_prefix w : forall s,
  match strip_prefix w s with Some _ => true | None => false end = String.prefix w s.
Proof.
  induction w as [|c w IH]; intros s; [destruct s; reflexivity|].
  destruct s as [|c0 s0]; [reflexivity|]. simpl.
  destruct (ascii_dec c c0) as [->|Hne].
  - rewrite Ascii.eqb_refl. apply IH.
  - replace (Ascii.eqb c0 c) with false; [reflexivity|].
    symmetry. apply Ascii.eqb_neq. congruence.
Qed.

Lemma run_alts_Lit {A} (ws : list string) pos s cap (k : cont A) :
  (forall p r c, exists x, k p r c = Some x) ->
  ws <> [] ->
  match run (alts (map Lit ws)) pos s cap k with Some _ => true | None => false end
  = existsb (fun w => String.prefix w s) ws.
Proof.
  intros Hk. induction ws as [|w ws IH]; [congruence|]. intros _.
  assert (Hone : match run (Lit w) pos s cap k with Some _ => true | None => false end
                 = String.prefix w s).
  { rewrite run_Lit, <- strip_prefix_prefix. destruct (strip_prefix w s) as [rest|]; [|reflexivity].
    destruct (Hk (pos + String.length w) rest cap) as [x ->]. reflexivity. }
  destruct ws as [|w' ws'].
  - simpl. rewrite orb_false_r. exact Hone.
  - change (alts (map Lit (w :: w' :: ws')))
      with (Alt (Lit w) (alts (map Lit (w' :: ws')))).
    cbn [run].
    transitivity (String.prefix w s || existsb (fun w0 => String.prefix w0 s) (w' :: ws'));
      [|reflexivity].
    rewrite <- Hone, <- IH by discriminate.
    destruct (run (Lit w) pos s cap k); reflexivity.
Qed.

Lemma prefix_app w : forall s t,
  String.prefix w s = true -> String.prefix w (String.append s t) = true.
Proof.
  induction w as [|c w IH]; intros s t; [destruct (String.append s t); reflexivity|].
  destruct s as [|c0 s0]; simpl; [discriminate|].
  destruct (ascii_dec c c0); [apply IH|discriminate].
Qed.

(** X20. The pattern of the effect metadata has no end anchor: it accepts
    exactly the values that start with one of the effect names, so a
    value it accepts stays accepted whatever is written after it. *)
Theorem effect_metadata_accepts_prefixes :
  (forall s, re_match META_EFFECT_PATTERN s
             = existsb (fun w => String.prefix w s) effect_names)
  /\ (forall s t, re_match META_EFFECT_PATTERN s = true ->
                  re_match META_EFFECT_PATTERN (String.append s t) = true).
Proof.
  assert (H : forall s, re_match META_EFFECT_PATTERN s
                        = existsb (fun w => String.prefix w s) effect_names).
  { intros s. unfold re_match, match_at, META_EFFECT_PATTERN, EFFECTS.
    fold effect_names. cbn [run].
    rewrite <- (run_alts_Lit effect_names 0 s None
                  (fun pos' s' _ =>
                     if false && (pos' =? 0)%nat then None
                     else Some (pos', Some (String.substring 0 (pos' - 0) s))));
      [reflexivity| |discriminate].
    intros p r c. eexists. reflexivity. }
  split; [exact H|]. intros s t. rewrite !H, !existsb_exists.
  intros (w & Hw & Hp). exists w. split; [exact Hw|]. apply prefix_app, Hp.
Qed.

(** X21. A node that [excessive_commands] reports at its default
    threshold has at least five non-blank lines and holds some marker
    value at least three times. *)
Theorem excessive_usage_needs_three_markers parts regex n :
  In n (excessive_commands parts regex default_threshold) ->
  5 <= length (nonblank_lines (text n))
  /\ exists v, 3 <= count_occ string_dec (findall regex (text n)) v.
Proof.
  intros H. apply In_excessive_commands in H as [_ H].
  apply excessive_part_iff in H as [Hlines [v Hv]]; [|discriminate].
  split; [lia|]. exists v.
  apply fraction_gt in Hv; [|lia]. unfold default_threshold, Qlt in Hv. simpl in Hv. lia.
Qed.

Lemma excessive_usage_needs_three_markers_witness :
  5 <= length (nonblank_lines (text node_five_lines))
  /\ exists v, 3 <= count_occ string_dec (findall PACE_PATTERN (text node_five_lines)) v.
Proof.
  apply (excessive_usage_needs_three_markers
           [("P", group true true [node_five_lines])] PACE_PATTERN node_five_lines).
  vm_compute. left. reflexivity.
Defined.

(** *** generate_json *)

Lemma dict_set_fresh {V} (d : list (string * V)) k v :
  ~ In k (map fst d) -> dict_set d k v = d ++ [(k, v)].
Proof.
  induction d as [|[k' v'] d IH]; simpl; intros H; [reflexivity|].
  destruct (String.eqb k k') eqn:E.
  - apply String.eqb_eq in E. exfalso. apply H. auto.
  - rewrite IH by tauto. reflexivity.
Qed.

Lemma dict_or_optional (a : list (string * json)) key value :
  ~ In key (map fst a) -> dict_or a (optional key value) = a ++ optional key value.
Proof.
  intros H. unfold dict_or, optional. destruct value as [v|]; simpl.
  - destruct (String.eqb v ""); simpl; [rewrite app_nil_r; reflexivity|].
    apply dict_set_fresh, H.
  - rewrite app_nil_r. reflexivity.
Qed.

Lemma optional_keys key value k : In k (map fst (optional key value)) -> k = key.
Proof.
  unfold optional. destruct value as [v|]; simpl; [|tauto].
  destruct (String.eqb v ""); simpl; intuition.
Qed.

(** The key is none of those written so far. *)
Ltac fresh_key :=
  let H := fresh in
  intros H; rewrite ?map_app, ?in_app_iff in H; simpl in H;
  repeat match type of H with
         | _ \/ _ => destruct H as [H|H]
         end;
  try (apply optional_keys in H); solve [discriminate H | destruct H].

(** X22. The object [generate_json] writes for a variant holds its
    choices and its text, then each style value that is declared and not
    empty, in the order pace, colour, effect, pov, messagepov,
    messagetitle: the unions add keys and replace none. *)
Theorem variant_json_lists_declared_styles v :
  variant_json v
  = [("choices", choices_json (choices v)); ("text", JStr (text v))]
    ++ optional "pace" (pace v) ++ optional "colour" (colour v)
    ++ optional "effect" (effect v) ++ optional "pov" (pov v)
    ++ optional "messagepov" (messagepov v) ++ optional "messagetitle" (messagetitle v).
Proof.
  unfold variant_json.
  rewrite (dict_or_optional _ "pace") by fresh_key.
  rewrite (dict_or_optional _ "colour") by fresh_key.
  rewrite (dict_or_optional _ "effect") by fresh_key.
  rewrite (dict_or_optional _ "pov") by fresh_key.
  rewrite (dict_or_optional _ "messagepov") by fresh_key.
  rewrite (dict_or_optional _ "messagetitle") by fresh_key.
  rewrite <- !app_assoc. reflexivity.
Qed.

Lemma generate_json_fold parts : forall output,
  NoDup (map fst output ++ map fst parts) ->
  fold_left (fun output entry => dict_set output entry.1 (group_json entry.2)) parts output
  = output ++ map (fun entry : string * StoryParts => (entry.1, group_json entry.2)) parts.
Proof.
  induction parts as [|[k g] rest IH]; intros output Hnd; simpl.
  - rewrite app_nil_r. reflexivity.
  - simpl in Hnd. rewrite dict_set_fresh.
    + rewrite IH; [rewrite <- app_assoc; reflexivity|].
      rewrite map_app. simpl. rewrite <- app_assoc. exact Hnd.
    + intros Hin. apply NoDup_app in Hnd as (_ & Hdisj & _).
      apply (Hdisj k); [apply list_elem_of_In, Hin|left].
Qed.

(** X23. On a graph with pairwise distinct keys [generate_json] exports
    every group under its key, in the order of the graph, with its
    flags and one object for each variant in order. *)
Theorem generate_json_keeps_groups parts :
  unique_keys parts ->
  generate_json parts
  = map (fun entry : string * StoryParts => (entry.1, group_json entry.2)) parts.
Proof.
  intros Hu. unfold generate_json. rewrite generate_json_fold; [reflexivity|exact Hu].
Qed.

Lemma generate_json_keeps_groups_witness :
  generate_json there_and_done
  = map (fun entry : string * StoryParts => (entry.1, group_json entry.2)) there_and_done.
Proof.
  apply (generate_json_keeps_groups there_and_done).
  unfold unique_keys. refine (bool_decide_unpack _ _). vm_compute. exact I.
Defined.

(** *** main *)

Lemma run_check_step parts check st st1 :
  run_check parts check st = Ret st1 ->
  exists value,
    function check parts = Ret value
    /\ st1 = if fires check value
             then if required check then (S st.1, st.2) else (st.1, S st.2)
             else st.
Proof.
  unfold run_check. destruct (function check parts) as [value| |]; try discriminate.
  cbn [mbind outcome_bind]. intros H. exists value. split; [reflexivity|].
  destruct (fires check value); [destruct (required check)|]; congruence.
Qed.

Lemma run_checks_failures parts cs : forall st st',
  for_each cs (run_check parts) st = Ret st' ->
  st.1 <= st'.1
  /\ (st'.1 = st.1 <-> forall check, In check cs -> passes parts check)
  /\ (forall check, In check cs -> exists value, function check parts = Ret value).
Proof.
  induction cs as [|check cs IH]; intros st st'; simpl.
  - intros [= <-]. split; [lia|]. split; [|intros c []]. split; [intros _ c []|reflexivity].
  - destruct (run_check parts check st) as [st1| |] eqn:Hstep; try discriminate.
    cbn [mbind outcome_bind]. apply run_check_step in Hstep as (value & Hvalue & ->).
    intros Hrest. destruct (IH _ _ Hrest) as (Hle & Hiff & Hret).
    assert (Hrets : forall c, check = c \/ In c cs -> exists v, function c parts = Ret v).
    { intros c [<-|Hc]; eauto. }
    destruct (fires check value) eqn:Hfires; [destruct (required check) eqn:Hreq|];
      cbn [fst snd] in *.
    + split; [lia|]. split; [|exact Hrets].
      split; [lia|]. intros Hall. exfalso.
      destruct (Hall check (or_introl eq_refl)) as (v & Hv & Hpass).
      rewrite Hvalue in Hv. injection Hv as <-.
      rewrite Hpass in Hfires; [discriminate|exact Hreq].
    + split; [exact Hle|]. split; [|exact Hrets].
      rewrite Hiff. split.
      * intros Hall c [<-|Hc]; [|auto]. exists value. split; [exact Hvalue|congruence].
      * intros Hall c Hc. apply Hall. auto.
    + split; [exact Hle|]. split; [|exact Hrets].
      rewrite Hiff. split.
      * intros Hall c [<-|Hc]; [|auto]. exists value. auto.
      * intros Hall c Hc. apply Hall. auto.
Qed.

Lemma run_checks_return parts cs st :
  (forall check, In check cs -> passes parts check) ->
  exists st', for_each cs (run_check parts) st = Ret st'.
Proof.
  intros Hall. apply for_each_returns. intros check st0 Hin.
  destruct (Hall check Hin) as (value & Hvalue & _).
  unfold run_check. rewrite Hvalue. cbn [mbind outcome_bind].
  destruct (fires check value); [destruct (required check)|]; eauto.
Qed.

(** X24. [main] writes the story exactly when the graph is not empty and
    every check returns and, if it is required, passes; the story it
    writes is the export of the graph. The checks that only warn never
    keep it from writing. *)
Theorem main_exports_when_required_checks_pass parts fuel NAMED_COLOURS story :
  main fuel NAMED_COLOURS parts = Ret (Exported story) <->
  parts <> [] /\ story = generate_json parts
  /\ forall check, In check (checks fuel NAMED_COLOURS) -> passes parts check.
Proof.
  unfold main. destruct parts as [|entry rest].
  - split; [discriminate|]. intros [H _]. congruence.
  - set (parts := entry :: rest).
    destruct (for_each (checks fuel NAMED_COLOURS) (run_check parts) (0, 0)) as [st| |] eqn:Hst;
      cbn [mbind outcome_bind].
    + destruct (run_checks_failures parts _ _ _ Hst) as (_ & Hiff & _). cbn [fst] in Hiff.
      destruct (0 <? st.1)%nat eqn:Hfail.
      * apply Nat.ltb_lt in Hfail. split; [discriminate|].
        intros (_ & _ & Hall). apply Hiff in Hall. lia.
      * apply Nat.ltb_ge in Hfail. split.
        -- intros [= <-]. split; [discriminate|]. split; [reflexivity|].
           apply Hiff. lia.
        -- intros (_ & -> & _). reflexivity.
    + split; [discriminate|]. intros (_ & _ & Hall). exfalso.
      destruct (run_checks_return parts _ (0, 0) Hall) as [st' Hst']. congruence.
    + split; [discriminate|]. intros (_ & _ & Hall). exfalso.
      destruct (run_checks_return parts _ (0, 0) Hall) as [st' Hst']. congruence.
Qed.





(** The check at index [n] of the list. *)
Tactic Notation "nth_check" integer(n) :=
  unfold checks; do n right; left; reflexivity.



(** *** The body parse_markdown returns *)

Lemma rstrip_head c s :
  isspace c = false -> exists r, rstrip (String c s) = String c r.
Proof.
  intros Hc. simpl. destruct (rstrip s); [rewrite Hc|]; eauto.
Qed.

Lemma rstrip_idempotent s : rstrip (rstrip s) = rstrip s.
Proof.
  induction s as [|c s IH]; [reflexivity|]. simpl.
  destruct (rstrip s) as [|c' r] eqn:E.
  - destruct (isspace c) eqn:Hc; [reflexivity|]. simpl. rewrite Hc. reflexivity.
  - simpl. simpl in IH. destruct (rstrip r) as [|c'' r'] eqn:Er.
    + destruct (isspace c') eqn:Hc'; [discriminate|]. rewrite IH. reflexivity.
    + rewrite IH. reflexivity.
Qed.

Lemma lstrip_shape s :
  lstrip s = EmptyString \/ exists c r, lstrip s = String c r /\ isspace c = false.
Proof.
  induction s as [|c s IH]; simpl; [auto|].
  destruct (isspace c) eqn:Hc; [exact IH|]. right. eauto.
Qed.

Lemma strip_shape s :
  strip s = EmptyString
  \/ exists c r, strip s = String c r /\ isspace c = false /\ rstrip (String c r) = String c r.
Proof.
  unfold strip. destruct (lstrip_shape s) as [->|(c & r & -> & Hc)]; [auto|].
  right. destruct (rstrip_head c r Hc) as [r' Hr]. exists c, r'.
  split; [exact Hr|]. split; [exact Hc|]. rewrite <- Hr. apply rstrip_idempotent.
Qed.

Lemma strip_idempotent s : strip (strip s) = strip s.
Proof.
  destruct (strip_shape s) as [->|(c & r & -> & Hc & Hr)]; [reflexivity|].
  unfold strip. simpl lstrip. rewrite Hc. exact Hr.
Qed.

Lemma isspace_replace a b c :
  isspace a = false -> isspace b = false ->
  isspace (if Ascii.eqb c a then b else c) = isspace c.
Proof.
  intros Ha Hb. destruct (Ascii.eqb c a) eqn:E; [|reflexivity].
  apply Ascii.eqb_eq in E. subst c. congruence.
Qed.

Lemma rstrip_replace a b s :
  isspace a = false -> isspace b = false ->
  rstrip (replace_char a b s) = replace_char a b (rstrip s).
Proof.
  intros Ha Hb. induction s as [|c s IH]; [reflexivity|]. simpl.
  rewrite IH. destruct (rstrip s) as [|c' r]; simpl; [|reflexivity].
  rewrite (isspace_replace a b c Ha Hb). destruct (isspace c); reflexivity.
Qed.

Lemma lstrip_replace a b s :
  isspace a = false -> isspace b = false ->
  lstrip (replace_char a b s) = replace_char a b (lstrip s).
Proof.
  intros Ha Hb. induction s as [|c s IH]; [reflexivity|]. simpl.
  rewrite (isspace_replace a b c Ha Hb). destruct (isspace c); [exact IH|reflexivity].
Qed.

Lemma replace_char_removes a b s : Ascii.eqb b a = false -> occurs a (replace_char a b s) = false.
Proof.
  intros Hba. induction s as [|c s IH]; [reflexivity|]. simpl. rewrite IH, orb_false_r.
  destruct (Ascii.eqb c a) eqn:E; [exact Hba|exact E].
Qed.

(** X26. The body [parse_markdown] returns is left unchanged by [strip]:
    it has no white space at either end; and when the content has a
    front matter, the body holds no backslash. *)
Theorem parse_markdown_body_is_stripped safe_load content metadata body :
  parse_markdown safe_load content = Ret (metadata, body) ->
  strip body = body
  /\ (startswith (strip content) "---" = true -> occurs "\" body = false).
Proof.
  unfold parse_markdown. destruct (startswith (strip content) "---") eqn:Hstart; cbn [negb].
  - destruct (split_max "---" 2 (strip content)) as [|before [|meta [|rest [|]]]];
      try (intros [=]; fail).
    destruct (safe_load meta) as [m| |]; try (intros [=]; fail).
    cbn [mbind outcome_bind]. intros [= <- <-]. split.
    + unfold strip at 1. rewrite lstrip_replace, rstrip_replace by reflexivity.
      fold (strip (strip rest)). rewrite strip_idempotent. reflexivity.
    + intros _. apply replace_char_removes. reflexivity.
  - intros [= <- <-]. split; [apply strip_idempotent|discriminate].
Qed.

Lemma parse_markdown_body_is_stripped_witness :
  strip "a/b" = "a/b"
  /\ (startswith (strip "--- pace: fast --- a\b ") "---" = true -> occurs "\" "a/b" = false).
Proof.
  apply (parse_markdown_body_is_stripped pace_load "--- pace: fast --- a\b "
           (YMap [(YStr "pace", YStr "fast")]) "a/b").
  vm_compute. reflexivity.
Defined.

(** *** More on the marker checks and the loops *)

(** X27. Letting a line hold several markers only removes findings: a
    node [commands_in_text] reports when several are allowed is reported
    when they are not. *)
Theorem allowing_multiple_markers_reports_less parts regex n :
  In n (commands_in_text parts regex true) -> In n (commands_in_text parts regex false).
Proof.
  rewrite !In_commands_in_text, !marker_lines_iff. unfold bad_marker_line.
  intros [Hn (line & Hline & Hne & [[Hallow _]|Hinline])]; [discriminate|].
  split; [exact Hn|]. exists line. auto.
Qed.

Lemma allowing_multiple_markers_reports_less_witness :
  In node_colour_inline
     (commands_in_text [("C", group true true [node_colour_inline])] (COLOUR_PATTERN []) false).
Proof.
  apply allowing_multiple_markers_reports_less. vm_compute. left. reflexivity.
Defined.

Lemma simple_cycle_length parts loop :
  simple_cycle parts loop -> 2 <= length loop <= length parts + 1.
Proof.
  intros (first & middle & final & -> & _ & Hnd & _ & Hopen).
  simpl length. rewrite length_app. simpl length. split; [lia|].
  assert (Hle : length (map pathname (first :: middle)) <= length parts).
  { rewrite <- (length_map fst parts).
    rewrite (proj1 (NoDup_iff_size _) Hnd).
    etransitivity; [|apply size_list_to_set_le].
    apply subseteq_size. intros k Hk.
    apply elem_of_list_to_set, list_elem_of_In, in_map_iff in Hk as (n & <- & Hn).
    apply elem_of_list_to_set, list_elem_of_In.
    destruct (Hopen n) as (g & Hg & _).
    - destruct Hn as [<-|Hn]; [left; reflexivity|].
      right. apply in_app_iff. left. exact Hn.
    - apply dict_get_In in Hg. apply in_map_iff. exists (pathname n, g). auto. }
  rewrite length_map in Hle. simpl length in Hle. lia.
Qed.

(** X28. On a graph as [find_parts] builds it, a loop [looping_nodes]
    returns has at least two nodes and at most one more than the graph
    has groups. *)
Theorem looping_nodes_are_short parts fuel :
  well_formed parts ->
  2 * length parts + 2 <= fuel ->
  exists loops, looping_nodes fuel parts = Ret loops
                /\ forall loop, In loop loops -> 2 <= length loop <= length parts + 1.
Proof.
  intros Hwf Hfuel.
  destruct (looping_nodes_returns parts Hwf fuel Hfuel) as (loops & Hloops & _).
  exists loops. split; [exact Hloops|]. intros loop Hloop.
  apply simple_cycle_length.
  apply (looping_nodes_records parts fuel loops Hloops). exact Hloop.
Qed.

Lemma looping_nodes_are_short_witness :
  exists loops, looping_nodes 6 two_starts = Ret loops
                /\ forall loop, In loop loops -> 2 <= length loop <= length two_starts + 1.
Proof.
  apply (looping_nodes_are_short two_starts 6).
  - well_formed_by_cases.
  - simpl. lia.
Defined.
